(** * Request-orchestration core of glance-china: rate limiter, cache store,
      worker pool, metrics monitor and service manager.

    The Go sources are embedded as pure functions with explicit state
    passing.  Clock readings ([time.Now()]) and the outcome of every
    interaction with the outside world (client requests, the race inside a
    [select]) are arguments of the functions that observe them. *)

From Stdlib Require Import ZArith Lia List.
From Stdlib Require SpecFloat.
From stdpp Require Import gmap strings list fin_maps.

Local Open Scope Z_scope.

(** ** float64 arithmetic (IEEE 754 binary64) *)

Module Float64.

(** A finite float64, or the exact result of an operation before it is
    rounded: the fraction [num / den], with [den > 0]. *)
Definition frac : Type := (Z * Z)%type.

(** The integer nearest to [n / d], for [0 <= n] and [0 < d]; a tie goes
    to the even one. *)
Definition nearest_even (n d : Z) : Z :=
  let q := n / d in
  let r := n mod d in
  if 2 * r <? d then q
  else if d <? 2 * r then q + 1
  else if Z.even q then q else q + 1.

(** The exponent of the unit in the last place of the float64 nearest to
    [n / d]: [floor(log2(n / d)) - 52], and [-1074] on the subnormal
    numbers. *)
Definition ulp_exp (n d : Z) : Z :=
  Z.max (Z.log2 (n * 2 ^ 1074 / d) - 1126) (-1074).

(** Rounding to nearest, ties to even, with a significand of 53 bits.
    Overflow to infinity, which takes a magnitude of [2^1024], is not
    modelled: the numbers rounded here are below [2^64]. *)
Definition round (x : frac) : frac :=
  let n := Z.abs (fst x) in
  let e := ulp_exp n (snd x) in
  let m := nearest_even (n * 2 ^ Z.max 0 (- e)) (snd x * 2 ^ Z.max 0 e) in
  (Z.sgn (fst x) * (m * 2 ^ Z.max 0 e), 2 ^ Z.max 0 (- e)).

(** [float64(z)] *)
Definition of_int (z : Z) : frac := round (z, 1).

(** [x + y] *)
Definition add (x y : frac) : frac :=
  round (fst x * snd y + fst y * snd x, snd x * snd y).

(** [x / y], for [y] other than zero. *)
Definition div (x y : frac) : frac :=
  round (fst x * snd y * Z.sgn (fst y), snd x * Z.abs (fst y)).

(** [int(x)]: the conversion truncates towards zero. *)
Definition to_int (x : frac) : Z := Z.quot (fst x) (snd x).

(** The Standard Library's specification of IEEE 754 arithmetic, at the
    precision and exponent range of binary64, to compare with. *)
Definition sf_of_int (z : Z) : SpecFloat.spec_float :=
  SpecFloat.binary_normalize 53 1024 z 0 false.

Definition sf_add : SpecFloat.spec_float → SpecFloat.spec_float → SpecFloat.spec_float :=
  SpecFloat.SFadd 53 1024.

Definition sf_div : SpecFloat.spec_float → SpecFloat.spec_float → SpecFloat.spec_float :=
  SpecFloat.SFdiv 53 1024.

(** The number a finite [spec_float] stands for. *)
Definition sf_value (x : SpecFloat.spec_float) : option frac :=
  match x with
  | SpecFloat.S754_zero _ => Some (0, 1)
  | SpecFloat.S754_finite s m e =>
      Some ((if s then -1 else 1) * (Z.pos m * 2 ^ Z.max 0 e), 2 ^ Z.max 0 (- e))
  | _ => None
  end.

(** The two fractions are the same number. *)
Definition same_value (x : frac) (y : option frac) : bool :=
  match y with
  | Some y => fst x * snd y =? fst y * snd x
  | None => false
  end.

End Float64.

(** ** Go machine integers and durations *)

Module GoInt.

Definition MaxInt64 : Z := 9223372036854775807.
Definition MinInt64 : Z := -9223372036854775808.

(** Two's-complement wrap-around of [int] / [int64] arithmetic. *)
Definition wrap64 (z : Z) : Z :=
  (z + 9223372036854775808) mod 18446744073709551616 - 9223372036854775808.

(** [time.Minute], in nanoseconds. *)
Definition Minute : Z := 60000000000.

(** [t.Sub(u)]: the difference as a [Duration], saturating at the
    largest and smallest [int64]. *)
Definition Time_Sub (t u : Z) : Z :=
  Z.max MinInt64 (Z.min MaxInt64 (t - u)).

(** [d.Minutes()]: the minutes of a duration as a [float64],
    [float64(min) + float64(nsec)/(60*1e9)] for [min := d / Minute] and
    [nsec := d % Minute]. *)
Definition Duration_Minutes (d : Z) : Float64.frac :=
  let min := Z.quot d Minute in
  let nsec := Z.rem d Minute in
  Float64.add (Float64.of_int min)
    (Float64.div (Float64.of_int nsec) (Float64.of_int 60000000000)).

(** [int(d.Minutes())] *)
Definition Minutes_int (d : Z) : Z := Float64.to_int (Duration_Minutes d).

(** [Duration.Minutes] over the Standard Library's specification of
    IEEE 754 arithmetic. *)
Definition sf_Minutes (d : Z) : SpecFloat.spec_float :=
  Float64.sf_add (Float64.sf_of_int (Z.quot d Minute))
    (Float64.sf_div (Float64.sf_of_int (Z.rem d Minute))
       (Float64.sf_of_int 60000000000)).

(** Durations around the places where the rounding of [Minutes] shows:
    the ends of a minute, the first binade in which a whole minute and
    its last nanosecond round together ([2^18] minutes), and the ends of
    the range of [Duration]. *)
Definition sample_durations : list Z :=
  [0; 1; -1; 29999999999; 30000000000; 59999999999; 60000000000; 60000000001;
   -59999999999; -60000000000; 150000000000;
   131071 * 60000000000 + 59999999999; 131072 * 60000000000 + 59999999999;
   262143 * 60000000000 + 59999999999; 262144 * 60000000000 + 59999999998;
   262144 * 60000000000 + 59999999999; - (262144 * 60000000000 + 59999999999);
   153722866 * 60000000000 + 59999999998; 153722866 * 60000000000 + 59999999999;
   9223372036854775807; -9223372036854775808].

(** The most whole minutes a [Duration] holds. *)
Definition MaxMinutes : Z := 153722867.

(** Pseudo-random durations to compare the two on: the values of a linear
    congruential generator over the range of [Duration]; the same reduced
    to some 330000 minutes, around the [2^18] where the rounding starts to
    show; and, next to each, the last nanosecond before a whole minute. *)
Definition last_nanosecond (d : Z) : Z := Z.quot d Minute * Minute - Z.sgn d.

Fixpoint random_durations (n : nat) (x : Z) : list Z :=
  match n with
  | O => []
  | S k =>
      let y := wrap64 (x * 6364136223846793005 + 1442695040888963407) in
      let z := Z.rem y 20000000000000000 in
      y :: last_nanosecond y :: z :: last_nanosecond z :: random_durations k y
  end.

(** Reading a Go map of numbers: a missing key reads as zero. *)
Definition zget (m : gmap string Z) (k : string) : Z := default 0 (m !! k).

End GoInt.
Import GoInt.

(** ** Rate limiter (package service, token bucket) *)

Module RateLimit.

Record RateLimitConfig := {
  DefaultLimit : Z;
  Services : gmap string Z;
  Window : Z
}.

Record tokenBucket := {
  tokens : Z;
  capacity : Z;
  refillRate : Z;
  lastRefill : Z
}.

Record TokenBucketLimiter := {
  buckets : gmap string tokenBucket;
  config : RateLimitConfig
}.

Definition NewRateLimiter (cfg : RateLimitConfig) : TokenBucketLimiter :=
  let w := if Window cfg =? 0 then Minute else Window cfg in
  let d := if DefaultLimit cfg =? 0 then 60 else DefaultLimit cfg in
  {| buckets := ∅;
     config := {| DefaultLimit := d; Services := Services cfg; Window := w |} |}.

(** The limit a first-use bucket is created with. *)
Definition limit_for (cfg : RateLimitConfig) (service : string) : Z :=
  match Services cfg !! service with
  | Some serviceLimit => serviceLimit
  | None => DefaultLimit cfg
  end.

Definition new_bucket (limit now : Z) : tokenBucket :=
  {| tokens := limit; capacity := limit; refillRate := limit; lastRefill := now |}.

Definition tokensToAdd (now : Z) (b : tokenBucket) : Z :=
  wrap64 (Minutes_int (Time_Sub now (lastRefill b)) * refillRate b).

(** The refill half of [consume]. *)
Definition refill (now : Z) (b : tokenBucket) : tokenBucket :=
  if 0 <? tokensToAdd now b
  then {| tokens := Z.min (capacity b) (wrap64 (tokens b + tokensToAdd now b));
          capacity := capacity b;
          refillRate := refillRate b;
          lastRefill := now |}
  else b.

Definition consume (now : Z) (b : tokenBucket) : bool * tokenBucket :=
  let b1 := refill now b in
  if 0 <? tokens b1
  then (true, {| tokens := wrap64 (tokens b1 - 1);
                 capacity := capacity b1;
                 refillRate := refillRate b1;
                 lastRefill := lastRefill b1 |})
  else (false, b1).

(** [Allow] reads the clock when it creates a bucket ([tCreate]) and
    again inside [consume] ([tConsume]). *)
Definition Allow (t : TokenBucketLimiter) (service : string)
    (tCreate tConsume : Z) : bool * TokenBucketLimiter :=
  let bucket :=
    match buckets t !! service with
    | Some b => b
    | None => new_bucket (limit_for (config t) service) tCreate
    end in
  let r := consume tConsume bucket in
  (fst r, {| buckets := <[service := snd r]> (buckets t); config := config t |}).

Definition Reset (t : TokenBucketLimiter) (service : string) (now : Z)
    : TokenBucketLimiter :=
  match buckets t !! service with
  | Some b =>
      {| buckets := <[service := {| tokens := capacity b;
                                    capacity := capacity b;
                                    refillRate := refillRate b;
                                    lastRefill := now |}]> (buckets t);
         config := config t |}
  | None => t
  end.

(** Consecutive [Allow] calls for one service, one pair of clock
    readings per call. *)
Fixpoint AllowMany (t : TokenBucketLimiter) (service : string)
    (clock : list (Z * Z)) : list bool * TokenBucketLimiter :=
  match clock with
  | [] => ([], t)
  | (tc, tu) :: rest =>
      let r := Allow t service tc tu in
      let rs := AllowMany (snd r) service rest in
      (fst r :: fst rs, snd rs)
  end.

Inductive limiter_op :=
| OpAllow (service : string) (tCreate tConsume : Z)
| OpReset (service : string) (now : Z).

Definition apply_op (t : TokenBucketLimiter) (op : limiter_op) : TokenBucketLimiter :=
  match op with
  | OpAllow s tc tu => snd (Allow t s tc tu)
  | OpReset s now => Reset t s now
  end.

Definition run_ops (t : TokenBucketLimiter) (ops : list limiter_op) : TokenBucketLimiter :=
  fold_left apply_op ops t.

(** The bucket invariant of the data model. *)
Definition bucket_inv (b : tokenBucket) : Prop := 0 <= tokens b <= capacity b.

Definition limiter_inv (t : TokenBucketLimiter) : Prop :=
  ∀ s b, buckets t !! s = Some b → bucket_inv b.

(** Clock readings under which [consume] finds no whole minute elapsed
    since the refill time [t0]. *)
Definition no_refill_elapsed (t0 : Z) (clock : list (Z * Z)) : Prop :=
  Forall (λ r, t0 <= snd r < t0 + Minute) clock.

(** Clock readings in which each call comes less than a minute after
    the one before. *)
Fixpoint gaps_under_a_minute (clock : list (Z * Z)) : Prop :=
  match clock with
  | r :: ((r' :: _) as rest) =>
      snd r <= fst r' ∧ fst r' <= snd r' < snd r + Minute ∧ gaps_under_a_minute rest
  | _ => True
  end.

(** Five calls, 59, 59, 1 and 1 seconds apart. *)
Definition slow_calls : list (Z * Z) :=
  [(0, 0); (59000000000, 59000000000); (118000000000, 118000000000);
   (119000000000, 119000000000); (120000000000, 120000000000)].

(** The largest limit for which no refill can leave the [int] range:
    a full bucket plus [MaxMinutes] refills of the same size. *)
Definition SafeLimit : Z := 59999999719.

Definition limits_in_range (cfg : RateLimitConfig) : Prop :=
  0 <= DefaultLimit cfg <= SafeLimit ∧
  ∀ s l, Services cfg !! s = Some l → 0 <= l <= SafeLimit.

Definition bucket_ok (b : tokenBucket) : Prop :=
  bucket_inv b ∧ capacity b <= SafeLimit ∧ 0 <= refillRate b <= SafeLimit.

Definition limiter_ok (t : TokenBucketLimiter) : Prop :=
  (∀ s b, buckets t !! s = Some b → bucket_ok b) ∧ limits_in_range (config t).

(** Three rate-limit configurations: a small limit, a negative one, and
    one just above [SafeLimit]. *)
Definition douyu_limits : RateLimitConfig :=
  {| DefaultLimit := 60; Services := {[ "douyu" := 2 ]}; Window := 0 |}.

Definition negative_limits : RateLimitConfig :=
  {| DefaultLimit := 60; Services := {[ "douyu" := -5 ]}; Window := 0 |}.

Definition huge_limits : RateLimitConfig :=
  {| DefaultLimit := 60; Services := {[ "douyu" := 59999999720 ]}; Window := 0 |}.

(** The clock readings an operation makes. *)
Definition op_times (op : limiter_op) : list Z :=
  match op with
  | OpAllow _ tCreate tConsume => [tCreate; tConsume]
  | OpReset _ now => [now]
  end.

(** An operation whose clock readings lie between [lo] and [hi]. *)
Definition op_within (lo hi : Z) (op : limiter_op) : Prop :=
  Forall (λ now, lo <= now <= hi) (op_times op).

(** A bucket that keeps the invariant, with a capacity and a refill rate
    of at most [L]. *)
Definition bucket_fits (L : Z) (b : tokenBucket) : Prop :=
  bucket_inv b ∧ capacity b <= L ∧ 0 <= refillRate b <= L.

(** The limit of [service] is [L], and its bucket, if it has one, fits
    [L] and was last refilled at a time of [P]. *)
Definition service_fits (P : Z → Prop) (L : Z) (t : TokenBucketLimiter)
    (service : string) : Prop :=
  limit_for (config t) service = L
  ∧ ∀ b, buckets t !! service = Some b → bucket_fits L b ∧ P (lastRefill b).

(** A small limit beside a negative one. *)
Definition mixed_limits : RateLimitConfig :=
  {| DefaultLimit := 60; Services := <["zhihu" := -5]> {[ "douyu" := 2 ]}; Window := 0 |}.

(** A limit above [SafeLimit], and calls that span three minutes. *)
Definition generous_limits : RateLimitConfig :=
  {| DefaultLimit := 60; Services := {[ "douyu" := 1000000000000 ]}; Window := 0 |}.

Definition three_minutes : list limiter_op :=
  [OpAllow "douyu" 0 0; OpAllow "douyu" 90000000000 90000000000;
   OpReset "douyu" 100000000000; OpAllow "douyu" 180000000000 180000000000].

(** The service an operation is for. *)
Definition op_service (op : limiter_op) : string :=
  match op with
  | OpAllow s _ _ => s
  | OpReset s _ => s
  end.

(** A bucket as [Allow] creates it: it refills by its capacity. *)
Definition refills_fully (b : tokenBucket) : Prop := refillRate b = capacity b.

End RateLimit.

(** ** Cache store (package service, in-memory backend) *)

Module Cache.

Record cacheItem := {
  value : list Byte.byte;
  expiredAt : Z
}.

Record MemoryCache := {
  data : gmap string cacheItem;
  maxSize : Z;
  currentSize : Z
}.

(** The errors [Get] and [Set] return: [fmt.Errorf("cache miss: %s", key)],
    [fmt.Errorf("cache expired: %s", key)], and the errors of
    [json.Unmarshal] and [json.Marshal]. *)
Inductive cache_error :=
| ErrCacheMiss (key : string)
| ErrCacheExpired (key : string)
| ErrUnmarshal
| ErrMarshal.

(** [int64(len(item.value))] *)
Definition item_size (item : cacheItem) : Z := Z.of_nat (length (value item)).

Definition NewMemoryCache (configMaxSize : Z) : MemoryCache :=
  {| data := ∅; maxSize := configMaxSize; currentSize := 0 |}.

Definition MemoryCache_Delete (m : MemoryCache) (key : string) : MemoryCache :=
  match data m !! key with
  | Some item =>
      {| data := delete key (data m);
         maxSize := maxSize m;
         currentSize := wrap64 (currentSize m - item_size item) |}
  | None => m
  end.

Definition MemoryCache_Clear (m : MemoryCache) : MemoryCache :=
  {| data := ∅; maxSize := maxSize m; currentSize := 0 |}.

(** One iteration of the loop of [evictLRU]: [acc] is
    [(oldestKey, oldestTime)]. *)
Definition evict_step (acc : string * Z) (kv : string * cacheItem) : string * Z :=
  if bool_decide (fst acc = EmptyString) || (expiredAt (snd kv) <? snd acc)
  then (fst kv, expiredAt (snd kv))
  else acc.

(** The loop of [evictLRU].  Go ranges over a map in an unspecified
    order: [order] is the order this run of the loop visits the entries
    in.  The zero [time.Time] that [oldestTime] starts as is never
    compared (the test on [oldestKey] short-circuits), so any start value
    does. *)
Definition evict_scan (order : list (string * cacheItem)) : string * Z :=
  fold_left evict_step order (EmptyString, 0).

(** An entry stored under a key other than the empty string, which
    [evictLRU] uses for "no key yet". *)
Definition named (kv : string * cacheItem) : Prop := fst kv ≠ EmptyString.

Definition evictLRU (order : list (string * cacheItem)) (m : MemoryCache)
    : MemoryCache :=
  let oldestKey := fst (evict_scan order) in
  if bool_decide (oldestKey = EmptyString) then m
  else MemoryCache_Delete m oldestKey.

Section Codec.
(** [json.Marshal] and [json.Unmarshal] on the values the cache is used
    with; [None] is their error. *)
Variable Value : Type.
Variable json_Marshal : Value → option (list Byte.byte).
Variable json_Unmarshal : list Byte.byte → option Value.

(** [Get] returns the decoded value ([inl], written to [dest]) or the
    error ([inr]); [now] is its clock reading. *)
Definition MemoryCache_Get (m : MemoryCache) (key : string) (now : Z)
    : (Value + cache_error) * MemoryCache :=
  match data m !! key with
  | None => (inr (ErrCacheMiss key), m)
  | Some item =>
      if expiredAt item <? now
      then (inr (ErrCacheExpired key), MemoryCache_Delete m key)
      else (match json_Unmarshal (value item) with
            | Some v => inl v
            | None => inr ErrUnmarshal
            end, m)
  end.

Definition MemoryCache_Set (order : list (string * cacheItem))
    (m : MemoryCache) (key : string) (v : Value) (ttl now : Z)
    : option cache_error * MemoryCache :=
  match json_Marshal v with
  | None => (Some ErrMarshal, m)
  | Some bytes =>
      let n := Z.of_nat (length bytes) in
      let m1 :=
        if (0 <? maxSize m) && (maxSize m <? wrap64 (currentSize m + n))
        then evictLRU order m else m in
      (None,
       {| data := <[key := {| value := bytes; expiredAt := now + ttl |}]> (data m1);
          maxSize := maxSize m1;
          currentSize := wrap64 (currentSize m1 + n) |})
  end.

(** One [Set] call of a run: its arguments, its clock reading and the
    order its eviction loop would visit the map in. *)
Record SetCall := {
  sc_key : string;
  sc_value : Value;
  sc_ttl : Z;
  sc_now : Z;
  sc_order : list (string * cacheItem)
}.

Definition do_set (m : MemoryCache) (c : SetCall) : MemoryCache :=
  snd (MemoryCache_Set (sc_order c) m (sc_key c) (sc_value c) (sc_ttl c) (sc_now c)).

Definition run_sets (m : MemoryCache) (calls : list SetCall) : MemoryCache :=
  fold_left do_set calls m.

(** Every call's iteration order enumerates the map as it is at that
    call. *)
Fixpoint orders_ok (m : MemoryCache) (calls : list SetCall) : Prop :=
  match calls with
  | [] => True
  | c :: rest => sc_order c ≡ₚ map_to_list (data m) ∧ orders_ok (do_set m c) rest
  end.

(** The size a call inserts, when its value serializes. *)
Definition call_size (c : SetCall) : option Z :=
  (λ bytes, Z.of_nat (length bytes)) <$> json_Marshal (sc_value c).

(** A call whose value serializes to [s] bytes. *)
Definition sized (s : Z) (c : SetCall) : Prop := call_size c = Some s.

(** The run that makes the given [Set] calls (key, value, ttl, clock
    reading), each eviction loop visiting the map in the order
    [map_to_list] lists it. *)
Fixpoint plan (m : MemoryCache) (args : list (string * Value * Z * Z))
    : list SetCall :=
  match args with
  | [] => []
  | (k, v, ttl, now) :: rest =>
      let c := {| sc_key := k; sc_value := v; sc_ttl := ttl; sc_now := now;
                  sc_order := map_to_list (data m) |} in
      c :: plan (do_set m c) rest
  end.

End Codec.

(** A cache of capacity [cap] whose entries all take [s] bytes, under
    non-empty keys, with the size accounted exactly. *)
Record uniform (cap s : Z) (m : MemoryCache) : Prop := {
  u_max : maxSize m = cap;
  u_size : currentSize m = s * Z.of_nat (size (data m));
  u_items : ∀ k i, data m !! k = Some i → item_size i = s ∧ k ≠ EmptyString;
  u_bound : currentSize m <= Z.max cap s
}.

(** Values that are stored as they are: JSON texts. *)
Definition raw_Marshal (v : list Byte.byte) : option (list Byte.byte) := Some v.
Definition raw_Unmarshal (bytes : list Byte.byte) : option (list Byte.byte) := Some bytes.

(** The JSON number written with [n] digits [1]. *)
Definition ones (n : nat) : list Byte.byte := replicate n Byte.x31.

(** One pass of the loop of [cleanup] at the clock reading [now]: an
    entry past its expiry is deleted and its size given back. *)
Definition cleanup_step (now : Z) (m : MemoryCache) (kv : string * cacheItem)
    : MemoryCache :=
  if expiredAt (snd kv) <? now
  then {| data := delete (fst kv) (data m);
          maxSize := maxSize m;
          currentSize := wrap64 (currentSize m - item_size (snd kv)) |}
  else m.

(** One tick of [cleanup]; [order] is the order the range visits the
    entries in. *)
Definition cleanup_tick (order : list (string * cacheItem)) (now : Z)
    (m : MemoryCache) : MemoryCache :=
  fold_left (cleanup_step now) order m.

(** The bytes the map really holds. *)
Definition stored_size (d : gmap string cacheItem) : Z :=
  map_fold (λ _ item acc, acc + item_size item) 0 d.

(** The accounted size is the stored one. *)
Definition exact (m : MemoryCache) : Prop :=
  currentSize m = stored_size (data m) ∧ stored_size (data m) <= MaxInt64.

(** A full cache of two entries, one of them under the empty key. *)
Definition soon : cacheItem := {| value := ones 1; expiredAt := 1 |}.
Definition late : cacheItem := {| value := ones 1; expiredAt := 100 |}.

Definition with_empty_key : MemoryCache :=
  {| data := <[EmptyString := soon]> {[ "a"%string := late ]};
     maxSize := 2; currentSize := 2 |}.

(** Five values of one byte each, for a cache of capacity 3. *)
Definition five_ones : list (string * list Byte.byte * Z * Z) :=
  [("a", ones 1, 50, 0); ("b", ones 1, 10, 1); ("c", ones 1, 30, 2);
   ("d", ones 1, 40, 3); ("e", ones 1, 20, 4)]%string.

(** Values of different sizes, for a cache of capacity 10. *)
Definition mixed_sizes : list (string * list Byte.byte * Z * Z) :=
  [("a", ones 1, 1, 0); ("b", ones 1, 2, 0); ("c", ones 8, 1000, 0);
   ("d", ones 9, 1000, 0); ("e", ones 1, 1000000, 0)]%string.

Arguments sc_key {Value} _.
Arguments sc_value {Value} _.
Arguments sc_ttl {Value} _.
Arguments sc_now {Value} _.
Arguments sc_order {Value} _.

End Cache.

(** ** Worker pool (package performance) *)

Module Pool.

Inductive pool_error := ErrQueueFull.

Section WorkerPool.
Variable Job : Type.

(** Where the goroutine of [dispatch] stands: blocked receiving from an
    empty [jobQueue], holding a job until a worker advertises its
    channel, or returned after [Stop]. *)
Inductive dispatcher :=
| Parked
| Holding (job : Job)
| Exited.

(** [jobQueue] is the buffer of the channel and [queueSize] its
    capacity ([make] panics on a negative one, hence [nat]); [idle]
    counts the workers whose channel sits in [workers], [running] lists
    the jobs being executed. *)
Record WorkerPool := {
  name : string;
  jobQueue : list Job;
  queueSize : nat;
  dispatch : dispatcher;
  idle : nat;
  running : list Job;
  maxWorkers : nat
}.

(** [NewWorkerPool] followed by [Start], once the goroutines it spawns
    have reached their first blocking point. *)
Definition NewWorkerPool (nm : string) (workers : nat) (size : nat) : WorkerPool :=
  {| name := nm; jobQueue := []; queueSize := size; dispatch := Parked;
     idle := workers; running := []; maxWorkers := workers |}.

(** [Submit]: a [select] with a [default] arm.  The send arm is ready
    when a receiver is blocked on the channel (the job is handed over)
    or when the buffer has room. *)
Definition Submit (wp : WorkerPool) (job : Job) : option pool_error * WorkerPool :=
  match dispatch wp with
  | Parked =>
      (None, {| name := name wp; jobQueue := jobQueue wp; queueSize := queueSize wp;
                dispatch := Holding job; idle := idle wp; running := running wp;
                maxWorkers := maxWorkers wp |})
  | _ =>
      if (length (jobQueue wp) <? queueSize wp)%nat
      then (None, {| name := name wp; jobQueue := jobQueue wp ++ [job];
                     queueSize := queueSize wp; dispatch := dispatch wp;
                     idle := idle wp; running := running wp;
                     maxWorkers := maxWorkers wp |})
      else (Some ErrQueueFull, wp)
  end.

(** The dispatcher hands the job it holds to an idle worker and takes
    the next one from the queue, parking when there is none. *)
Definition hand_over (wp : WorkerPool) : option WorkerPool :=
  match dispatch wp, idle wp with
  | Holding job, S k =>
      Some {| name := name wp;
              jobQueue := tail (jobQueue wp);
              queueSize := queueSize wp;
              dispatch := match jobQueue wp with
                          | [] => Parked
                          | next :: _ => Holding next
                          end;
              idle := k;
              running := job :: running wp;
              maxWorkers := maxWorkers wp |}
  | _, _ => None
  end.

(** [Stop] closes [quit]: the dispatcher returns. *)
Definition Stop (wp : WorkerPool) : WorkerPool :=
  {| name := name wp; jobQueue := jobQueue wp; queueSize := queueSize wp;
     dispatch := Exited; idle := idle wp; running := running wp;
     maxWorkers := maxWorkers wp |}.

Fixpoint SubmitMany (wp : WorkerPool) (jobs : list Job)
    : list (option pool_error) * WorkerPool :=
  match jobs with
  | [] => ([], wp)
  | j :: rest =>
      let r := Submit wp j in
      let rs := SubmitMany (snd r) rest in
      (fst r :: fst rs, snd rs)
  end.

(** Room left in the buffer of [jobQueue]. *)
Definition free (wp : WorkerPool) : nat :=
  (queueSize wp - length (jobQueue wp))%nat.

(** A receiver only blocks on an empty channel. *)
Definition pool_wf (wp : WorkerPool) : Prop :=
  dispatch wp = Parked → jobQueue wp = [].

(** The jobs the pool can take while no worker becomes free: the room in
    the buffer, and one more when the dispatcher is waiting to receive,
    which it holds until a worker is free. *)
Definition takes (wp : WorkerPool) : nat :=
  (free wp + match dispatch wp with Parked => 1 | _ => 0 end)%nat.

End WorkerPool.

Arguments Parked {Job}.
Arguments Holding {Job} job.
Arguments Exited {Job}.

(** What a call does: it returns, or it panics (a send on a closed
    channel, the close of a closed channel). *)
Inductive outcome (A : Type) :=
| Returns (a : A)
| Panics.

Arguments Returns {A} a.
Arguments Panics {A}.

Section ConnectionPool.
Variable Conn : Type.
Variable Err : Type.

(** [cp.close], the function that releases a connection; [None] is a nil
    error. *)
Variable close : Conn → option Err.

(** [connections] is the buffer of the channel, oldest first, and
    [cp_maxSize] its capacity; [chan_closed] tells that [Close] has closed
    the channel; [released] lists the connections [cp.close] was called
    on, in order. *)
Record ConnectionPool := {
  connections : list Conn;
  cp_maxSize : nat;
  chan_closed : bool;
  released : list Conn
}.

Definition NewConnectionPool (maxSize : nat) : ConnectionPool :=
  {| connections := []; cp_maxSize := maxSize; chan_closed := false; released := [] |}.

(** [Get]: a pooled connection when the channel holds one; on a closed,
    drained channel the receive yields the zero value, a nil connection
    with a nil error; otherwise what [cp.factory()] returns, [made]. *)
Definition ConnectionPool_Get (cp : ConnectionPool) (made : option Conn * option Err)
    : (option Conn * option Err) * ConnectionPool :=
  match connections cp with
  | conn :: rest =>
      ((Some conn, None),
       {| connections := rest; cp_maxSize := cp_maxSize cp;
          chan_closed := chan_closed cp; released := released cp |})
  | [] => if chan_closed cp then ((None, None), cp) else (made, cp)
  end.

(** [Put]: back into the channel when there is room, else the connection
    is closed and the result of closing it returned. *)
Definition ConnectionPool_Put (cp : ConnectionPool) (conn : Conn)
    : outcome (option Err * ConnectionPool) :=
  if chan_closed cp then Panics
  else if (length (connections cp) <? cp_maxSize cp)%nat
  then Returns (None,
                {| connections := connections cp ++ [conn]; cp_maxSize := cp_maxSize cp;
                   chan_closed := chan_closed cp; released := released cp |})
  else Returns (close conn,
                {| connections := connections cp; cp_maxSize := cp_maxSize cp;
                   chan_closed := chan_closed cp; released := released cp ++ [conn] |}).

(** The loop of [Close] over the closed channel: it stops at the first
    connection whose release fails.  The result is the error, the
    connections left in the channel and the connections released. *)
Fixpoint drain (conns done : list Conn) : option Err * list Conn * list Conn :=
  match conns with
  | [] => (None, [], done)
  | conn :: rest =>
      match close conn with
      | Some err => (Some err, rest, done ++ [conn])
      | None => drain rest (done ++ [conn])
      end
  end.

Definition ConnectionPool_Close (cp : ConnectionPool)
    : outcome (option Err * ConnectionPool) :=
  if chan_closed cp then Panics
  else
    let d := drain (connections cp) (released cp) in
    Returns (fst (fst d),
             {| connections := snd (fst d); cp_maxSize := cp_maxSize cp;
                chan_closed := true; released := snd d |}).

(** [Put] of each connection in turn, as long as none panics. *)
Fixpoint put_all (cp : ConnectionPool) (conns : list Conn)
    : outcome (list (option Err) * ConnectionPool) :=
  match conns with
  | [] => Returns ([], cp)
  | conn :: rest =>
      match ConnectionPool_Put cp conn with
      | Panics => Panics
      | Returns (err, cp1) =>
          match put_all cp1 rest with
          | Panics => Panics
          | Returns (errs, cp2) => Returns (err :: errs, cp2)
          end
      end
  end.

(** [n] calls of [Get], the factory answering [made] each time it is
    asked. *)
Fixpoint get_n (n : nat) (cp : ConnectionPool) (made : option Conn * option Err)
    : list (option Conn * option Err) * ConnectionPool :=
  match n with
  | O => ([], cp)
  | S k =>
      let g := ConnectionPool_Get cp made in
      let gs := get_n k (snd g) made in
      (fst g :: fst gs, snd gs)
  end.

End ConnectionPool.

(** A pool of one worker and a queue of two, the worker busy with job 1
    and the dispatcher holding job 2. *)
Definition saturated : WorkerPool nat :=
  {| name := "bilibili"; jobQueue := []; queueSize := 2; dispatch := Holding 2%nat;
     idle := 0; running := [1%nat]; maxWorkers := 1 |}.

(** A pool of one worker and a queue of two, the worker busy with job 1
    and the dispatcher waiting on the empty queue. *)
Definition worker_busy : WorkerPool nat :=
  {| name := "bilibili"; jobQueue := []; queueSize := 2; dispatch := Parked;
     idle := 0; running := [1%nat]; maxWorkers := 1 |}.

(** Releasing fails for the connection 0 only. *)
Definition close_unless_zero (c : nat) : option string :=
  match c with
  | O => Some "broken pipe"%string
  | S _ => None
  end.

End Pool.

(** ** Metrics monitor (package performance) *)

Module Monitor.

(** The counters and timers the record operations touch; durations in
    nanoseconds.  The cache, runtime and timestamp fields of [Metrics],
    which no record operation reads or writes, are left out. *)
Record Metrics := {
  HTTPRequests : Z;
  HTTPErrors : Z;
  HTTPResponseTime : Z;
  APIRequests : gmap string Z;
  APIErrors : gmap string Z;
  APIResponseTimes : gmap string Z;
  WidgetLoadTimes : gmap string Z;
  WidgetErrors : gmap string Z
}.

Definition NewMonitor : Metrics :=
  {| HTTPRequests := 0; HTTPErrors := 0; HTTPResponseTime := 0;
     APIRequests := ∅; APIErrors := ∅; APIResponseTimes := ∅;
     WidgetLoadTimes := ∅; WidgetErrors := ∅ |}.

(** [m[k]++] *)
Definition incr (m : gmap string Z) (k : string) : gmap string Z :=
  <[k := wrap64 (zget m k + 1)]> m.

(** [(avg + sample) / 2] on [time.Duration]. *)
Definition halve (avg sample : Z) : Z := Z.quot (wrap64 (avg + sample)) 2.

Definition RecordHTTPRequest (m : Metrics) (duration : Z) (isError : bool) : Metrics :=
  let requests := wrap64 (HTTPRequests m + 1) in
  {| HTTPRequests := requests;
     HTTPErrors := if isError then wrap64 (HTTPErrors m + 1) else HTTPErrors m;
     HTTPResponseTime :=
       if requests =? 1 then duration else halve (HTTPResponseTime m) duration;
     APIRequests := APIRequests m; APIErrors := APIErrors m;
     APIResponseTimes := APIResponseTimes m;
     WidgetLoadTimes := WidgetLoadTimes m; WidgetErrors := WidgetErrors m |}.

Definition RecordAPIRequest (m : Metrics) (service : string) (duration : Z)
    (isError : bool) : Metrics :=
  let fresh := zget (APIRequests m) service =? 0 in
  let requests0 := if fresh then <[service := 0]> (APIRequests m) else APIRequests m in
  let errors0 := if fresh then <[service := 0]> (APIErrors m) else APIErrors m in
  let times0 := if fresh then <[service := 0]> (APIResponseTimes m) else APIResponseTimes m in
  let requests := incr requests0 service in
  let errors := if isError then incr errors0 service else errors0 in
  let times :=
    if zget requests service =? 1
    then <[service := duration]> times0
    else <[service := halve (zget times0 service) duration]> times0 in
  {| HTTPRequests := HTTPRequests m; HTTPErrors := HTTPErrors m;
     HTTPResponseTime := HTTPResponseTime m;
     APIRequests := requests; APIErrors := errors; APIResponseTimes := times;
     WidgetLoadTimes := WidgetLoadTimes m; WidgetErrors := WidgetErrors m |}.

Definition RecordWidgetLoad (m : Metrics) (widgetType : string) (duration : Z)
    (isError : bool) : Metrics :=
  let fresh := zget (WidgetLoadTimes m) widgetType =? 0 in
  let times0 := if fresh then <[widgetType := 0]> (WidgetLoadTimes m) else WidgetLoadTimes m in
  let errors0 := if fresh then <[widgetType := 0]> (WidgetErrors m) else WidgetErrors m in
  let count := wrap64 (zget (APIRequests m) widgetType - zget errors0 widgetType) in
  {| HTTPRequests := HTTPRequests m; HTTPErrors := HTTPErrors m;
     HTTPResponseTime := HTTPResponseTime m;
     APIRequests := APIRequests m; APIErrors := APIErrors m;
     APIResponseTimes := APIResponseTimes m;
     WidgetLoadTimes :=
       if isError then times0
       else if count =? 1 then <[widgetType := duration]> times0
       else if 1 <? count then <[widgetType := halve (zget times0 widgetType) duration]> times0
       else times0;
     WidgetErrors := if isError then incr errors0 widgetType else errors0 |}.

(** Record operations in a row: HTTP requests given by duration and error
    flag, API requests by service, duration and error flag, failed loads of
    one widget by duration. *)
Definition record_http (m : Metrics) (sample : Z * bool) : Metrics :=
  RecordHTTPRequest m (fst sample) (snd sample).

Definition record_https (m : Metrics) (samples : list (Z * bool)) : Metrics :=
  fold_left record_http samples m.

Definition record_api (m : Metrics) (call : string * Z * bool) : Metrics :=
  RecordAPIRequest m (fst (fst call)) (snd (fst call)) (snd call).

Definition record_apis (m : Metrics) (calls : list (string * Z * bool)) : Metrics :=
  fold_left record_api calls m.

Definition record_failed_loads (m : Metrics) (widgetType : string)
    (durations : list Z) : Metrics :=
  fold_left (λ acc d, RecordWidgetLoad acc widgetType d true) durations m.

(** How many of the calls are for the service, and how many of those carry
    the error flag. *)
Definition requests_for (s : string) (calls : list (string * Z * bool)) : Z :=
  Z.of_nat (length (filter (λ c, fst (fst c) = s) calls)).

Definition errors_for (s : string) (calls : list (string * Z * bool)) : Z :=
  Z.of_nat (length (filter (λ c, fst (fst c) = s ∧ snd c = true) calls)).

(** The part of [Monitor] that [Start] and [Stop] work on: the [running]
    flag ([monitor_running]) and whether [stopCh] has been closed. *)
Record Lifecycle := {
  monitor_running : bool;
  stopCh_closed : bool
}.

Definition NewLifecycle : Lifecycle := {| monitor_running := false; stopCh_closed := false |}.

(** [Start]: returns at once when the monitor is running; otherwise it
    sets [running], creates the ticker ([time.NewTicker] panics on an
    interval that is not positive) and runs the loop, [true] in the
    result.  The loop ends when the context is done or [stopCh] is closed;
    [running] stays set when it does. *)
Definition Start (l : Lifecycle) (interval : Z) : Pool.outcome (bool * Lifecycle) :=
  if monitor_running l then Pool.Returns (false, l)
  else if interval <=? 0 then Pool.Panics
  else Pool.Returns (true, {| monitor_running := true; stopCh_closed := stopCh_closed l |}).

(** [Stop]: closes [stopCh] when the monitor is running; closing a closed
    channel panics. *)
Definition Stop (l : Lifecycle) : Pool.outcome Lifecycle :=
  if monitor_running l
  then if stopCh_closed l then Pool.Panics
       else Pool.Returns {| monitor_running := false; stopCh_closed := true |}
  else Pool.Returns l.

End Monitor.

(** ** Service manager (package service) *)

Module Manager.
Import RateLimit Pool Monitor.

Record APIRequest := {
  Method : string;
  Path : string;
  Timeout : Z
}.

Record APIResponse := {
  StatusCode : Z;
  Body : list Byte.byte;
  Duration : Z
}.

(** [ctx.Err()] of a finished context. *)
Inductive context_error := Canceled | DeadlineExceeded.

Inductive error :=
| ErrClientNotFound (serviceName : string)
| ErrRateLimit (serviceName : string)
| ErrPool (e : pool_error)
| ErrContext (e : context_error)
| ErrUpstream (msg : string)
| ErrAllFailed (serviceName : string).

(** What [BaseClient.Request] returns: a response with a nil error, or a
    nil response with the error. *)
Inductive RequestResult :=
| ReqOk (resp : APIResponse)
| ReqErr (e : error).

(** A client and the upstream behind it: [behaviour n req] is what the
    [n]-th call of [Request] returns, [calls] counts the calls made. *)
Record APIClient := {
  GetName : string;
  GetBaseURL : string;
  behaviour : nat → APIRequest → RequestResult;
  calls : nat
}.

Definition Request (c : APIClient) (req : APIRequest) : RequestResult * APIClient :=
  (behaviour c (calls c) req,
   {| GetName := GetName c; GetBaseURL := GetBaseURL c;
      behaviour := behaviour c; calls := S (calls c) |}).

Record APISourceConfig := {
  BaseURL : string;
  RateLimit : Z;
  Fallbacks : list string
}.

Record OptimizerConfig := {
  MaxWorkers : nat;
  QueueSize : nat
}.

Record Config := {
  APISources : gmap string APISourceConfig;
  RateLimitCfg : RateLimitConfig;
  Performance : OptimizerConfig
}.

(** [performance.Job] as the manager builds it: [ID] is the service name
    and the nanosecond stamp that [Sprintf] joins; the closure [Function]
    is given by the client it calls and the request it passes. *)
Record Job := {
  ID : string * Z;
  job_client : string;
  job_request : APIRequest
}.

(** [performance.Optimizer], the registry of pools. *)
Record Optimizer := {
  opt_config : OptimizerConfig;
  pools : gmap string (WorkerPool Job)
}.

Definition NewOptimizer (cfg : OptimizerConfig) (numCPU : nat) : Optimizer :=
  {| opt_config :=
       {| MaxWorkers := if (MaxWorkers cfg =? 0)%nat then (numCPU * 2)%nat else MaxWorkers cfg;
          QueueSize := if (QueueSize cfg =? 0)%nat then 1000%nat else QueueSize cfg |};
     pools := ∅ |}.

Definition GetOrCreatePool (o : Optimizer) (nm : string) : WorkerPool Job * Optimizer :=
  match pools o !! nm with
  | Some pool => (pool, o)
  | None =>
      let pool := NewWorkerPool Job nm (MaxWorkers (opt_config o)) (QueueSize (opt_config o)) in
      (pool, {| opt_config := opt_config o; pools := <[nm := pool]> (pools o) |})
  end.

(** The registry after asking for the pools of the given names in turn. *)
Definition registry_after (o : Optimizer) (names : list string) : Optimizer :=
  fold_left (λ acc nm, snd (GetOrCreatePool acc nm)) names o.

(** The pool once every job it accepted has been executed. *)
Definition quiesce (wp : WorkerPool Job) : WorkerPool Job :=
  {| name := name _ wp; jobQueue := []; queueSize := queueSize _ wp;
     dispatch := match dispatch _ wp with Exited => Exited | _ => Parked end;
     idle := maxWorkers _ wp; running := []; maxWorkers := maxWorkers _ wp |}.

(** The cache manager, which [RequestWithFallback] does not use, is left
    out. *)
Record ServiceManager := {
  clients : gmap string APIClient;
  limiter : TokenBucketLimiter;
  config : Config;
  monitor : Metrics;
  optimizer : Optimizer
}.

(** [registered] are the clients that [initializeClients] builds for the
    configured sources. *)
Definition NewServiceManager (cfg : Config) (numCPU : nat)
    (registered : gmap string APIClient) : ServiceManager :=
  {| clients := registered;
     limiter := NewRateLimiter (RateLimitCfg cfg);
     config := cfg;
     monitor := NewMonitor;
     optimizer := NewOptimizer (Performance cfg) numCPU |}.

Definition GetClient (sm : ServiceManager) (serviceName : string) : APIClient + error :=
  match clients sm !! serviceName with
  | Some client => inl client
  | None => inr (ErrClientNotFound serviceName)
  end.

(** Which arm of the [select] on the result channel and [ctx.Done()]
    fires.  The worker runs [job.Function] beside the caller and is not
    stopped when the context ends: [ran] tells whether it has called it
    by the time the caller returns through the [ctx.Done()] arm. *)
Inductive wait_outcome :=
| ResultFirst
| DoneFirst (e : context_error) (ran : bool).

(** What one call observes of its environment: the clock readings of
    [Allow], the stamp of the job ID, the arm of the [select], and
    [time.Since(start)] when the deferred function runs. *)
Record Run := {
  allow_clock : Z * Z;
  job_stamp : Z;
  wait : wait_outcome;
  since_start : Z
}.

(** The closure submitted as [job.Function]. *)
Definition job_Function (client : APIClient) (req : APIRequest)
    : option error * APIClient :=
  let r := Request client req in
  let reqErr := match fst r with ReqOk _ => None | ReqErr e => Some e end in
  match fst r with
  | ReqOk resp => (if StatusCode resp <? 400 then None else reqErr, snd r)
  | ReqErr _ => (reqErr, snd r)
  end.

(** The loop over [config.Fallbacks]. *)
Fixpoint try_fallbacks (cs : gmap string APIClient) (fallbacks : list string)
    (req : APIRequest) : option APIResponse * gmap string APIClient :=
  match fallbacks with
  | [] => (None, cs)
  | fallback :: rest =>
      match cs !! fallback with
      | None => try_fallbacks cs rest req
      | Some fallbackClient =>
          let r := Request fallbackClient req in
          match fst r with
          | ReqOk resp => (Some resp, <[fallback := snd r]> cs)
          | ReqErr _ => try_fallbacks (<[fallback := snd r]> cs) rest req
          end
      end
  end.

Definition fallbacks_of (cfg : Config) (serviceName : string) : list string :=
  match APISources cfg !! serviceName with
  | Some c => Fallbacks c
  | None => []
  end.

Definition with_clients (sm : ServiceManager) (cs : gmap string APIClient) : ServiceManager :=
  {| clients := cs; limiter := limiter sm; config := config sm;
     monitor := monitor sm; optimizer := optimizer sm |}.

Definition with_limiter (sm : ServiceManager) (l : TokenBucketLimiter) : ServiceManager :=
  {| clients := clients sm; limiter := l; config := config sm;
     monitor := monitor sm; optimizer := optimizer sm |}.

Definition with_optimizer (sm : ServiceManager) (o : Optimizer) : ServiceManager :=
  {| clients := clients sm; limiter := limiter sm; config := config sm;
     monitor := monitor sm; optimizer := o |}.

Definition with_monitor (sm : ServiceManager) (m : Metrics) : ServiceManager :=
  {| clients := clients sm; limiter := limiter sm; config := config sm;
     monitor := m; optimizer := optimizer sm |}.

Definition with_pool (o : Optimizer) (nm : string) (wp : WorkerPool Job) : Optimizer :=
  {| opt_config := opt_config o; pools := <[nm := wp]> (pools o) |}.

(** What the body of [RequestWithFallback] leaves behind: the returned
    response, the returned error, and the value of the function-level
    variable [err], which the deferred function reads. *)
Record Outcome := {
  out_resp : option APIResponse;
  out_err : option error;
  err_var : option error
}.

(** The [performance.Job] that [RequestWithFallback] builds. *)
Definition new_job (serviceName : string) (req : APIRequest) (run : Run) : Job :=
  {| ID := (serviceName, job_stamp run);
     job_client := serviceName;
     job_request := req |}.

(** How the part before the fallback loop ends: with a [return], or by
    falling out of the [select] with the job's error in [err]. *)
Inductive primary_result :=
| Returned (o : Outcome)
| JobFailed (e : error).

(** [RequestWithFallback] down to the end of the [select].  The worker
    runs [job.Function] before the result arm of the [select] fires; when
    the context ends first the call returns without waiting for it,
    whether the worker has run the job by then or the job is still with
    the pool. *)
Definition primary (sm : ServiceManager) (serviceName : string)
    (req : APIRequest) (run : Run) : primary_result * ServiceManager :=
  match GetClient sm serviceName with
  | inr e => (Returned {| out_resp := None; out_err := Some e; err_var := Some e |}, sm)
  | inl client =>
      let a := Allow (limiter sm) serviceName (fst (allow_clock run)) (snd (allow_clock run)) in
      let sm1 := with_limiter sm (snd a) in
      if negb (fst a)
      then (Returned {| out_resp := None;
                        out_err := Some (ErrRateLimit serviceName);
                        err_var := Some (ErrRateLimit serviceName) |}, sm1)
      else
        let p := GetOrCreatePool (optimizer sm1) serviceName in
        let sm2 := with_optimizer sm1 (snd p) in
        let job := new_job serviceName req run in
        match Submit Job (fst p) job with
        | (Some e, _) =>
            (* [if err := pool.Submit(job); err != nil]: a new [err],
               local to the [if] *)
            (Returned {| out_resp := None; out_err := Some (ErrPool e); err_var := None |},
             sm2)
        | (None, pool1) =>
            let sm3 := with_optimizer sm2 (with_pool (snd p) serviceName pool1) in
            match wait run with
            | DoneFirst ce ran =>
                (Returned {| out_resp := None;
                             out_err := Some (ErrContext ce);
                             err_var := Some (ErrContext ce) |},
                 if ran
                 then with_clients
                        (with_optimizer sm3 (with_pool (snd p) serviceName (quiesce pool1)))
                        (<[serviceName := snd (job_Function client req)]> (clients sm3))
                 else sm3)
            | ResultFirst =>
                let j := job_Function client req in
                let sm4 :=
                  with_clients
                    (with_optimizer sm3 (with_pool (snd p) serviceName (quiesce pool1)))
                    (<[serviceName := snd j]> (clients sm3)) in
                match fst j with
                | None =>
                    let r := Request (snd j) req in
                    (Returned
                       {| out_resp := match fst r with
                                      | ReqOk resp => Some resp
                                      | ReqErr _ => None
                                      end;
                          out_err := None;
                          err_var := None |},
                     with_clients sm4 (<[serviceName := snd r]> (clients sm4)))
                | Some e => (JobFailed e, sm4)
                end
            end
        end
  end.

(** The rest of [RequestWithFallback]: the fallback loop and the final
    [return]; [e] is what [err] holds. *)
Definition fallback (sm : ServiceManager) (serviceName : string)
    (req : APIRequest) (e : error) : Outcome * ServiceManager :=
  let f := try_fallbacks (clients sm) (fallbacks_of (config sm) serviceName) req in
  match fst f with
  | Some resp =>
      ({| out_resp := Some resp; out_err := None; err_var := Some e |},
       with_clients sm (snd f))
  | None =>
      ({| out_resp := None; out_err := Some (ErrAllFailed serviceName); err_var := Some e |},
       with_clients sm (snd f))
  end.

(** The body of [RequestWithFallback], up to its [return]. *)
Definition body (sm : ServiceManager) (serviceName : string)
    (req : APIRequest) (run : Run) : Outcome * ServiceManager :=
  match primary sm serviceName req run with
  | (Returned o, sm') => (o, sm')
  | (JobFailed e, sm') => fallback sm' serviceName req e
  end.

(** [RequestWithFallback]: the body, then the deferred
    [RecordAPIRequest(serviceName, time.Since(start), err != nil)]. *)
Definition RequestWithFallback (sm : ServiceManager) (serviceName : string)
    (req : APIRequest) (run : Run)
    : option APIResponse * option error * ServiceManager :=
  let b := body sm serviceName req run in
  (out_resp (fst b), out_err (fst b),
   with_monitor (snd b)
     (RecordAPIRequest (monitor (snd b)) serviceName (since_start run)
        (bool_decide (err_var (fst b) ≠ None)))).

(** The flag that the deferred function passes to [RecordAPIRequest]:
    [err != nil] for the function-level [err]. *)
Definition recorded_flag (sm : ServiceManager) (serviceName : string)
    (req : APIRequest) (run : Run) : bool :=
  bool_decide (err_var (fst (body sm serviceName req run)) ≠ None).

(** *** A primary service A with the fallback chain [B, C] *)

Definition get_videos : APIRequest :=
  {| Method := "GET"; Path := "/videos"; Timeout := 0 |}.

Definition ok (body : list Byte.byte) : APIResponse :=
  {| StatusCode := 200; Body := body; Duration := 1000 |}.

(** A client whose upstream times out on every call. *)
Definition failing (nm : string) : APIClient :=
  {| GetName := nm; GetBaseURL := ""; calls := 0;
     behaviour := λ _ _, ReqErr (ErrUpstream "timeout") |}.

(** A client whose upstream answers every call with [resp]. *)
Definition serving (nm : string) (resp : APIResponse) : APIClient :=
  {| GetName := nm; GetBaseURL := ""; calls := 0;
     behaviour := λ _ _, ReqOk resp |}.

(** A client whose upstream answers the first call and times out on
    every later one. *)
Definition flaky (nm : string) (resp : APIResponse) : APIClient :=
  {| GetName := nm; GetBaseURL := ""; calls := 0;
     behaviour := λ n _, match n with
                         | O => ReqOk resp
                         | S _ => ReqErr (ErrUpstream "timeout")
                         end |}.

Definition chain_config : Config :=
  {| APISources :=
       {[ "A" := {| BaseURL := ""; RateLimit := 60; Fallbacks := ["B"; "C"] |} ]};
     RateLimitCfg :=
       {| RateLimit.DefaultLimit := 60; RateLimit.Services := ∅; RateLimit.Window := 0 |};
     Performance := {| MaxWorkers := 1; QueueSize := 1 |} |}.

Definition response_of_C : APIResponse := ok [Byte.x43].

Definition chain_manager : ServiceManager :=
  NewServiceManager chain_config 1
    (<["A" := failing "A"]> (<["B" := failing "B"]> {[ "C" := serving "C" response_of_C ]})).

Definition flaky_manager : ServiceManager :=
  NewServiceManager chain_config 1 {[ "A" := flaky "A" (ok [Byte.x41]) ]}.

(** The pool of A with its only worker busy, the dispatcher holding a
    second job and a third one filling the queue. *)
Definition busy_manager : ServiceManager :=
  with_optimizer chain_manager
    {| opt_config := opt_config (optimizer chain_manager);
       pools :=
         {[ "A" := {| name := "A";
                      jobQueue := [{| ID := ("A"%string, 3); job_client := "A";
                                      job_request := get_videos |}];
                      queueSize := 1;
                      dispatch := Holding {| ID := ("A"%string, 2); job_client := "A";
                                             job_request := get_videos |};
                      idle := 0;
                      running := [{| ID := ("A"%string, 1); job_client := "A";
                                     job_request := get_videos |}];
                      maxWorkers := 1 |} ]} |}.

Definition first_run : Run :=
  {| allow_clock := (10, 10); job_stamp := 10; wait := ResultFirst;
     since_start := 2000000 |}.

(** The manager of the chain example with a limit of 0 for A. *)
Definition closed_manager : ServiceManager :=
  with_limiter chain_manager
    (RateLimit.NewRateLimiter
       {| RateLimit.DefaultLimit := 60; RateLimit.Services := {[ "A" := 0 ]};
          RateLimit.Window := 0 |}).

(** A client whose upstream answers every call with the status 503. *)
Definition unavailable : APIClient :=
  serving "A" {| StatusCode := 503; Body := []; Duration := 1000 |}.

(** The chain example with C failing as well. *)
Definition dark_manager : ServiceManager :=
  NewServiceManager chain_config 1
    (<["A" := failing "A"]> (<["B" := failing "B"]> {[ "C" := failing "C" ]})).

End Manager.

(** * Properties *)

(** ** float64 arithmetic *)

Module Float64Facts.
Import Float64.

Lemma nearest_even_le (n d k : Z) :
  0 <= n → 0 < d → 2 * n < (2 * k + 1) * d → nearest_even n d <= k.
Proof.
  intros Hn Hd Hk. unfold nearest_even.
  pose proof (Z.div_mod n d ltac:(lia)) as Hdm.
  pose proof (Z.mod_pos_bound n d Hd) as Hr.
  set (q := n / d) in *. set (r := n mod d) in *.
  assert (q <= k) as Hq by nia.
  destruct (Z.ltb_spec (2 * r) d); [exact Hq |].
  assert (q + 1 <= k) by nia.
  destruct (Z.ltb_spec d (2 * r)); [lia |].
  destruct (Z.even q); lia.
Qed.

Lemma nearest_even_ge (n d k : Z) :
  0 <= n → 0 < d → (2 * k - 1) * d < 2 * n → k <= nearest_even n d.
Proof.
  intros Hn Hd Hk. unfold nearest_even.
  pose proof (Z.div_mod n d ltac:(lia)) as Hdm.
  pose proof (Z.mod_pos_bound n d Hd) as Hr.
  set (q := n / d) in *. set (r := n mod d) in *.
  assert (k <= q + 1) as Hq by nia.
  destruct (Z.ltb_spec (2 * r) d); [nia |].
  destruct (Z.ltb_spec d (2 * r)); [lia |].
  destruct (Z.even q) eqn:He; [| lia].
  assert (2 * r = d) by lia.
  nia.
Qed.


Lemma round_zero (d : Z) : 0 < d → round (0, d) = (0, 2 ^ 1074).
Proof.
  intros Hd. unfold round. cbn [fst snd].
  change (Z.abs 0) with 0. change (Z.sgn 0) with 0.
  assert (ulp_exp 0 d = -1074) as ->.
  { unfold ulp_exp. rewrite Z.mul_0_l, Z.div_0_l by lia. reflexivity. }
  reflexivity.
Qed.

(** The exponent of a number in the normal range. *)
Lemma ulp_exp_normal (n d : Z) :
  0 < n → 0 < d → d <= n * 2 ^ 1022 →
  -1074 <= ulp_exp n d
  ∧ 2 ^ (ulp_exp n d + 1126) * d <= n * 2 ^ 1074 < 2 ^ (ulp_exp n d + 1127) * d.
Proof.
  intros Hn Hd Hnorm. unfold ulp_exp.
  set (X := n * 2 ^ 1074 / d).
  assert (2 ^ 52 <= X) as HX.
  { apply Z.div_le_lower_bound; [exact Hd |].
    replace (2 ^ 1074) with (2 ^ 1022 * 2 ^ 52) by (rewrite <- Z.pow_add_r by lia; reflexivity).
    assert (0 < 2 ^ 52) by (apply Z.pow_pos_nonneg; lia).
    nia. }
  assert (0 < X) as HX0 by (assert (0 < 2 ^ 52) by (apply Z.pow_pos_nonneg; lia); lia).
  assert (52 <= Z.log2 X) as HL.
  { rewrite <- (Z.log2_pow2 52) by lia. apply Z.log2_le_mono. exact HX. }
  rewrite Z.max_l by lia.
  replace (Z.log2 X - 1126 + 1126) with (Z.log2 X) by lia.
  replace (Z.log2 X - 1126 + 1127) with (Z.succ (Z.log2 X)) by lia.
  destruct (Z.log2_spec X HX0) as [Hlo Hhi].
  pose proof (Z.mul_div_le (n * 2 ^ 1074) d Hd) as Hle.
  pose proof (Z.mul_succ_div_gt (n * 2 ^ 1074) d Hd) as Hgt.
  fold X in Hle, Hgt.
  split; [lia |]. split; nia.
Qed.

(** Rounding a positive number of the normal range below [2^53]: the
    result is the nearest multiple of [2^-p], where [p] puts the
    significand between [2^52] and [2^53]. *)
Lemma round_normal (n d : Z) :
  0 < n → 0 < d → d <= n * 2 ^ 1022 → n < 2 ^ 53 * d →
  ∃ p, 0 <= p
    ∧ round (n, d) = (nearest_even (n * 2 ^ p) d, 2 ^ p)
    ∧ 2 ^ 52 * d <= n * 2 ^ p < 2 ^ 53 * d.
Proof.
  intros Hn Hd Hnorm Hlt.
  destruct (ulp_exp_normal n d Hn Hd Hnorm) as (Hmin & Hlo & Hhi).
  set (e := ulp_exp n d) in *.
  assert (e <= 0) as He.
  { destruct (Z_le_gt_dec e 0) as [? | Hpos]; [assumption | exfalso].
    assert (2 ^ 1127 <= 2 ^ (e + 1126)) as Hpow by (apply Z.pow_le_mono_r; lia).
    assert (2 ^ 1127 = 2 ^ 53 * 2 ^ 1074) as Heq
      by (rewrite <- Z.pow_add_r by lia; reflexivity).
    assert (0 < 2 ^ 1074) by (apply Z.pow_pos_nonneg; lia).
    nia. }
  exists (- e). split; [lia |].
  assert (2 ^ 1074 = 2 ^ (- e) * 2 ^ (1074 + e)) as H1074
    by (rewrite <- Z.pow_add_r by lia; f_equal; lia).
  assert (2 ^ (e + 1126) = 2 ^ 52 * 2 ^ (1074 + e)) as H1126
    by (rewrite <- Z.pow_add_r by lia; f_equal; lia).
  assert (2 ^ (e + 1127) = 2 ^ 53 * 2 ^ (1074 + e)) as H1127
    by (rewrite <- Z.pow_add_r by lia; f_equal; lia).
  assert (0 < 2 ^ (1074 + e)) as HT by (apply Z.pow_pos_nonneg; lia).
  split.
  - unfold round. cbn [fst snd]. fold e.
    rewrite (Z.abs_eq n) by lia. fold e.
    rewrite (Z.max_l 0 e) by lia. rewrite (Z.max_r 0 (- e)) by lia.
    rewrite Z.sgn_pos by lia.
    rewrite Z.pow_0_r, !Z.mul_1_r, Z.mul_1_l. reflexivity.
  - rewrite H1074, H1126 in Hlo. rewrite H1074, H1127 in Hhi.
    set (T := 2 ^ (1074 + e)) in *. set (P := 2 ^ (- e)) in *.
    split; nia.
Qed.

(** Rounding does not cross a number of its grid: [a / 2^j] is a float
    when the rounded number is below [2^(53-j)]. *)
Lemma round_le (n d a j : Z) :
  0 <= n → 0 < d → n = 0 ∨ d <= n * 2 ^ 1022 →
  0 <= j → 0 <= a →
  n * 2 ^ j <= a * d →
  n * 2 ^ j < 2 ^ 53 * d →
  fst (round (n, d)) * 2 ^ j <= a * snd (round (n, d)).
Proof.
  intros Hn Hd Hnorm Hj Ha Hle Hlt.
  assert (0 < 2 ^ j) as Hpj by (apply Z.pow_pos_nonneg; lia).
  destruct (Z.eq_dec n 0) as [-> | Hne].
  - rewrite round_zero by exact Hd. cbn [fst snd].
    assert (0 < 2 ^ 1074) by (apply Z.pow_pos_nonneg; lia). nia.
  - destruct Hnorm as [? | Hnorm]; [contradiction |].
    destruct (round_normal n d) as (p & Hp & -> & Hlo & Hhi);
      [lia | exact Hd | exact Hnorm | nia |].
    cbn [fst snd].
    assert (j <= p) as Hjp.
    { destruct (Z_le_gt_dec j p) as [? | Hgt]; [assumption | exfalso].
      assert (2 ^ (p + 1) <= 2 ^ j) as Hpow by (apply Z.pow_le_mono_r; lia).
      rewrite Z.pow_add_r in Hpow by lia. change (2 ^ 1) with 2 in Hpow.
      assert (0 < 2 ^ p) by (apply Z.pow_pos_nonneg; lia).
      nia. }
    assert (2 ^ p = 2 ^ j * 2 ^ (p - j)) as Hsplit
      by (rewrite <- Z.pow_add_r by lia; f_equal; lia).
    assert (0 < 2 ^ (p - j)) as Hpq by (apply Z.pow_pos_nonneg; lia).
    rewrite Hsplit.
    set (J := 2 ^ j) in *. set (Q := 2 ^ (p - j)) in *.
    assert (nearest_even (n * (J * Q)) d <= a * Q) as Hm.
    { apply nearest_even_le; [nia | exact Hd |]. nia. }
    nia.
Qed.

Lemma round_ge (n d a j : Z) :
  0 <= n → 0 < d → n = 0 ∨ d <= n * 2 ^ 1022 →
  0 <= j → 0 <= a →
  a * d <= n * 2 ^ j →
  n * 2 ^ j < 2 ^ 53 * d →
  a * snd (round (n, d)) <= fst (round (n, d)) * 2 ^ j.
Proof.
  intros Hn Hd Hnorm Hj Ha Hle Hlt.
  assert (0 < 2 ^ j) as Hpj by (apply Z.pow_pos_nonneg; lia).
  destruct (Z.eq_dec n 0) as [-> | Hne].
  - rewrite round_zero by exact Hd. cbn [fst snd].
    assert (0 < 2 ^ 1074) by (apply Z.pow_pos_nonneg; lia). nia.
  - destruct Hnorm as [? | Hnorm]; [contradiction |].
    destruct (round_normal n d) as (p & Hp & -> & Hlo & Hhi);
      [lia | exact Hd | exact Hnorm | nia |].
    cbn [fst snd].
    assert (j <= p) as Hjp.
    { destruct (Z_le_gt_dec j p) as [? | Hgt]; [assumption | exfalso].
      assert (2 ^ (p + 1) <= 2 ^ j) as Hpow by (apply Z.pow_le_mono_r; lia).
      rewrite Z.pow_add_r in Hpow by lia. change (2 ^ 1) with 2 in Hpow.
      assert (0 < 2 ^ p) by (apply Z.pow_pos_nonneg; lia).
      nia. }
    assert (2 ^ p = 2 ^ j * 2 ^ (p - j)) as Hsplit
      by (rewrite <- Z.pow_add_r by lia; f_equal; lia).
    assert (0 < 2 ^ (p - j)) as Hpq by (apply Z.pow_pos_nonneg; lia).
    rewrite Hsplit.
    set (J := 2 ^ j) in *. set (Q := 2 ^ (p - j)) in *.
    assert (a * Q <= nearest_even (n * (J * Q)) d) as Hm.
    { apply nearest_even_ge; [nia | exact Hd |]. nia. }
    nia.
Qed.

(** Rounding a number whose unit in the last place is [2^-j]: anything
    less than half a unit above [a / 2^j] is rounded to it or below. *)
Lemma round_le_half (n d a j : Z) :
  0 < n → 0 < d → d <= n * 2 ^ 1022 →
  0 <= j →
  2 ^ 52 * d <= n * 2 ^ j →
  n * 2 ^ j < 2 ^ 53 * d →
  2 * (n * 2 ^ j) < (2 * a + 1) * d →
  fst (round (n, d)) * 2 ^ j <= a * snd (round (n, d)).
Proof.
  intros Hn Hd Hnorm Hj Hlo' Hhi' Hhalf.
  assert (0 < 2 ^ j) as Hpj by (apply Z.pow_pos_nonneg; lia).
  destruct (round_normal n d) as (p & Hp & -> & Hlo & Hhi);
    [lia | exact Hd | exact Hnorm | nia |].
  cbn [fst snd].
  assert (p = j) as ->.
  { destruct (Z.lt_trichotomy p j) as [Hlt | [? | Hgt]]; [exfalso | assumption | exfalso].
    - assert (2 ^ (p + 1) <= 2 ^ j) as Hpow by (apply Z.pow_le_mono_r; lia).
      rewrite Z.pow_add_r in Hpow by lia. change (2 ^ 1) with 2 in Hpow.
      assert (0 < 2 ^ p) by (apply Z.pow_pos_nonneg; lia). nia.
    - assert (2 ^ (j + 1) <= 2 ^ p) as Hpow by (apply Z.pow_le_mono_r; lia).
      rewrite Z.pow_add_r in Hpow by lia. change (2 ^ 1) with 2 in Hpow.
      nia. }
  set (J := 2 ^ j) in *.
  assert (nearest_even (n * J) d <= a) as Hm.
  { apply nearest_even_le; [nia | exact Hd | lia]. }
  nia.
Qed.

Lemma round_sign (n d : Z) :
  0 <= n → 0 < d → 0 <= fst (round (n, d)) ∧ 0 < snd (round (n, d)).
Proof.
  intros Hn Hd. unfold round. cbn [fst snd]. split.
  - assert (0 <= Z.sgn n) by (destruct n; cbn; lia).
    apply Z.mul_nonneg_nonneg; [assumption |].
    apply Z.mul_nonneg_nonneg; [| apply Z.pow_nonneg; lia].
    unfold nearest_even.
    set (N := Z.abs n * _). set (D := d * _).
    assert (0 < D) by (apply Z.mul_pos_pos; [lia | apply Z.pow_pos_nonneg; lia]).
    assert (0 <= N) by (apply Z.mul_nonneg_nonneg; [lia | apply Z.pow_nonneg; lia]).
    assert (0 <= N / D) by (apply Z.div_pos; lia).
    destruct (_ <? _); [assumption |]. destruct (_ <? _); [lia |].
    destruct (Z.even _); lia.
  - apply Z.pow_pos_nonneg; lia.
Qed.

Lemma round_opp (n d : Z) :
  round (- n, d) = (- fst (round (n, d)), snd (round (n, d))).
Proof.
  unfold round. cbn [fst snd]. rewrite Z.abs_opp, Z.sgn_opp.
  f_equal. lia.
Qed.


Lemma of_int_exact (z : Z) :
  0 <= z < 2 ^ 53 → ∃ D, 0 < D ∧ of_int z = (z * D, D).
Proof.
  intros Hz. unfold of_int.
  assert (z = 0 \/ 1 <= z * 2 ^ 1022) as Hnorm.
  { destruct (Z.eq_dec z 0); [left; assumption | right].
    assert (0 < 2 ^ 1022) by (apply Z.pow_pos_nonneg; lia). nia. }
  pose proof (round_le z 1 z 0 ltac:(lia) ltac:(lia) Hnorm ltac:(lia) ltac:(lia)
                ltac:(rewrite Z.pow_0_r; lia) ltac:(rewrite Z.pow_0_r; lia)) as Hle.
  pose proof (round_ge z 1 z 0 ltac:(lia) ltac:(lia) Hnorm ltac:(lia) ltac:(lia)
                ltac:(rewrite Z.pow_0_r; lia) ltac:(rewrite Z.pow_0_r; lia)) as Hge.
  destruct (round_sign z 1 ltac:(lia) ltac:(lia)) as [_ Hpos].
  rewrite Z.pow_0_r, Z.mul_1_r in Hle, Hge.
  exists (snd (round (z, 1))). split; [exact Hpos |].
  rewrite (surjective_pairing (round (z, 1))) at 1. f_equal. lia.
Qed.

Lemma of_int_opp (z : Z) :
  of_int (- z) = (- fst (of_int z), snd (of_int z)).
Proof. apply round_opp. Qed.

Lemma div_opp (x y : frac) :
  div (- fst x, snd x) y = (- fst (div x y), snd (div x y)).
Proof.
  unfold div. cbn [fst snd]. rewrite <- round_opp. f_equal. f_equal. lia.
Qed.

Lemma add_opp (x y : frac) :
  add (- fst x, snd x) (- fst y, snd y) = (- fst (add x y), snd (add x y)).
Proof.
  unfold add. cbn [fst snd]. rewrite <- round_opp. f_equal. f_equal. lia.
Qed.

Lemma round_snd_pos (x : frac) : 0 < snd (round x).
Proof. unfold round. cbn [snd]. apply Z.pow_pos_nonneg; lia. Qed.

Lemma to_int_opp (x : frac) :
  snd x ≠ 0 → to_int (- fst x, snd x) = - to_int x.
Proof. intros Hx. unfold to_int. cbn [fst snd]. apply Z.quot_opp_l. exact Hx. Qed.

End Float64Facts.

(** ** Machine arithmetic *)

Module GoIntFacts.
Import Float64 Float64Facts.

Lemma wrap64_id (z : Z) : MinInt64 <= z <= MaxInt64 → wrap64 z = z.
Proof.
  unfold MinInt64, MaxInt64, wrap64. intros Hz.
  rewrite Z.mod_small; lia.
Qed.

Lemma wrap64_range (z : Z) : MinInt64 <= wrap64 z <= MaxInt64.
Proof.
  unfold MinInt64, MaxInt64, wrap64.
  pose proof (Z.mod_pos_bound (z + 9223372036854775808) 18446744073709551616).
  lia.
Qed.

Lemma Time_Sub_range (t u : Z) : MinInt64 <= Time_Sub t u <= MaxInt64.
Proof. unfold Time_Sub, MinInt64, MaxInt64. lia. Qed.

Lemma Time_Sub_exact (t u : Z) :
  MinInt64 <= t - u <= MaxInt64 → Time_Sub t u = t - u.
Proof. unfold Time_Sub. lia. Qed.

(** The fraction of a minute, [float64(nsec)/(60*1e9)], and the whole
    minutes [int(float64(min) + fraction)]. *)
Abbreviation fraction nsec := (div (of_int nsec) (of_int 60000000000)).
Abbreviation whole min nsec := (to_int (add (of_int min) (fraction nsec))).

Lemma fraction_spec (nsec : Z) :
  0 <= nsec < 60000000000 →
  0 <= fst (fraction nsec)
  ∧ 0 < snd (fraction nsec)
  ∧ fst (fraction nsec) * 2 ^ 40 <= (2 ^ 40 - 17) * snd (fraction nsec)
  ∧ (2 * nsec <= 60000000000 → fst (fraction nsec) * 2 <= snd (fraction nsec))
  ∧ (fst (fraction nsec) = 0 ∨ snd (fraction nsec) <= fst (fraction nsec) * 2 ^ 36).
Proof.
  intros Hn.
  destruct (of_int_exact nsec) as (D1 & HD1 & ->); [change (2 ^ 53) with 9007199254740992; lia |].
  destruct (of_int_exact 60000000000) as (D2 & HD2 & ->); [change (2 ^ 53) with 9007199254740992; lia |].
  unfold div. cbn [fst snd].
  rewrite Z.sgn_pos, Z.abs_eq by nia.
  replace (nsec * D1 * D2 * 1) with (nsec * (D1 * D2)) by lia.
  replace (D1 * (60000000000 * D2)) with (60000000000 * (D1 * D2)) by lia.
  assert (0 < D1 * D2) as Hc by nia.
  set (c := D1 * D2) in *.
  assert (nsec * c = 0 \/ 60000000000 * c <= nsec * c * 2 ^ 1022) as Hnorm.
  { destruct (Z.eq_dec nsec 0) as [-> | Hne]; [left; lia | right].
    assert (2 ^ 36 <= 2 ^ 1022) by (apply Z.pow_le_mono_r; lia).
    change (2 ^ 36) with 68719476736 in *.
    set (B := 2 ^ 1022) in *. nia. }
  destruct (round_sign (nsec * c) (60000000000 * c) ltac:(nia) ltac:(nia)) as [H0 Hpos].
  split; [exact H0 |]. split; [exact Hpos |]. split; [| split].
  - apply round_le; try lia; try nia; exact Hnorm.
  - intros Hhalf.
    pose proof (round_le (nsec * c) (60000000000 * c) 1 1 ltac:(nia) ltac:(nia) Hnorm
                  ltac:(lia) ltac:(lia)) as Hle.
    change (2 ^ 1) with 2 in Hle. change (2 ^ 53) with 9007199254740992 in Hle.
    specialize (Hle ltac:(nia) ltac:(nia)). lia.
  - destruct (Z.eq_dec nsec 0) as [-> | Hne].
    + left. rewrite Z.mul_0_l, round_zero by nia. reflexivity.
    + right.
      pose proof (round_ge (nsec * c) (60000000000 * c) 1 36 ltac:(nia) ltac:(nia) Hnorm
                    ltac:(lia) ltac:(lia)) as Hge.
      change (2 ^ 36) with 68719476736 in *. change (2 ^ 53) with 9007199254740992 in Hge.
      specialize (Hge ltac:(nia) ltac:(nia)). lia.
Qed.



Lemma whole_spec (min nsec : Z) :
  0 <= min < 2 ^ 52 - 1 →
  0 <= nsec < 60000000000 →
  min <= whole min nsec <= min + 1
  ∧ (2 * nsec <= 60000000000 → whole min nsec = min)
  ∧ (min < 2 ^ 18 → whole min nsec = min).
Proof.
  intros Hmin Hn.
  destruct (fraction_spec nsec Hn) as (Hq0 & Hqd & Hq1 & Hq2 & Hq3).
  set (qn := fst (fraction nsec)) in *. set (qd := snd (fraction nsec)) in *.
  change (2 ^ 52) with 4503599627370496 in Hmin.
  change (2 ^ 40) with 1099511627776 in Hq1.
  change (2 ^ 36) with 68719476736 in Hq3.
  destruct (of_int_exact min) as (D & HD & ->);
    [change (2 ^ 53) with 9007199254740992; lia |].
  unfold add, to_int. cbn [fst snd]. fold qn qd.
  replace (min * D * qd + qn * D) with ((min * qd + qn) * D) by lia.
  replace (D * qd) with (qd * D) by lia.
  set (u := min * qd + qn).
  assert (min * qd <= u < (min + 1) * qd) as Hu by (unfold u; lia).
  assert (0 <= u) as Hu0 by nia.
  assert (u * D = 0 \/ qd * D <= u * D * 2 ^ 1022) as Hnorm.
  { assert (2 ^ 36 <= 2 ^ 1022) as HB by (apply Z.pow_le_mono_r; lia).
    change (2 ^ 36) with 68719476736 in HB. set (B := 2 ^ 1022) in *.
    destruct (Z.eq_dec u 0) as [-> | Hne]; [left; lia | right].
    assert (qd <= u * B) as Hqu.
    { destruct (Z.eq_dec min 0) as [Hz | Hz].
      - assert (u = qn) as Hun by (unfold u; nia). rewrite Hun in *.
        destruct Hq3 as [? | Hq3]; [lia | nia].
      - assert (qd <= u) by nia. nia. }
    nia. }
  set (r := round (u * D, qd * D)) in *.
  destruct (round_sign (u * D) (qd * D) ltac:(nia) ltac:(nia)) as [Hr0 Hrd].
  fold r in Hr0, Hrd.
  assert (min * snd r <= fst r) as Hlow.
  { pose proof (round_ge (u * D) (qd * D) min 0 ltac:(nia) ltac:(nia) Hnorm
                  ltac:(lia) ltac:(lia)) as H.
    fold r in H. rewrite Z.pow_0_r in H. change (2 ^ 53) with 9007199254740992 in H.
    specialize (H ltac:(nia) ltac:(nia)). lia. }
  assert (fst r <= (min + 1) * snd r) as Hup.
  { pose proof (round_le (u * D) (qd * D) (min + 1) 0 ltac:(nia) ltac:(nia) Hnorm
                  ltac:(lia) ltac:(lia)) as H.
    fold r in H. rewrite Z.pow_0_r in H. change (2 ^ 53) with 9007199254740992 in H.
    specialize (H ltac:(nia) ltac:(nia)). lia. }
  rewrite Z.quot_div_nonneg by lia.
  assert (min <= fst r / snd r) as Hge
    by (apply Z.div_le_lower_bound; [exact Hrd | lia]).
  split; [| split].
  - split; [exact Hge |]. apply Z.div_le_upper_bound; [exact Hrd | lia].
  - intros Hhalf. specialize (Hq2 Hhalf).
    pose proof (round_le (u * D) (qd * D) (2 * min + 1) 1 ltac:(nia) ltac:(nia) Hnorm
                  ltac:(lia) ltac:(lia)) as H.
    fold r in H. change (2 ^ 1) with 2 in H. change (2 ^ 53) with 9007199254740992 in H.
    specialize (H ltac:(nia) ltac:(nia)).
    assert (fst r / snd r < min + 1)
      by (apply Z.div_lt_upper_bound; [exact Hrd | nia]).
    lia.
  - intros Hsmall. change (2 ^ 18) with 262144 in Hsmall.
    assert (fst r / snd r < min + 1); [| lia].
    apply Z.div_lt_upper_bound; [exact Hrd |].
    destruct (Z_lt_ge_dec min 131072) as [Hlow17 | Hhigh17].
    + pose proof (round_le (u * D) (qd * D) ((min + 1) * 2 ^ 36 - 1) 36
                    ltac:(nia) ltac:(nia) Hnorm ltac:(lia)) as H.
      fold r in H. change (2 ^ 36) with 68719476736 in H.
      change (2 ^ 53) with 9007199254740992 in H.
      specialize (H ltac:(lia)).
      assert (u * 68719476736 <= ((min + 1) * 68719476736 - 1) * qd) as Hgrid
        by (unfold u; lia).
      specialize (H ltac:(nia) ltac:(nia)). nia.
    + pose proof (round_le_half (u * D) (qd * D) ((min + 1) * 2 ^ 35 - 1) 35) as H.
      fold r in H. change (2 ^ 35) with 34359738368 in H.
      change (2 ^ 53) with 9007199254740992 in H.
      change (2 ^ 52) with 4503599627370496 in H.
      assert (qd <= u) as Hqu by nia.
      assert (2 * (u * 34359738368) < (2 * ((min + 1) * 34359738368 - 1) + 1) * qd)
        as Hhalf by (unfold u; lia).
      assert (qd * D <= u * D * 2 ^ 1022) as Hn2
        by (destruct Hnorm as [Hz | ?]; [nia | assumption]).
      specialize (H ltac:(nia) ltac:(nia) Hn2 ltac:(lia) ltac:(nia) ltac:(nia) ltac:(nia)).
      nia.
Qed.

Lemma Minutes_int_whole_eq (d : Z) :
  0 <= d → Minutes_int d = whole (d / Minute) (d mod Minute).
Proof.
  intros Hd. unfold Minutes_int, Duration_Minutes. cbn zeta.
  rewrite Z.quot_div_nonneg, Z.rem_mod_nonneg by (unfold Minute; lia).
  reflexivity.
Qed.

Lemma Minutes_int_opp (d : Z) : Minutes_int (- d) = - Minutes_int d.
Proof.
  unfold Minutes_int, Duration_Minutes. cbn zeta.
  rewrite Z.quot_opp_l, Z.rem_opp_l by (unfold Minute; lia).
  rewrite !of_int_opp, div_opp, add_opp.
  apply to_int_opp.
  pose proof (round_snd_pos
    (fst (of_int (d ÷ Minute)) * snd (div (of_int (Z.rem d Minute)) (of_int 60000000000))
     + fst (div (of_int (Z.rem d Minute)) (of_int 60000000000)) * snd (of_int (d ÷ Minute)),
     snd (of_int (d ÷ Minute)) * snd (div (of_int (Z.rem d Minute)) (of_int 60000000000)))).
  unfold add. lia.
Qed.

(** [int(d.Minutes())] is the number of whole minutes or, when the
    float64 sum rounds up to the next integer, one more. *)
Lemma Minutes_int_whole (d : Z) :
  0 <= d <= MaxInt64 + 1 →
  d / Minute <= Minutes_int d <= d / Minute + 1
  ∧ Minutes_int d <= MaxMinutes.
Proof.
  intros Hd. rewrite Minutes_int_whole_eq by lia.
  unfold MaxInt64, Minute in *.
  pose proof (Z.div_mod d 60000000000 ltac:(lia)) as Hdm.
  pose proof (Z.mod_pos_bound d 60000000000 ltac:(lia)) as Hr.
  assert (0 <= d / 60000000000 <= 153722867) as Hq.
  { split; [apply Z.div_pos; lia |].
    assert (d / 60000000000 < 153722868) by (apply Z.div_lt_upper_bound; lia). lia. }
  destruct (whole_spec (d / 60000000000) (d mod 60000000000)) as (Hb & Hhalf & _);
    [change (2 ^ 52) with 4503599627370496; lia | exact Hr |].
  split; [exact Hb |]. unfold MaxMinutes.
  destruct (Z.eq_dec (d / 60000000000) 153722867) as [Htop | Hlow]; [| lia].
  rewrite Hhalf; lia.
Qed.

Lemma Minutes_int_range (d : Z) :
  MinInt64 <= d <= MaxInt64 → - MaxMinutes <= Minutes_int d <= MaxMinutes.
Proof.
  intros Hd. destruct (Z_le_gt_dec 0 d) as [Hpos | Hneg].
  - destruct (Minutes_int_whole d) as [[Hlo _] Hhi]; [unfold MaxInt64 in *; lia |].
    assert (0 <= d / Minute) by (apply Z.div_pos; unfold Minute; lia).
    unfold MaxMinutes in *. lia.
  - destruct (Minutes_int_whole (- d)) as [[Hlo _] Hhi];
      [unfold MinInt64, MaxInt64 in *; lia |].
    assert (0 <= - d / Minute) by (apply Z.div_pos; unfold Minute; lia).
    rewrite Minutes_int_opp in Hlo, Hhi. unfold MaxMinutes in *. lia.
Qed.

Lemma Minutes_int_floor (d : Z) :
  0 <= d < 262144 * Minute → Minutes_int d = d / Minute.
Proof.
  intros Hd. rewrite Minutes_int_whole_eq by lia. unfold Minute in *.
  pose proof (Z.mod_pos_bound d 60000000000 ltac:(lia)) as Hr.
  assert (0 <= d / 60000000000 < 262144) as Hq
    by (split; [apply Z.div_pos; lia | apply Z.div_lt_upper_bound; lia]).
  destruct (whole_spec (d / 60000000000) (d mod 60000000000)) as (_ & _ & Hsmall);
    [change (2 ^ 52) with 4503599627370496; lia | exact Hr |].
  apply Hsmall. change (2 ^ 18) with 262144. lia.
Qed.

Lemma Minutes_int_small (d : Z) : 0 <= d < Minute → Minutes_int d = 0.
Proof.
  intros Hd. rewrite Minutes_int_floor by (unfold Minute in *; lia).
  apply Z.div_small. exact Hd.
Qed.

Lemma Minutes_int_ge_one (d : Z) : Minute <= d <= MaxInt64 → 1 <= Minutes_int d.
Proof.
  intros Hd.
  destruct (Minutes_int_whole d) as [[Hlo _] _]; [unfold Minute, MaxInt64 in *; lia |].
  assert (1 <= d / Minute)
    by (apply Z.div_le_lower_bound; unfold Minute in *; lia).
  lia.
Qed.

(** Between two clock readings of a span of time, fewer whole minutes
    elapse than the span holds, plus the one that rounding can add. *)
Lemma Minutes_int_span (lo hi t u : Z) :
  lo <= t <= hi → lo <= u <= hi →
  - ((hi - lo) / Minute + 1) <= Minutes_int (Time_Sub t u) <= (hi - lo) / Minute + 1.
Proof.
  intros Ht Hu.
  assert (- (hi - lo) <= Time_Sub t u <= hi - lo) as Hd
    by (unfold Time_Sub, MinInt64, MaxInt64; lia).
  pose proof (Time_Sub_range t u) as Hr.
  assert (0 <= (hi - lo) / Minute) as Hspan by (apply Z.div_pos; unfold Minute; lia).
  set (d := Time_Sub t u) in *.
  destruct (Z_le_gt_dec 0 d) as [Hpos | Hneg].
  - destruct (Minutes_int_whole d) as [[Hlo Hhi] _]; [unfold MaxInt64 in *; lia |].
    assert (0 <= d / Minute) by (apply Z.div_pos; unfold Minute; lia).
    assert (d / Minute <= (hi - lo) / Minute)
      by (apply Z.div_le_mono; unfold Minute; lia).
    lia.
  - destruct (Minutes_int_whole (- d)) as [[Hlo Hhi] _];
      [unfold MinInt64, MaxInt64 in *; lia |].
    rewrite Minutes_int_opp in Hlo, Hhi.
    assert (0 <= - d / Minute) by (apply Z.div_pos; unfold Minute; lia).
    assert (- d / Minute <= (hi - lo) / Minute)
      by (apply Z.div_le_mono; unfold Minute; lia).
    lia.
Qed.

(** On the sample durations [Duration_Minutes] is the number that the
    Standard Library's specification of IEEE 754 arithmetic computes. *)
Example Duration_Minutes_is_IEEE :
  forallb (λ d, same_value (Duration_Minutes d) (sf_value (sf_Minutes d)))
    sample_durations = true.
Proof. vm_compute. reflexivity. Qed.

Example Duration_Minutes_is_IEEE_at_random :
  forallb (λ d, same_value (Duration_Minutes d) (sf_value (sf_Minutes d)))
    (random_durations 100 2026) = true.
Proof. vm_compute. reflexivity. Qed.

(** Among them are durations that [Minutes] rounds up to the next minute,
    and durations of each sign. *)
Example random_durations_cover :
  existsb (λ d, (0 <? d) && negb (Minutes_int d =? d / Minute)) (random_durations 100 2026)
  = true
  ∧ existsb (λ d, d <? 0) (random_durations 100 2026) = true
  ∧ existsb (λ d, (0 <? d) && (d <? 262144 * Minute)) (random_durations 100 2026) = true.
Proof. repeat split; vm_compute; reflexivity. Qed.

Example Minutes_int_rounds_up :
  Minutes_int (262144 * Minute + 59999999999) = 262145.
Proof. vm_compute. reflexivity. Qed.

End GoIntFacts.

(** From here on [Minutes_int] is used through the lemmas above. *)
Opaque Minutes_int.

(** ** Rate limiter *)

Module RateLimitFacts.
Import RateLimit GoIntFacts.

Lemma refill_within_minute (now : Z) (b : tokenBucket) :
  lastRefill b <= now < lastRefill b + Minute → refill now b = b.
Proof.
  intros Hnow. unfold refill, tokensToAdd.
  rewrite Time_Sub_exact by (unfold MinInt64, MaxInt64, Minute in *; lia).
  rewrite Minutes_int_small by lia.
  reflexivity.
Qed.

Lemma consume_admits (now : Z) (b : tokenBucket) :
  refill now b = b → 0 < tokens b <= MaxInt64 →
  consume now b =
    (true, {| tokens := tokens b - 1; capacity := capacity b;
              refillRate := refillRate b; lastRefill := lastRefill b |}).
Proof.
  intros Hr Ht. unfold consume. rewrite Hr.
  destruct (Z.ltb_spec 0 (tokens b)); [| lia].
  rewrite wrap64_id by (unfold MinInt64, MaxInt64 in *; lia).
  reflexivity.
Qed.

Lemma consume_denies (now : Z) (b : tokenBucket) :
  refill now b = b → tokens b <= 0 → consume now b = (false, b).
Proof.
  intros Hr Ht. unfold consume. rewrite Hr.
  destruct (Z.ltb_spec 0 (tokens b)); [lia | reflexivity].
Qed.

(** On first use, [Allow] behaves as on a limiter that already holds the
    full bucket. *)
Lemma Allow_first_use (t : TokenBucketLimiter) (s : string) (tc tu : Z) :
  buckets t !! s = None →
  Allow t s tc tu =
  Allow {| buckets := <[s := new_bucket (limit_for (config t) s) tc]> (buckets t);
           config := config t |} s tc tu.
Proof.
  intros Hnone. unfold Allow. simpl.
  rewrite Hnone, lookup_insert_eq, insert_insert_eq. reflexivity.
Qed.

Lemma AllowMany_within_minute (clock : list (Z * Z)) :
  ∀ (t : TokenBucketLimiter) (s : string) (b : tokenBucket) (k : nat),
    buckets t !! s = Some b →
    tokens b = Z.of_nat k →
    Z.of_nat k <= MaxInt64 →
    no_refill_elapsed (lastRefill b) clock →
    fst (AllowMany t s clock) =
      replicate (Nat.min k (length clock)) true ++
      replicate (length clock - k) false.
Proof.
  induction clock as [| [tc tu] rest IH]; intros t s b k Hb Hk Hmax Hclock.
  - simpl. rewrite Nat.min_0_r. reflexivity.
  - apply Forall_cons in Hclock as [Hhd Hrest]. simpl in Hhd.
    pose proof (refill_within_minute tu b Hhd) as Hr.
    cbn [AllowMany fst snd]. unfold Allow. rewrite Hb. cbn [fst snd].
    destruct k as [| k'].
    + rewrite (consume_denies tu b Hr) by lia. cbn [fst snd].
      erewrite (IH _ s b 0%nat); [| apply lookup_insert_eq | exact Hk | lia | exact Hrest].
      simpl. rewrite Nat.sub_0_r. reflexivity.
    + rewrite (consume_admits tu b Hr) by lia. cbn [fst snd].
      erewrite (IH _ s _ k'); [| apply lookup_insert_eq | simpl; lia | lia | exact Hrest].
      simpl. reflexivity.
Qed.

(** Claim C5, amended.  A bucket created with capacity [C >= 1] admits
    exactly [C] consecutive [Allow] calls and denies the next one, when
    every call reads the clock less than a minute after the bucket's
    refill time (its creation).  The refill step of [consume] leaves
    [min(capacity, tokens + int(elapsed.Minutes()) * refillRate)] tokens,
    for any bucket within its bounds whose sum stays in the [int] range.
    And [int(elapsed.Minutes())], which goes through [float64], is the
    number of whole minutes or one more; it is the number of whole minutes
    as long as fewer than [2^18] of them have elapsed. *)
Theorem C5_capacity_then_denied :
  (∀ (t : TokenBucketLimiter) (s : string) (C t0 u0 : Z) (rest : list (Z * Z)),
      buckets t !! s = None →
      limit_for (config t) s = C →
      1 <= C <= MaxInt64 →
      length rest = Z.to_nat C →
      no_refill_elapsed t0 ((t0, u0) :: rest) →
      fst (AllowMany t s ((t0, u0) :: rest)) = replicate (Z.to_nat C) true ++ [false])
  ∧
  (∀ (b : tokenBucket) (now : Z),
      bucket_inv b →
      0 <= refillRate b →
      lastRefill b <= now →
      tokens b + Minutes_int (Time_Sub now (lastRefill b)) * refillRate b <= MaxInt64 →
      tokens (refill now b) =
        Z.min (capacity b)
              (tokens b + Minutes_int (Time_Sub now (lastRefill b)) * refillRate b))
  ∧
  (∀ elapsed : Z,
      0 <= elapsed <= MaxInt64 →
      elapsed / Minute <= Minutes_int elapsed <= elapsed / Minute + 1
      ∧ (elapsed < 262144 * Minute → Minutes_int elapsed = elapsed / Minute)).
Proof.
  split; [| split].
  - intros t s C t0 u0 rest Hnone HC Hrange Hlen Hclock.
    cbn [AllowMany]. rewrite (Allow_first_use t s t0 u0 Hnone).
    change (fst (AllowMany
                   {| buckets := <[s := new_bucket (limit_for (config t) s) t0]> (buckets t);
                      config := config t |} s ((t0, u0) :: rest)) =
            replicate (Z.to_nat C) true ++ [false]).
    erewrite (AllowMany_within_minute _ _ s (new_bucket C t0) (Z.to_nat C)).
    + cbn [length]. rewrite Hlen.
      replace (Nat.min (Z.to_nat C) (S (Z.to_nat C))) with (Z.to_nat C) by lia.
      replace (S (Z.to_nat C) - Z.to_nat C)%nat with 1%nat by lia.
      reflexivity.
    + cbn [buckets]. rewrite HC. apply lookup_insert_eq.
    + simpl. lia.
    + lia.
    + exact Hclock.
  - intros b now [Hlo Hhi] Hrate Hnow Hsum.
    pose proof (Time_Sub_range now (lastRefill b)) as Hd.
    assert (0 <= Time_Sub now (lastRefill b)) as Hd0 by (unfold Time_Sub, MinInt64, MaxInt64; lia).
    unfold refill, tokensToAdd.
    set (m := Minutes_int (Time_Sub now (lastRefill b))) in *.
    assert (0 <= m) as Hm.
    { destruct (Minutes_int_whole (Time_Sub now (lastRefill b))) as [[Hfl _] _]; [lia |].
      assert (0 <= Time_Sub now (lastRefill b) / Minute)
        by (apply Z.div_pos; [exact Hd0 | unfold Minute; lia]).
      fold m in Hfl. lia. }
    assert (0 <= m * refillRate b) as Hprod by (apply Z.mul_nonneg_nonneg; lia).
    rewrite (wrap64_id (m * refillRate b)) by (unfold MinInt64, MaxInt64 in *; lia).
    destruct (Z.ltb_spec 0 (m * refillRate b)) as [Hpos | Hzero].
    + cbn [tokens]. rewrite wrap64_id by (unfold MinInt64, MaxInt64 in *; lia).
      reflexivity.
    + replace (m * refillRate b) with 0 by lia. lia.
  - intros elapsed Hel. split.
    + exact (proj1 (Minutes_int_whole elapsed ltac:(lia))).
    + intros Hsmall. apply Minutes_int_floor. lia.
Qed.

(** An instance of C5: capacity 3, four calls within the first
    minute, and a refill after two and a half minutes. *)
Lemma C5_capacity_then_denied_witness :
  fst (AllowMany (NewRateLimiter {| DefaultLimit := 3; Services := ∅; Window := 0 |})
         "bilibili" [(0, 0); (5, 5); (10, 10); (15, 15)])
    = [true; true; true; false]
  ∧ tokens (refill 150000000000
              {| tokens := 1; capacity := 10; refillRate := 3; lastRefill := 0 |}) = 7
  ∧ Minutes_int 150000000000 = 2.
Proof.
  destruct C5_capacity_then_denied as (Hcalls & Hrefill & Hminutes).
  split; [| split].
  - apply (Hcalls _ "bilibili" 3 0 0 [(5, 5); (10, 10); (15, 15)]).
    + reflexivity.
    + reflexivity.
    + unfold MaxInt64. lia.
    + reflexivity.
    + unfold no_refill_elapsed, Minute. repeat constructor; simpl; lia.
  - rewrite (Hrefill {| tokens := 1; capacity := 10; refillRate := 3; lastRefill := 0 |}
               150000000000).
    + vm_compute. reflexivity.
    + unfold bucket_inv. simpl. lia.
    + simpl. lia.
    + simpl. lia.
    + vm_compute. discriminate.
  - destruct (Hminutes 150000000000) as [_ Hfloor]; [unfold MaxInt64; lia |].
    rewrite Hfloor by (unfold Minute; lia). reflexivity.
Defined.

(** Claim C5 as stated fails.  The window is measured from the bucket's
    refill time, not between consecutive calls: with calls 59, 59, 1 and 1
    seconds apart, the third one finds 118 seconds elapsed and refills, and
    a capacity of 3 admits all five. *)
Lemma C5_gaps_under_a_minute_counterexample :
  gaps_under_a_minute slow_calls
  ∧ fst (AllowMany (NewRateLimiter {| DefaultLimit := 3; Services := ∅; Window := 0 |})
           "bilibili" slow_calls)
    = [true; true; true; true; true].
Proof.
  split.
  - unfold gaps_under_a_minute, slow_calls, Minute. cbn.
    repeat split; lia.
  - vm_compute. reflexivity.
Qed.

(** Nor does the refill count [floor(elapsedMinutes)] minutes always: one
    nanosecond short of 262145 minutes, [Minutes] is the [float64] 262145,
    and a bucket that refills by one token a minute gets 262145 of them. *)
Example refill_rounds_up :
  let elapsed := 262144 * Minute + 59999999999 in
  elapsed / Minute = 262144
  ∧ Minutes_int elapsed = 262145
  ∧ tokens (refill elapsed
              {| tokens := 0; capacity := 1000000; refillRate := 1; lastRefill := 0 |})
    = 262145.
Proof. cbn zeta. repeat split; vm_compute; reflexivity. Qed.

(** The window of C5 is measured from the bucket's refill time, not
    between consecutive calls: calls 40 seconds apart refill on the third
    one, and a fourth call on a capacity of 3 is admitted. *)
Example calls_forty_seconds_apart :
  fst (AllowMany (NewRateLimiter {| DefaultLimit := 3; Services := ∅; Window := 0 |})
         "bilibili"
         [(0, 0); (40000000000, 40000000000);
          (80000000000, 80000000000); (120000000000, 120000000000)])
    = [true; true; true; true].
Proof. vm_compute. reflexivity. Qed.

Lemma SafeLimit_fits : SafeLimit * (MaxMinutes + 1) <= MaxInt64.
Proof. vm_compute. discriminate. Qed.

Lemma consume_ok (now : Z) (b : tokenBucket) :
  bucket_ok b → bucket_ok (snd (consume now b)).
Proof.
  intros [[Hlo Hhi] [Hcap [Hr0 Hr1]]].
  pose proof SafeLimit_fits as Hfit.
  pose proof (Minutes_int_range _ (Time_Sub_range now (lastRefill b))) as Hm.
  set (m := Minutes_int (Time_Sub now (lastRefill b))) in *.
  assert (- (MaxMinutes * SafeLimit) <= m * refillRate b <= MaxMinutes * SafeLimit) as Hp.
  { unfold MaxMinutes, SafeLimit in *. nia. }
  assert (tokensToAdd now b = m * refillRate b) as Hadd.
  { unfold tokensToAdd. fold m. apply wrap64_id.
    unfold MinInt64, MaxInt64, MaxMinutes, SafeLimit in *. lia. }
  assert (bucket_ok (refill now b)) as Hrefilled.
  { unfold refill. rewrite Hadd.
    destruct (Z.ltb_spec 0 (m * refillRate b)) as [Hpos | Hnone].
    - rewrite wrap64_id
        by (unfold MinInt64, MaxInt64, MaxMinutes, SafeLimit in *; lia).
      unfold bucket_ok, bucket_inv. cbn [tokens capacity refillRate]. lia.
    - unfold bucket_ok, bucket_inv. lia. }
  unfold consume.
  destruct Hrefilled as [[Hlo1 Hhi1] [Hcap1 Hrate1]].
  destruct (Z.ltb_spec 0 (tokens (refill now b))) as [Hpos | Hnone].
  - cbn [snd]. unfold bucket_ok, bucket_inv. cbn [tokens capacity refillRate].
    rewrite wrap64_id by (unfold MinInt64, MaxInt64, SafeLimit in *; lia).
    lia.
  - cbn [snd]. unfold bucket_ok, bucket_inv. lia.
Qed.

Lemma NewRateLimiter_ok (cfg : RateLimitConfig) :
  limits_in_range cfg → limiter_ok (NewRateLimiter cfg).
Proof.
  intros [Hdef Hsvc]. split.
  - intros s b Hb. cbn in Hb. rewrite lookup_empty in Hb. discriminate.
  - split; [| exact Hsvc].
    cbn. destruct (DefaultLimit cfg =? 0); [unfold SafeLimit; lia | exact Hdef].
Qed.

Lemma limit_for_in_range (cfg : RateLimitConfig) (s : string) :
  limits_in_range cfg → 0 <= limit_for cfg s <= SafeLimit.
Proof.
  intros [Hdef Hsvc]. unfold limit_for.
  destruct (Services cfg !! s) as [l |] eqn:Hl; [exact (Hsvc s l Hl) | exact Hdef].
Qed.

Lemma apply_op_ok (t : TokenBucketLimiter) (op : limiter_op) :
  limiter_ok t → limiter_ok (apply_op t op).
Proof.
  intros [Hb Hcfg]. destruct op as [s tc tu | s now]; cbn [apply_op].
  - unfold Allow. cbn [snd]. split; [| exact Hcfg].
    intros s' b'. cbn [buckets]. rewrite lookup_insert.
    destruct (decide (s = s')) as [-> | Hne]; [| apply Hb].
    intros [= <-]. apply consume_ok.
    destruct (buckets t !! s') as [b |] eqn:Hs; [exact (Hb s' b Hs) |].
    pose proof (limit_for_in_range (config t) s' Hcfg) as Hl.
    unfold bucket_ok, bucket_inv, new_bucket. cbn. lia.
  - unfold Reset. destruct (buckets t !! s) as [b |] eqn:Hs; [| split; assumption].
    split; [| exact Hcfg].
    intros s' b'. cbn [buckets]. rewrite lookup_insert.
    destruct (decide (s = s')) as [-> | Hne]; [| apply Hb].
    intros [= <-]. destruct (Hb s' b Hs) as [[Hlo Hhi] [Hcap Hrate]].
    unfold bucket_ok, bucket_inv. cbn. lia.
Qed.

Lemma run_ops_ok (ops : list limiter_op) :
  ∀ t, limiter_ok t → limiter_ok (run_ops t ops).
Proof.
  induction ops as [| op ops IH]; intros t Ht; [exact Ht |].
  cbn [run_ops fold_left]. apply IH, apply_op_ok, Ht.
Qed.

Section Window.
(** Runs whose clock readings are times of [P], between any two of which
    at most [K] whole minutes are counted, and a limit [L] that [K]
    refills on top of a full bucket do not take out of the [int] range. *)
Variable P : Z → Prop.
Variables K L : Z.
Hypothesis K_nonneg : 0 <= K.
Hypothesis L_fits : L * (K + 1) <= MaxInt64.
Hypothesis minutes_bound :
  ∀ t u, P t → P u → - K <= Minutes_int (Time_Sub t u) <= K.

Lemma consume_fits (now : Z) (b : tokenBucket) :
  P now → P (lastRefill b) → bucket_fits L b →
  bucket_fits L (snd (consume now b)) ∧ P (lastRefill (snd (consume now b))).
Proof.
  intros Hnow Hlast [[Hlo Hhi] [Hcap [Hr0 Hr1]]].
  pose proof (minutes_bound now (lastRefill b) Hnow Hlast) as Hm.
  set (m := Minutes_int (Time_Sub now (lastRefill b))) in *.
  assert (- (K * L) <= m * refillRate b <= K * L) as Hp by nia.
  assert (tokensToAdd now b = m * refillRate b) as Hadd.
  { unfold tokensToAdd. fold m. apply wrap64_id.
    unfold MinInt64, MaxInt64 in *. lia. }
  assert (bucket_fits L (refill now b) ∧ P (lastRefill (refill now b))) as Hrefilled.
  { unfold refill. rewrite Hadd.
    destruct (Z.ltb_spec 0 (m * refillRate b)) as [Hpos | Hnone].
    - rewrite wrap64_id by (unfold MinInt64, MaxInt64 in *; lia).
      unfold bucket_fits, bucket_inv. cbn [tokens capacity refillRate lastRefill].
      split; [lia | exact Hnow].
    - unfold bucket_fits, bucket_inv. split; [lia | exact Hlast]. }
  unfold consume.
  destruct Hrefilled as [[[Hlo1 Hhi1] [Hcap1 Hrate1]] Hlast1].
  destruct (Z.ltb_spec 0 (tokens (refill now b))) as [Hpos | Hnone].
  - cbn [snd]. unfold bucket_fits, bucket_inv. cbn [tokens capacity refillRate lastRefill].
    rewrite wrap64_id by (unfold MinInt64, MaxInt64 in *; lia).
    split; [lia | exact Hlast1].
  - cbn [snd]. unfold bucket_fits, bucket_inv. split; [lia | exact Hlast1].
Qed.

Lemma apply_op_fits (t : TokenBucketLimiter) (op : limiter_op) (s : string) :
  0 <= L →
  Forall P (op_times op) →
  service_fits P L t s → service_fits P L (apply_op t op) s.
Proof.
  intros HL Htimes [Hlimit Hb].
  destruct op as [s' tc tu | s' now]; cbn [apply_op op_times] in *.
  - apply Forall_cons in Htimes as [Htc Htimes].
    apply Forall_cons in Htimes as [Htu _].
    unfold Allow. cbn [snd]. split; [exact Hlimit |].
    intros b'. cbn [buckets]. rewrite lookup_insert.
    destruct (decide (s' = s)) as [-> | Hne]; [| apply Hb].
    intros [= <-].
    destruct (buckets t !! s) as [b |] eqn:Hs.
    + destruct (Hb b eq_refl) as [Hfits Hlast]. apply consume_fits; assumption.
    + apply consume_fits; [exact Htu | exact Htc |].
      unfold bucket_fits, bucket_inv, new_bucket. cbn. lia.
  - apply Forall_cons in Htimes as [Hnow _].
    unfold Reset. destruct (buckets t !! s') as [b |] eqn:Hs; [| split; assumption].
    split; [exact Hlimit |].
    intros b'. cbn [buckets]. rewrite lookup_insert.
    destruct (decide (s' = s)) as [-> | Hne]; [| apply Hb].
    intros [= <-]. destruct (Hb b Hs) as [[[Hlo Hhi] [Hcap Hrate]] _].
    unfold bucket_fits, bucket_inv. cbn. split; [lia | exact Hnow].
Qed.

Lemma run_ops_fits (ops : list limiter_op) (s : string) :
  0 <= L →
  ∀ t, Forall (λ op, Forall P (op_times op)) ops →
       service_fits P L t s → service_fits P L (run_ops t ops) s.
Proof.
  intros HL. induction ops as [| op ops IH]; intros t Hops Ht; [exact Ht |].
  apply Forall_cons in Hops as [Hop Hops].
  cbn [run_ops fold_left]. apply IH; [exact Hops |].
  apply apply_op_fits; assumption.
Qed.

End Window.

Lemma NewRateLimiter_fits (P : Z → Prop) (cfg : RateLimitConfig) (s : string) :
  service_fits P (limit_for (config (NewRateLimiter cfg)) s) (NewRateLimiter cfg) s.
Proof.
  split; [reflexivity |].
  intros b Hb. cbn in Hb. rewrite lookup_empty in Hb. discriminate.
Qed.

(** Claim C6, amended.  For a service whose limit (its own, or the
    default) is not negative, the bucket satisfies
    [0 <= tokens <= capacity] after creation and after any sequence of
    [Allow] and [Reset] calls, for this and for other services, provided
    the limit is small enough for a refill to stay in the [int] range:
    at most [SafeLimit] whatever the clock readings, or any limit [L] with
    [L * (M + 2) <= MaxInt64] when the clock readings of the
    run lie within a span of [M] whole minutes. *)
Theorem C6_bucket_invariant (cfg : RateLimitConfig) (ops : list limiter_op)
    (s : string) (b : tokenBucket) :
  0 <= limit_for (config (NewRateLimiter cfg)) s →
  (limit_for (config (NewRateLimiter cfg)) s <= SafeLimit
   ∨ ∃ lo hi,
       Forall (op_within lo hi) ops
       ∧ limit_for (config (NewRateLimiter cfg)) s * ((hi - lo) / Minute + 2)
         <= MaxInt64) →
  buckets (run_ops (NewRateLimiter cfg) ops) !! s = Some b →
  bucket_inv b.
Proof.
  intros HL Hsmall Hb.
  set (L := limit_for (config (NewRateLimiter cfg)) s) in *.
  destruct Hsmall as [Hsafe | (lo & hi & Hops & Hfit)].
  - assert (service_fits (λ _, True) L (run_ops (NewRateLimiter cfg) ops) s) as [_ Hfits].
    { apply (run_ops_fits (λ _, True) MaxMinutes L).
      - unfold MaxMinutes. lia.
      - pose proof SafeLimit_fits. unfold MaxMinutes, SafeLimit, MaxInt64 in *. nia.
      - intros t u _ _. apply Minutes_int_range, Time_Sub_range.
      - exact HL.
      - apply Forall_forall. intros op _. apply Forall_forall. intros now _. exact I.
      - apply NewRateLimiter_fits. }
    exact (proj1 (proj1 (Hfits b Hb))).
  - destruct ops as [| op0 ops0] eqn:Hops0.
    { cbn in Hb. rewrite lookup_empty in Hb. discriminate. }
    rewrite <- Hops0 in *.
    assert (lo <= hi) as Hspan.
    { rewrite Hops0 in Hops. apply Forall_cons in Hops as [Hop _].
      unfold op_within in Hop. destruct op0; cbn in Hop;
        apply Forall_cons in Hop as [H0 _]; lia. }
    assert (0 <= (hi - lo) / Minute) as Hm by (apply Z.div_pos; unfold Minute; lia).
    assert (service_fits (λ now, lo <= now <= hi) L
              (run_ops (NewRateLimiter cfg) ops) s) as [_ Hfits].
    { apply (run_ops_fits (λ now, lo <= now <= hi) ((hi - lo) / Minute + 1) L).
      - lia.
      - replace ((hi - lo) / Minute + 1 + 1) with ((hi - lo) / Minute + 2) by lia.
        exact Hfit.
      - intros t u Ht Hu. apply Minutes_int_span; assumption.
      - exact HL.
      - exact Hops.
      - apply NewRateLimiter_fits. }
    exact (proj1 (proj1 (Hfits b Hb))).
Qed.

(** Two instances of C6: a limit of 2 beside a service whose limit is
    negative, and a limit above [SafeLimit] in a run of three minutes. *)
Lemma C6_bucket_invariant_witness :
  bucket_inv {| tokens := 2; capacity := 2; refillRate := 2; lastRefill := 3 |}
  ∧ bucket_inv {| tokens := 999999999999; capacity := 1000000000000;
                  refillRate := 1000000000000; lastRefill := 180000000000 |}.
Proof.
  split.
  - apply (C6_bucket_invariant mixed_limits
             [OpAllow "douyu" 0 0; OpAllow "douyu" 1 1; OpAllow "douyu" 2 2;
              OpReset "douyu" 3; OpAllow "zhihu" 4 4] "douyu").
    + vm_compute. discriminate.
    + left. vm_compute. discriminate.
    + vm_compute. reflexivity.
  - apply (C6_bucket_invariant generous_limits three_minutes "douyu").
    + vm_compute. discriminate.
    + right. exists 0, 180000000000. split.
      * unfold three_minutes, op_within. repeat constructor; cbn; lia.
      * vm_compute. discriminate.
    + vm_compute. reflexivity.
Defined.

(** Claim C6 as stated fails: a service configured with a negative limit
    gets a bucket of [-5] tokens on first use. *)
Lemma C6_negative_limit_counterexample :
  ¬ limiter_inv (run_ops (NewRateLimiter negative_limits) [OpAllow "douyu" 0 0]).
Proof.
  intros Hinv.
  assert (buckets (run_ops (NewRateLimiter negative_limits) [OpAllow "douyu" 0 0])
            !! "douyu"
          = Some {| tokens := -5; capacity := -5; refillRate := -5; lastRefill := 0 |})
    as Hb.
  { cbn [run_ops fold_left apply_op]. unfold Allow. cbn [snd buckets].
    apply lookup_insert_eq. }
  destruct (Hinv _ _ Hb) as [Hlo _]. cbn in Hlo. lia.
Qed.

(** Above [SafeLimit] the sum in [refill] can leave the [int] range: a
    bucket of [SafeLimit + 1] tokens that is reset and then left idle for
    the longest representable duration ends up with a negative token
    count. *)
Example invariant_fails_above_SafeLimit :
  ¬ limiter_inv (run_ops (NewRateLimiter huge_limits)
                   [OpAllow "douyu" 0 0; OpReset "douyu" 0; OpAllow "douyu" 0 MaxInt64]).
Proof.
  intros Hinv.
  destruct (buckets (run_ops (NewRateLimiter huge_limits)
                       [OpAllow "douyu" 0 0; OpReset "douyu" 0;
                        OpAllow "douyu" 0 MaxInt64]) !! "douyu") as [b |] eqn:Hb.
  - pose proof (Hinv _ _ Hb) as [Hlo _].
    vm_compute in Hb. injection Hb as <-. cbn in Hlo. lia.
  - vm_compute in Hb. discriminate.
Qed.

(** Claim C10.  [Reset] for a service without a bucket changes nothing:
    the limiter is the same, no bucket exists afterwards, and the next
    [Allow] for the service creates the bucket full (tokens = capacity =
    the configured limit) and consumes from it. *)
Theorem C10_reset_without_bucket (t : TokenBucketLimiter) (s : string) (now : Z) :
  buckets t !! s = None →
  Reset t s now = t
  ∧ buckets (Reset t s now) !! s = None
  ∧ ∀ tc tu,
      let full := new_bucket (limit_for (config t) s) tc in
      tokens full = capacity full
      ∧ capacity full = limit_for (config t) s
      ∧ Allow (Reset t s now) s tc tu =
          (fst (consume tu full),
           {| buckets := <[s := snd (consume tu full)]> (buckets t);
              config := config t |}).
Proof.
  intros Hnone.
  assert (Reset t s now = t) as Hsame by (unfold Reset; rewrite Hnone; reflexivity).
  rewrite Hsame. split; [reflexivity |]. split; [exact Hnone |].
  intros tc tu. cbn zeta. split; [reflexivity |]. split; [reflexivity |].
  unfold Allow. rewrite Hnone. reflexivity.
Qed.

Lemma C10_reset_without_bucket_witness :
  Reset (NewRateLimiter douyu_limits) "douyu" 7 = NewRateLimiter douyu_limits
  ∧ fst (Allow (Reset (NewRateLimiter douyu_limits) "douyu" 7) "douyu" 8 8) = true.
Proof.
  destruct (C10_reset_without_bucket (NewRateLimiter douyu_limits) "douyu" 7)
    as [Hsame [_ Hallow]].
  - reflexivity.
  - split; [exact Hsame |].
    destruct (Hallow 8 8) as [_ [_ ->]]. reflexivity.
Defined.

End RateLimitFacts.

(** ** Cache store *)

Module CacheFacts.
Import Cache GoIntFacts.

(** The loop of [evictLRU] once [oldestKey] is set: it keeps a key, and
    ends on an entry whose expiry none of the visited ones precedes. *)
Lemma evict_scan_from (l : list (string * cacheItem)) :
  ∀ acc : string * Z,
    fst acc ≠ EmptyString →
    Forall named l →
    let r := fold_left evict_step l acc in
    fst r ≠ EmptyString
    ∧ (r = acc ∨ ∃ i, (fst r, i) ∈ l ∧ snd r = expiredAt i)
    ∧ snd r <= snd acc
    ∧ Forall (λ kv, snd r <= expiredAt (snd kv)) l.
Proof.
  induction l as [| kv l IH]; intros acc Hacc Hnamed; cbn zeta.
  - cbn. repeat split; [exact Hacc | left; reflexivity | lia | constructor].
  - apply Forall_cons in Hnamed as [Hkv Hl].
    cbn [fold_left].
    assert (evict_step acc kv =
            if expiredAt (snd kv) <? snd acc then (fst kv, expiredAt (snd kv)) else acc)
      as Hstep.
    { unfold evict_step. rewrite bool_decide_eq_false_2 by exact Hacc. reflexivity. }
    rewrite Hstep. clear Hstep.
    destruct (Z.ltb_spec (expiredAt (snd kv)) (snd acc)) as [Hlt | Hge].
    + pose proof (IH (fst kv, expiredAt (snd kv)) Hkv Hl) as Hrec.
      cbn zeta in Hrec. destruct Hrec as (Hne & Hsrc & Hle & Hall).
      cbn [fst snd] in *. repeat split.
      * exact Hne.
      * right. destruct Hsrc as [-> | (i & Hi & Hexp)].
        -- exists (snd kv). cbn [fst snd]. split; [| reflexivity].
           rewrite <- surjective_pairing. apply list_elem_of_here.
        -- exists i. split; [apply list_elem_of_further, Hi | exact Hexp].
      * lia.
      * constructor; [lia | exact Hall].
    + pose proof (IH acc Hacc Hl) as Hrec.
      cbn zeta in Hrec. destruct Hrec as (Hne & Hsrc & Hle & Hall).
      repeat split.
      * exact Hne.
      * destruct Hsrc as [-> | (i & Hi & Hexp)]; [left; reflexivity |].
        right. exists i. split; [apply list_elem_of_further, Hi | exact Hexp].
      * lia.
      * constructor; [lia | exact Hall].
Qed.

Lemma evict_scan_spec (l : list (string * cacheItem)) :
  l ≠ [] →
  Forall named l →
  fst (evict_scan l) ≠ EmptyString
  ∧ ∃ i, (fst (evict_scan l), i) ∈ l
         ∧ Forall (λ kv, expiredAt i <= expiredAt (snd kv)) l.
Proof.
  destruct l as [| kv l]; [congruence |]. intros _ Hnamed.
  apply Forall_cons in Hnamed as [Hkv Hl].
  unfold evict_scan. cbn [fold_left].
  assert (evict_step (EmptyString, 0) kv = (fst kv, expiredAt (snd kv))) as Hstep
    by reflexivity.
  rewrite Hstep. clear Hstep.
  pose proof (evict_scan_from l (fst kv, expiredAt (snd kv)) Hkv Hl) as Hrec.
  cbn zeta in Hrec. destruct Hrec as (Hne & Hsrc & Hle & Hall).
  cbn [fst snd] in *. split; [exact Hne |].
  destruct Hsrc as [Heq | (i & Hi & Hexp)].
  - exists (snd kv). rewrite Heq in *. cbn [fst snd] in *. split.
    + rewrite <- surjective_pairing. apply list_elem_of_here.
    + constructor; [lia | exact Hall].
  - exists i. split; [apply list_elem_of_further, Hi |].
    rewrite <- Hexp. constructor; [exact Hle | exact Hall].
Qed.

Lemma evictLRU_empty (order : list (string * cacheItem)) (m : MemoryCache) :
  order ≡ₚ map_to_list (data m) → data m = ∅ → evictLRU order m = m.
Proof.
  intros Hperm Hempty. rewrite Hempty, map_to_list_empty in Hperm.
  apply Permutation_nil_r in Hperm. subst order. reflexivity.
Qed.

(** [evictLRU] on a non-empty map with non-empty keys removes exactly one
    entry, one whose expiry no other entry precedes. *)
Lemma evictLRU_spec (order : list (string * cacheItem)) (m : MemoryCache) :
  order ≡ₚ map_to_list (data m) →
  data m ≠ ∅ →
  (∀ k i, data m !! k = Some i → k ≠ EmptyString) →
  ∃ victim item,
    data m !! victim = Some item
    ∧ (∀ k i, data m !! k = Some i → expiredAt item <= expiredAt i)
    ∧ evictLRU order m =
        {| data := delete victim (data m);
           maxSize := maxSize m;
           currentSize := wrap64 (currentSize m - item_size item) |}.
Proof.
  intros Hperm Hne Hkeys.
  assert (order ≠ []) as Hnil.
  { intros ->. apply Permutation_nil_l in Hperm.
    apply Hne, map_to_list_empty_iff. symmetry. exact Hperm. }
  assert (∀ k i, (k, i) ∈ order ↔ data m !! k = Some i) as Hin.
  { intros k i. rewrite Hperm. apply elem_of_map_to_list. }
  assert (Forall named order) as Hnamed.
  { apply Forall_forall. intros [k i] Hki. apply Hin in Hki.
    exact (Hkeys k i Hki). }
  destruct (evict_scan_spec order Hnil Hnamed) as (Hkey & item & Hitem & Hmin).
  exists (fst (evict_scan order)), item.
  apply Hin in Hitem. split; [exact Hitem |]. split.
  - intros k i Hki. apply Hin in Hki.
    rewrite Forall_forall in Hmin. exact (Hmin (k, i) Hki).
  - unfold evictLRU. rewrite bool_decide_eq_false_2 by exact Hkey.
    unfold MemoryCache_Delete. rewrite Hitem. reflexivity.
Qed.

(** [evictLRU] removes one entry or none, in whatever order it visits
    the map. *)
Lemma evictLRU_at_most_one (order : list (string * cacheItem)) (m : MemoryCache) :
  evictLRU order m = m
  ∨ ∃ victim item,
      data m !! victim = Some item
      ∧ evictLRU order m =
          {| data := delete victim (data m);
             maxSize := maxSize m;
             currentSize := wrap64 (currentSize m - item_size item) |}.
Proof.
  unfold evictLRU. case_bool_decide; [left; reflexivity |].
  unfold MemoryCache_Delete.
  destruct (data m !! fst (evict_scan order)) as [item |] eqn:Hitem;
    [| left; reflexivity].
  right. exists (fst (evict_scan order)), item. split; [exact Hitem | reflexivity].
Qed.

(** The empty key stands for "no key chosen yet" in the scan.  When the
    entry under it is visited first, the next entry replaces it whatever
    its expiry, and the entry that expires last is evicted; when it is
    visited last and expires first, nothing is evicted. *)
Example evictLRU_with_empty_key :
  [(EmptyString, soon); ("a"%string, late)] ≡ₚ map_to_list (data with_empty_key)
  ∧ data (evictLRU [(EmptyString, soon); ("a"%string, late)] with_empty_key)
    = {[ EmptyString := soon ]}
  ∧ evictLRU [("a"%string, late); (EmptyString, soon)] with_empty_key = with_empty_key.
Proof.
  split; [| split].
  - unfold with_empty_key. cbn [data].
    rewrite map_to_list_insert by reflexivity.
    rewrite map_to_list_singleton. reflexivity.
  - unfold evictLRU, evict_scan. cbn [fold_left].
    change (evict_step (EmptyString, 0) (EmptyString, soon)) with (EmptyString, 1).
    change (evict_step (EmptyString, 1) ("a"%string, late)) with ("a"%string, 100).
    cbn [fst]. rewrite bool_decide_eq_false_2 by discriminate.
    unfold MemoryCache_Delete, with_empty_key. cbn [data].
    rewrite lookup_insert_ne by discriminate. rewrite lookup_singleton_eq.
    cbn [data]. rewrite delete_insert_ne by discriminate.
    rewrite delete_singleton_eq. reflexivity.
  - reflexivity.
Qed.

Section Store.
Variable Value : Type.
Variable json_Marshal : Value → option (list Byte.byte).
Variable json_Unmarshal : list Byte.byte → option Value.

Abbreviation Get := (MemoryCache_Get Value json_Unmarshal).
Abbreviation Put := (MemoryCache_Set Value json_Marshal).
Abbreviation do_set := (do_set Value json_Marshal).
Abbreviation run_sets := (run_sets Value json_Marshal).
Abbreviation orders_ok := (orders_ok Value json_Marshal).
Abbreviation call_size := (call_size Value json_Marshal).
Abbreviation sized := (sized Value json_Marshal).

Lemma Get_absent (m : MemoryCache) (key : string) (now : Z) :
  data m !! key = None → Get m key now = (inr (ErrCacheMiss key), m).
Proof. intros Hnone. unfold MemoryCache_Get. rewrite Hnone. reflexivity. Qed.

Lemma Get_expired (m : MemoryCache) (key : string) (item : cacheItem) (now : Z) :
  data m !! key = Some item →
  expiredAt item < now →
  Get m key now =
    (inr (ErrCacheExpired key),
     {| data := delete key (data m);
        maxSize := maxSize m;
        currentSize := wrap64 (currentSize m - item_size item) |}).
Proof.
  intros Hitem Hexp. unfold MemoryCache_Get. rewrite Hitem.
  destruct (Z.ltb_spec (expiredAt item) now); [| lia].
  unfold MemoryCache_Delete. rewrite Hitem. reflexivity.
Qed.

(** A live entry is decoded from the stored bytes. *)
Lemma Get_live (m : MemoryCache) (key : string) (item : cacheItem) (now : Z) :
  data m !! key = Some item →
  now <= expiredAt item →
  Get m key now =
    (match json_Unmarshal (value item) with
     | Some v => inl v
     | None => inr ErrUnmarshal
     end, m).
Proof.
  intros Hitem Hexp. unfold MemoryCache_Get. rewrite Hitem.
  destruct (Z.ltb_spec (expiredAt item) now); [lia | reflexivity].
Qed.

(** Claim C3, amended.  A [Get] after the entry's expiry returns an
    error and no value, removes the entry and gives its size back; the
    error is "cache expired", not the "cache miss" that a key never
    stored gets.  From then on the key reads as never stored. *)
Theorem C3_expired_get_removes :
  (∀ (m : MemoryCache) (key : string) (now : Z),
      data m !! key = None →
      Get m key now = (inr (ErrCacheMiss key), m))
  ∧
  (∀ (m : MemoryCache) (key : string) (item : cacheItem) (now : Z),
      data m !! key = Some item →
      expiredAt item < now →
      fst (Get m key now) = inr (ErrCacheExpired key)
      ∧ data (snd (Get m key now)) = delete key (data m)
      ∧ currentSize (snd (Get m key now)) = wrap64 (currentSize m - item_size item)
      ∧ ∀ later, Get (snd (Get m key now)) key later =
                   (inr (ErrCacheMiss key), snd (Get m key now))).
Proof.
  split; [exact Get_absent |].
  intros m key item now Hitem Hexp.
  rewrite (Get_expired m key item now Hitem Hexp). cbn [fst snd data currentSize].
  repeat split. intros later. apply Get_absent. cbn [data].
  apply lookup_delete_eq.
Qed.

Section Uniform.
(** Runs in which every value serializes to [s] bytes, on a cache of
    capacity [cap]. *)
Variables cap s : Z.
Hypothesis cap_pos : 0 < cap.
Hypothesis s_nonneg : 0 <= s.
Hypothesis fits : Z.max cap s + s <= MaxInt64.

Lemma uniform_new : uniform cap s (NewMemoryCache cap).
Proof.
  split; cbn.
  - reflexivity.
  - rewrite map_size_empty. lia.
  - intros k i Hk. rewrite lookup_empty in Hk. discriminate.
  - lia.
Qed.

Lemma do_set_uniform (m : MemoryCache) (c : SetCall Value) :
  uniform cap s m →
  sized s c →
  sc_key c ≠ EmptyString →
  data m !! sc_key c = None →
  sc_order c ≡ₚ map_to_list (data m) →
  uniform cap s (do_set m c)
  ∧ ∀ k, is_Some (data (do_set m c) !! k) → k = sc_key c ∨ is_Some (data m !! k).
Proof.
  intros [Hmax Hsize Hitems Hbound] Hsized Hkey Hfresh Hperm.
  unfold Cache.sized, Cache.call_size in Hsized.
  unfold Cache.do_set, MemoryCache_Set.
  destruct (json_Marshal (sc_value c)) as [bytes |]; [| discriminate].
  cbn in Hsized. injection Hsized as Hlen.
  rewrite Hlen, Hmax.
  assert (0 <= currentSize m) as Hcur0 by (rewrite Hsize; lia).
  rewrite (wrap64_id (currentSize m + s))
    by (unfold MinInt64, MaxInt64 in *; lia).
  destruct (Z.ltb_spec 0 cap) as [_ | ?]; [| lia]. cbn [andb].
  set (item := {| value := bytes; expiredAt := sc_now c + sc_ttl c |}).
  assert (item_size item = s) as Hitem by exact Hlen.
  destruct (Z.ltb_spec cap (currentSize m + s)) as [Hover | Hroom].
  - destruct (decide (data m = ∅)) as [Hempty | Hne].
    + rewrite (evictLRU_empty _ m Hperm Hempty). cbn [snd].
      assert (currentSize m = 0) as Hzero
        by (rewrite Hsize, Hempty, map_size_empty; lia).
      rewrite Hempty. split; [split; cbn |].
      * exact Hmax.
      * rewrite Hzero, map_size_insert_None by apply lookup_empty.
        rewrite map_size_empty, wrap64_id
          by (unfold MinInt64, MaxInt64 in *; lia).
        lia.
      * intros k i. rewrite lookup_insert.
        destruct (decide (sc_key c = k)) as [<- | _].
        -- intros [= <-]. split; [exact Hitem | exact Hkey].
        -- rewrite lookup_empty. discriminate.
      * rewrite Hzero, wrap64_id by (unfold MinInt64, MaxInt64 in *; lia). lia.
      * intros k [i Hi]. cbn [data] in Hi. rewrite lookup_insert in Hi.
        destruct (decide (sc_key c = k)) as [<- | _]; [left; reflexivity |].
        rewrite lookup_empty in Hi. discriminate.
    + destruct (evictLRU_spec _ m Hperm Hne (λ k i H, proj2 (Hitems k i H)))
        as (victim & old & Hold & _ & ->).
      cbn [snd data maxSize currentSize].
      destruct (Hitems victim old Hold) as [Holdsize _].
      rewrite Holdsize.
      assert (1 <= size (data m))%nat as Hone.
      { pose proof (proj2 (map_size_non_empty_iff (data m)) Hne). lia. }
      assert (s <= currentSize m) as Hcur by (rewrite Hsize; nia).
      rewrite (wrap64_id (currentSize m - s))
        by (unfold MinInt64, MaxInt64 in *; lia).
      replace (currentSize m - s + s) with (currentSize m) by lia.
      rewrite (wrap64_id (currentSize m))
        by (unfold MinInt64, MaxInt64 in *; lia).
      assert (delete victim (data m) !! sc_key c = None) as Hfresh'.
      { rewrite lookup_delete. case_decide; [reflexivity | exact Hfresh]. }
      split; [split; cbn |].
      * exact Hmax.
      * rewrite map_size_insert_None by exact Hfresh'.
        rewrite map_size_delete_Some by (exists old; exact Hold).
        rewrite Hsize. f_equal. lia.
      * intros k i. rewrite lookup_insert.
        destruct (decide (sc_key c = k)) as [<- | _].
        -- intros [= <-]. split; [exact Hitem | exact Hkey].
        -- rewrite lookup_delete. case_decide; [discriminate | apply Hitems].
      * exact Hbound.
      * intros k [i Hi]. cbn [data] in Hi. rewrite lookup_insert in Hi.
        destruct (decide (sc_key c = k)) as [<- | _]; [left; reflexivity |].
        rewrite lookup_delete in Hi. case_decide; [discriminate |].
        right. exists i. exact Hi.
  - cbn [snd]. split; [split; cbn |].
    + exact Hmax.
    + rewrite map_size_insert_None by exact Hfresh.
      rewrite wrap64_id by (unfold MinInt64, MaxInt64 in *; lia).
      rewrite Hsize. lia.
    + intros k i. rewrite lookup_insert.
      destruct (decide (sc_key c = k)) as [<- | _].
      * intros [= <-]. split; [exact Hitem | exact Hkey].
      * apply Hitems.
    + rewrite wrap64_id by (unfold MinInt64, MaxInt64 in *; lia). lia.
    + intros k [i Hi]. cbn [data] in Hi. rewrite lookup_insert in Hi.
      destruct (decide (sc_key c = k)) as [<- | _]; [left; reflexivity |].
      right. exists i. exact Hi.
Qed.

Lemma run_sets_uniform (calls : list (SetCall Value)) :
  ∀ m : MemoryCache,
    uniform cap s m →
    Forall (sized s) calls →
    Forall (λ c, sc_key c ≠ EmptyString) calls →
    NoDup (sc_key <$> calls) →
    (∀ k, is_Some (data m !! k) → k ∉ sc_key <$> calls) →
    orders_ok m calls →
    uniform cap s (run_sets m calls).
Proof.
  induction calls as [| c calls IH]; intros m Hm Hsized Hkeys Hdup Hsep Hord.
  - exact Hm.
  - apply Forall_cons in Hsized as [Hc Hsized].
    apply Forall_cons in Hkeys as [Hk Hkeys].
    rewrite fmap_cons in Hdup, Hsep. apply NoDup_cons in Hdup as [Hnotin Hdup].
    destruct Hord as [Hperm Hord].
    assert (data m !! sc_key c = None) as Hfresh.
    { destruct (data m !! sc_key c) as [i |] eqn:Hi; [| reflexivity].
      exfalso. apply (Hsep (sc_key c)); [exists i; exact Hi | apply list_elem_of_here]. }
    destruct (do_set_uniform m c Hm Hc Hk Hfresh Hperm) as [Hm' Hdom].
    unfold Cache.run_sets. cbn [fold_left]. apply IH; try assumption.
    intros k Hin Hk'. destruct (Hdom k Hin) as [-> | Hold]; [exact (Hnotin Hk') |].
    apply (Hsep k Hold). apply list_elem_of_further. exact Hk'.
Qed.

End Uniform.

Lemma plan_orders_ok (args : list (string * Value * Z * Z)) :
  ∀ m, orders_ok m (plan Value json_Marshal m args).
Proof.
  induction args as [| [[[k v] ttl] now] rest IH]; intros m; cbn.
  - exact I.
  - split; [reflexivity | apply IH].
Qed.

(** Claim C4, amended.  On a cache with a positive capacity, when all
    values serialize to the same size [s], the accounted size after any
    run of [Set] calls on distinct non-empty keys stays within the
    capacity plus [s].  A [Set] that would exceed the capacity, on a map
    that holds an entry and none under the empty key, first removes
    exactly one entry, one with the nearest expiry, then inserts.  And
    every [Set] inserts after removing one entry at most: none when the
    insert stays within the capacity or no capacity is configured, none
    from an empty map. *)
Theorem C4_one_eviction_per_set :
  (∀ (cap s : Z) (calls : list (SetCall Value)),
      0 < cap →
      0 <= s →
      Z.max cap s + s <= MaxInt64 →
      Forall (sized s) calls →
      Forall (λ c, sc_key c ≠ EmptyString) calls →
      NoDup (sc_key <$> calls) →
      orders_ok (NewMemoryCache cap) calls →
      currentSize (run_sets (NewMemoryCache cap) calls) <= cap + s)
  ∧
  (∀ (order : list (string * cacheItem)) (m : MemoryCache) (key : string)
     (v : Value) (ttl now : Z) (bytes : list Byte.byte),
      json_Marshal v = Some bytes →
      0 < maxSize m →
      maxSize m < wrap64 (currentSize m + Z.of_nat (length bytes)) →
      order ≡ₚ map_to_list (data m) →
      data m ≠ ∅ →
      (∀ k i, data m !! k = Some i → k ≠ EmptyString) →
      ∃ victim item,
        data m !! victim = Some item
        ∧ (∀ k i, data m !! k = Some i → expiredAt item <= expiredAt i)
        ∧ Put order m key v ttl now =
            (None,
             {| data := <[key := {| value := bytes; expiredAt := now + ttl |}]>
                          (delete victim (data m));
                maxSize := maxSize m;
                currentSize :=
                  wrap64 (wrap64 (currentSize m - item_size item)
                          + Z.of_nat (length bytes)) |}))
  ∧
  (∀ (order : list (string * cacheItem)) (m : MemoryCache) (key : string)
     (v : Value) (ttl now : Z) (bytes : list Byte.byte),
      json_Marshal v = Some bytes →
      ∃ m1,
        Put order m key v ttl now =
          (None,
           {| data := <[key := {| value := bytes; expiredAt := now + ttl |}]> (data m1);
              maxSize := maxSize m;
              currentSize := wrap64 (currentSize m1 + Z.of_nat (length bytes)) |})
        ∧ (m1 = m
           ∨ ∃ victim item,
               data m !! victim = Some item
               ∧ m1 = {| data := delete victim (data m);
                         maxSize := maxSize m;
                         currentSize := wrap64 (currentSize m - item_size item) |})
        ∧ (maxSize m <= 0
           ∨ wrap64 (currentSize m + Z.of_nat (length bytes)) <= maxSize m → m1 = m)
        ∧ (data m = ∅ → m1 = m)).
Proof.
  split; [| split].
  - intros cap s calls Hcap Hs Hfit Hsized Hkeys Hdup Hord.
    assert (uniform cap s (run_sets (NewMemoryCache cap) calls)) as [_ _ _ Hbound].
    { apply (run_sets_uniform cap s Hcap Hs Hfit); try assumption.
      - apply uniform_new. exact Hcap.
      - intros k [i Hi]. cbn in Hi. rewrite lookup_empty in Hi. discriminate. }
    lia.
  - intros order m key v ttl now bytes Hv Hmax Hover Hperm Hne Hkeys.
    destruct (evictLRU_spec order m Hperm Hne Hkeys) as (victim & item & Hitem & Hmin & Hev).
    exists victim, item. split; [exact Hitem |]. split; [exact Hmin |].
    unfold MemoryCache_Set. rewrite Hv.
    destruct (Z.ltb_spec 0 (maxSize m)); [| lia].
    destruct (Z.ltb_spec (maxSize m) (wrap64 (currentSize m + Z.of_nat (length bytes))));
      [| lia].
    cbn [andb]. rewrite Hev. reflexivity.
  - intros order m key v ttl now bytes Hv.
    unfold MemoryCache_Set. rewrite Hv. cbn zeta.
    set (over := (0 <? maxSize m)
                 && (maxSize m <? wrap64 (currentSize m + Z.of_nat (length bytes)))).
    exists (if over then evictLRU order m else m).
    assert (maxSize (if over then evictLRU order m else m) = maxSize m) as Hmax.
    { destruct over; [| reflexivity].
      destruct (evictLRU_at_most_one order m) as [-> | (victim & item & _ & ->)];
        reflexivity. }
    rewrite Hmax. split; [reflexivity |]. split; [| split].
    + destruct over; [| left; reflexivity]. apply evictLRU_at_most_one.
    + intros Hroom. unfold over.
      destruct (Z.ltb_spec 0 (maxSize m)); [| reflexivity].
      destruct (Z.ltb_spec (maxSize m) (wrap64 (currentSize m + Z.of_nat (length bytes))));
        [lia | reflexivity].
    + intros Hempty. destruct over; [| reflexivity].
      destruct (evictLRU_at_most_one order m) as [-> | (victim & item & Hitem & _)];
        [reflexivity |].
      rewrite Hempty, lookup_empty in Hitem. discriminate.
Qed.

End Store.

Lemma C4_one_eviction_per_set_witness :
  currentSize
    (run_sets _ raw_Marshal (NewMemoryCache 3)
       (plan _ raw_Marshal (NewMemoryCache 3) five_ones)) <= 3 + 1
  ∧ ∃ victim item,
      data (run_sets _ raw_Marshal (NewMemoryCache 3)
              (plan _ raw_Marshal (NewMemoryCache 3) (take 3 five_ones)))
        !! victim = Some item
      ∧ expiredAt item = 11.
Proof.
  pose proof (C4_one_eviction_per_set (list Byte.byte) raw_Marshal)
    as (Hbound & Hevict & _).
  split.
  - apply Hbound.
    + lia.
    + lia.
    + unfold MaxInt64. lia.
    + repeat constructor.
    + repeat constructor; discriminate.
    + apply (bool_decide_unpack _). vm_compute. exact I.
    + apply plan_orders_ok.
  - set (m := run_sets _ raw_Marshal (NewMemoryCache 3)
                (plan _ raw_Marshal (NewMemoryCache 3) (take 3 five_ones))).
    destruct (Hevict (map_to_list (data m)) m "d"%string (ones 1) 40 3 (ones 1))
      as (victim & item & Hitem & Hmin & _).
    + reflexivity.
    + vm_compute. reflexivity.
    + vm_compute. reflexivity.
    + reflexivity.
    + intros Hempty. apply (f_equal (λ d, d !! "b"%string)) in Hempty.
      vm_compute in Hempty. discriminate.
    + intros k i Hk ->. vm_compute in Hk. discriminate.
    + exists victim, item. split; [exact Hitem |].
      assert (data m !! "b"%string
              = Some {| value := ones 1; expiredAt := 11 |}) as Hb
        by (vm_compute; reflexivity).
      pose proof (Hmin _ _ Hb) as Hle. cbn in Hle.
      assert (∀ k i, data m !! k = Some i → 11 <= expiredAt i) as Hall.
      { intros k i Hk.
        destruct (decide (k = "a"%string)) as [-> | Ha];
          [vm_compute in Hk; injection Hk as <-; cbn; lia |].
        destruct (decide (k = "b"%string)) as [-> | Hb'];
          [vm_compute in Hk; injection Hk as <-; cbn; lia |].
        destruct (decide (k = "c"%string)) as [-> | Hc];
          [vm_compute in Hk; injection Hk as <-; cbn; lia |].
        exfalso.
        assert (data m = <["c"%string := {| value := ones 1; expiredAt := 32 |}]>
                           (<["b"%string := {| value := ones 1; expiredAt := 11 |}]>
                              (<["a"%string := {| value := ones 1; expiredAt := 50 |}]> ∅)))
          as Hdata by reflexivity.
        rewrite Hdata in Hk.
        rewrite !lookup_insert_ne in Hk by congruence.
        rewrite lookup_empty in Hk. discriminate. }
      pose proof (Hall _ _ Hitem). lia.
Defined.

(** Claim C4 as stated fails: with distinct keys and values of different
    sizes, a single eviction does not restore the bound.  After the
    fifth [Set], which inserts one byte, 18 bytes are accounted on a
    capacity of 10. *)
Lemma C4_mixed_sizes_counterexample :
  let calls := plan _ raw_Marshal (NewMemoryCache 10) mixed_sizes in
  let final := run_sets _ raw_Marshal (NewMemoryCache 10) calls in
  NoDup (sc_key <$> calls)
  ∧ orders_ok _ raw_Marshal (NewMemoryCache 10) calls
  ∧ call_size _ raw_Marshal <$> last calls = Some (Some 1)
  ∧ currentSize final = 18
  ∧ ¬ (currentSize final <= maxSize final + 1).
Proof.
  cbn zeta. split; [| split; [| split; [| split]]].
  - apply (bool_decide_unpack _). vm_compute. exact I.
  - apply plan_orders_ok.
  - vm_compute. reflexivity.
  - vm_compute. reflexivity.
  - vm_compute. intros H. apply H. reflexivity.
Qed.

(** Claim C3 as stated fails: the read of an expired entry and the read
    of a key that was never stored return different errors. *)
Lemma C3_expired_error_counterexample :
  let empty := NewMemoryCache 0 in
  let stored := snd (MemoryCache_Set _ raw_Marshal [] empty "feed" (ones 2) 100 0) in
  fst (MemoryCache_Get _ raw_Unmarshal stored "feed" 150) = inr (ErrCacheExpired "feed")
  ∧ fst (MemoryCache_Get _ raw_Unmarshal empty "feed" 150) = inr (ErrCacheMiss "feed")
  ∧ fst (MemoryCache_Get _ raw_Unmarshal stored "feed" 150)
    ≠ fst (MemoryCache_Get _ raw_Unmarshal empty "feed" 150).
Proof.
  cbn zeta. split; [| split].
  - vm_compute. reflexivity.
  - vm_compute. reflexivity.
  - vm_compute. discriminate.
Qed.

Lemma C3_expired_get_removes_witness :
  let empty := NewMemoryCache 0 in
  let stored := snd (MemoryCache_Set _ raw_Marshal [] empty "feed" (ones 2) 100 0) in
  fst (MemoryCache_Get _ raw_Unmarshal stored "feed" 150) = inr (ErrCacheExpired "feed")
  ∧ data (snd (MemoryCache_Get _ raw_Unmarshal stored "feed" 150)) !! "feed"%string = None
  ∧ MemoryCache_Get _ raw_Unmarshal empty "feed" 150 = (inr (ErrCacheMiss "feed"), empty).
Proof.
  cbn zeta.
  pose proof (C3_expired_get_removes (list Byte.byte) raw_Unmarshal) as [Hmiss Hexp].
  destruct (Hexp (snd (MemoryCache_Set _ raw_Marshal [] (NewMemoryCache 0)
                         "feed" (ones 2) 100 0))
              "feed"%string {| value := ones 2; expiredAt := 100 |} 150)
    as (Herr & Hdata & _ & _).
  - reflexivity.
  - cbn. lia.
  - split; [exact Herr |]. split.
    + rewrite Hdata. apply lookup_delete_eq.
    + apply Hmiss. reflexivity.
Defined.

End CacheFacts.

(** ** Worker pool *)

Module PoolFacts.
Import Pool.

Section Submit.
Variable Job : Type.

Abbreviation Submit := (Pool.Submit Job).
Abbreviation SubmitMany := (Pool.SubmitMany Job).
Abbreviation pool_wf := (Pool.pool_wf Job).
Abbreviation free := (Pool.free Job).

Lemma Submit_room (wp : WorkerPool Job) (job : Job) :
  (length (jobQueue Job wp) < queueSize Job wp)%nat →
  fst (Submit wp job) = None.
Proof.
  intros Hroom. unfold Pool.Submit.
  destruct (dispatch Job wp); try reflexivity;
    destruct (Nat.ltb_spec (length (jobQueue Job wp)) (queueSize Job wp));
    (reflexivity || lia).
Qed.

Lemma Submit_enqueue (wp : WorkerPool Job) (job : Job) :
  dispatch Job wp ≠ Parked →
  (length (jobQueue Job wp) < queueSize Job wp)%nat →
  fst (Submit wp job) = None
  ∧ jobQueue Job (snd (Submit wp job)) = jobQueue Job wp ++ [job]
  ∧ dispatch Job (snd (Submit wp job)) = dispatch Job wp
  ∧ queueSize Job (snd (Submit wp job)) = queueSize Job wp.
Proof.
  intros Hbusy Hroom. unfold Pool.Submit.
  destruct (dispatch Job wp) eqn:Hd; [congruence | |];
    destruct (Nat.ltb_spec (length (jobQueue Job wp)) (queueSize Job wp));
    try lia; cbn; rewrite ?Hd; repeat split.
Qed.

Lemma Submit_full (wp : WorkerPool Job) (job : Job) :
  dispatch Job wp ≠ Parked →
  (queueSize Job wp <= length (jobQueue Job wp))%nat →
  Submit wp job = (Some ErrQueueFull, wp).
Proof.
  intros Hbusy Hfull. unfold Pool.Submit.
  destruct (dispatch Job wp) eqn:Hd; [congruence | |];
    destruct (Nat.ltb_spec (length (jobQueue Job wp)) (queueSize Job wp));
    (reflexivity || lia).
Qed.

(** A receiver never waits on a channel that holds something. *)
Lemma NewWorkerPool_wf (nm : string) (workers size : nat) :
  pool_wf (NewWorkerPool Job nm workers size).
Proof. intros _. reflexivity. Qed.

Lemma Submit_wf (wp : WorkerPool Job) (job : Job) :
  pool_wf wp → pool_wf (snd (Submit wp job)).
Proof.
  unfold Pool.pool_wf, Pool.Submit. intros Hwf.
  destruct (dispatch Job wp) eqn:Hd.
  - cbn. intros Hp. discriminate Hp.
  - destruct (length (jobQueue Job wp) <? queueSize Job wp)%nat; cbn;
      rewrite ?Hd; intros Hp; discriminate Hp.
  - destruct (length (jobQueue Job wp) <? queueSize Job wp)%nat; cbn;
      rewrite ?Hd; intros Hp; discriminate Hp.
Qed.

Lemma hand_over_wf (wp wp' : WorkerPool Job) :
  pool_wf wp → hand_over Job wp = Some wp' → pool_wf wp'.
Proof.
  unfold Pool.pool_wf, hand_over. intros Hwf Hstep.
  destruct (dispatch Job wp); try discriminate.
  destruct (idle Job wp); [discriminate |].
  injection Hstep as <-. cbn.
  destruct (jobQueue Job wp); [reflexivity | discriminate].
Qed.

Lemma SubmitMany_busy (jobs : list Job) :
  ∀ wp : WorkerPool Job,
    dispatch Job wp ≠ Parked →
    fst (SubmitMany wp jobs) =
      replicate (Nat.min (length jobs) (free wp)) None ++
      replicate (length jobs - free wp) (Some ErrQueueFull).
Proof.
  induction jobs as [| job jobs IH]; intros wp Hbusy; [reflexivity |].
  cbn [Pool.SubmitMany fst snd length].
  destruct (Nat.lt_ge_cases (length (jobQueue Job wp)) (queueSize Job wp))
    as [Hroom | Hfull].
  - destruct (Submit_enqueue wp job Hbusy Hroom) as (Hok & Hq & Hd & Hsz).
    rewrite Hok, IH by (rewrite Hd; exact Hbusy).
    assert (free wp = S (free (snd (Submit wp job)))) as ->.
    { unfold Pool.free. rewrite Hq, Hsz, length_app. cbn. lia. }
    reflexivity.
  - rewrite (Submit_full wp job Hbusy Hfull). cbn [fst snd].
    rewrite IH by exact Hbusy.
    assert (free wp = 0%nat) as -> by (unfold Pool.free; lia).
    rewrite Nat.min_0_r, Nat.sub_0_r, Nat.min_0_r. reflexivity.
Qed.

Lemma SubmitMany_takes (jobs : list Job) (wp : WorkerPool Job) :
  fst (SubmitMany wp jobs) =
    replicate (Nat.min (length jobs) (Pool.takes Job wp)) None ++
    replicate (length jobs - Pool.takes Job wp) (Some ErrQueueFull).
Proof.
  unfold Pool.takes.
  destruct (dispatch Job wp) eqn:Hd.
  - destruct jobs as [| job jobs]; [reflexivity |].
    cbn [Pool.SubmitMany fst snd length].
    assert (Submit wp job =
            (None, {| name := name Job wp; jobQueue := jobQueue Job wp;
                      queueSize := queueSize Job wp; dispatch := Holding job;
                      idle := idle Job wp; running := running Job wp;
                      maxWorkers := maxWorkers Job wp |})) as ->
      by (unfold Pool.Submit; rewrite Hd; reflexivity).
    cbn [fst snd]. rewrite SubmitMany_busy by (cbn; discriminate).
    unfold Pool.free. cbn [queueSize jobQueue].
    replace (Nat.min (S (length jobs))
               (queueSize Job wp - length (jobQueue Job wp) + 1))
      with (S (Nat.min (length jobs) (queueSize Job wp - length (jobQueue Job wp))))
      by lia.
    replace (S (length jobs) - (queueSize Job wp - length (jobQueue Job wp) + 1))%nat
      with (length jobs - (queueSize Job wp - length (jobQueue Job wp)))%nat by lia.
    reflexivity.
  - rewrite SubmitMany_busy by (rewrite Hd; discriminate).
    rewrite Nat.add_0_r. reflexivity.
  - rewrite SubmitMany_busy by (rewrite Hd; discriminate).
    rewrite Nat.add_0_r. reflexivity.
Qed.

(** Claim C7, amended.  [Submit] decides in one step and never waits: it
    returns nil with the job accepted, or the queue-full error with the
    pool unchanged.  With room in the queue the job is enqueued (or handed
    to the waiting dispatcher) and nil returned; on a full queue of a
    positive capacity the queue-full error is returned.  While no worker
    becomes free, a pool takes as many jobs as its queue has room for, and
    one more when its dispatcher is waiting to receive; every later
    submission gets the queue-full error.  From an empty queue that is
    [queueSize] jobs, or [queueSize + 1]. *)
Theorem C7_submit_backpressure :
  (∀ (wp : WorkerPool Job) (job : Job),
      fst (Submit wp job) = None ∨ Submit wp job = (Some ErrQueueFull, wp))
  ∧ (∀ (wp : WorkerPool Job) (job : Job),
        (length (jobQueue Job wp) < queueSize Job wp)%nat →
        fst (Submit wp job) = None
        ∧ (dispatch Job wp ≠ Parked →
           jobQueue Job (snd (Submit wp job)) = jobQueue Job wp ++ [job])
        ∧ (dispatch Job wp = Parked →
           dispatch Job (snd (Submit wp job)) = Holding job))
  ∧ (∀ (wp : WorkerPool Job) (job : Job),
        pool_wf wp →
        (0 < queueSize Job wp)%nat →
        (queueSize Job wp <= length (jobQueue Job wp))%nat →
        Submit wp job = (Some ErrQueueFull, wp))
  ∧ (∀ (wp : WorkerPool Job) (jobs : list Job),
        fst (SubmitMany wp jobs) =
          replicate (Nat.min (length jobs) (Pool.takes Job wp)) None ++
          replicate (length jobs - Pool.takes Job wp) (Some ErrQueueFull))
  ∧ (∀ wp : WorkerPool Job,
        jobQueue Job wp = [] →
        Pool.takes Job wp
        = match dispatch Job wp with
          | Parked => S (queueSize Job wp)
          | _ => queueSize Job wp
          end).
Proof.
  split; [| split; [| split; [| split]]].
  - intros wp job. unfold Pool.Submit.
    destruct (dispatch Job wp); [left; reflexivity | |];
      destruct (length (jobQueue Job wp) <? queueSize Job wp)%nat;
      (left; reflexivity) || (right; reflexivity).
  - intros wp job Hroom. split; [exact (Submit_room wp job Hroom) |]. split.
    + intros Hbusy. exact (proj1 (proj2 (Submit_enqueue wp job Hbusy Hroom))).
    + intros Hparked. unfold Pool.Submit. rewrite Hparked. reflexivity.
  - intros wp job Hwf Hpos Hfull. apply Submit_full; [| exact Hfull].
    intros Hparked. rewrite (Hwf Hparked) in Hfull. cbn in Hfull. lia.
  - intros wp jobs. apply SubmitMany_takes.
  - intros wp Hempty. unfold Pool.takes, Pool.free. rewrite Hempty. cbn [length].
    destruct (dispatch Job wp); lia.
Qed.

End Submit.

Lemma C7_submit_backpressure_witness :
  fst (Pool.SubmitMany nat saturated [3; 4; 5; 6]%nat)
    = [None; None; Some ErrQueueFull; Some ErrQueueFull]
  ∧ Pool.Submit nat (snd (Pool.SubmitMany nat saturated [3; 4]%nat)) 5%nat
    = (Some ErrQueueFull, snd (Pool.SubmitMany nat saturated [3; 4]%nat)).
Proof.
  destruct (C7_submit_backpressure nat) as (_ & _ & Hfull & Hmany & _).
  split.
  - apply (Hmany saturated [3; 4; 5; 6]%nat).
  - apply Hfull.
    + intros Hparked. discriminate Hparked.
    + cbn. lia.
    + cbn. lia.
Defined.

(** Claim C7 as stated fails.  A started pool of one worker and a queue
    of two takes a first job, which the dispatcher hands to the worker:
    the worker is busy and the dispatcher waits on the empty queue.  Of the
    next four submissions three get nil, one more than [queueSize]: the
    dispatcher takes the first of them out of the queue and holds it. *)
Lemma C7_parked_dispatcher_counterexample :
  hand_over nat (snd (Pool.Submit nat (NewWorkerPool nat "bilibili" 1 2) 1%nat))
    = Some worker_busy
  ∧ idle nat worker_busy = 0%nat
  ∧ jobQueue nat worker_busy = []
  ∧ queueSize nat worker_busy = 2%nat
  ∧ fst (Pool.SubmitMany nat worker_busy [2; 3; 4; 5]%nat)
    = [None; None; None; Some ErrQueueFull].
Proof. repeat split. Qed.

End PoolFacts.

(** ** Metrics monitor *)

Module MonitorFacts.
Import Monitor GoIntFacts.

Lemma halve_exact (avg sample : Z) :
  MinInt64 <= avg + sample <= MaxInt64 → halve avg sample = Z.quot (avg + sample) 2.
Proof. intros Hsum. unfold halve. rewrite wrap64_id by exact Hsum. reflexivity. Qed.

Lemma RecordHTTPRequest_first (m : Metrics) (duration : Z) (isError : bool) :
  HTTPRequests m = 0 →
  HTTPResponseTime (RecordHTTPRequest m duration isError) = duration.
Proof. intros Hzero. unfold RecordHTTPRequest. cbn. rewrite Hzero. reflexivity. Qed.

Lemma RecordHTTPRequest_next (m : Metrics) (duration : Z) (isError : bool) :
  0 < HTTPRequests m < MaxInt64 →
  HTTPResponseTime (RecordHTTPRequest m duration isError)
    = halve (HTTPResponseTime m) duration.
Proof.
  intros Hn. unfold RecordHTTPRequest. cbn [HTTPResponseTime].
  rewrite wrap64_id by (unfold MinInt64, MaxInt64 in *; lia).
  destruct (Z.eqb_spec (HTTPRequests m + 1) 1); [lia | reflexivity].
Qed.

Lemma zget_insert (m : gmap string Z) (k : string) (v : Z) : zget (<[k := v]> m) k = v.
Proof. unfold zget. rewrite lookup_insert_eq. reflexivity. Qed.

Lemma zget_insert_ne (m : gmap string Z) (k k' : string) (v : Z) :
  k ≠ k' → zget (<[k := v]> m) k' = zget m k'.
Proof. intros Hne. unfold zget. rewrite lookup_insert_ne by exact Hne. reflexivity. Qed.

(** Every [RecordAPIRequest] counts one request for its service and
    leaves the counts of the others alone. *)
Lemma RecordAPIRequest_count (m : Metrics) (service : string) (duration : Z)
    (isError : bool) :
  zget (APIRequests (RecordAPIRequest m service duration isError)) service
    = wrap64 (zget (APIRequests m) service + 1)
  ∧ ∀ other, other ≠ service →
      zget (APIRequests (RecordAPIRequest m service duration isError)) other
        = zget (APIRequests m) other.
Proof.
  unfold RecordAPIRequest. cbn [APIRequests]. unfold incr.
  destruct (Z.eqb_spec (zget (APIRequests m) service) 0) as [Hzero | Hpos].
  - split.
    + rewrite !zget_insert, Hzero. reflexivity.
    + intros other Hne. rewrite !zget_insert_ne by congruence. reflexivity.
  - split.
    + rewrite zget_insert. reflexivity.
    + intros other Hne. rewrite zget_insert_ne by congruence. reflexivity.
Qed.

(** The error count of the service goes up exactly when the flag is
    set. *)
Lemma RecordAPIRequest_errors (m : Metrics) (service : string) (duration : Z)
    (isError : bool) :
  0 < zget (APIRequests m) service →
  zget (APIErrors (RecordAPIRequest m service duration isError)) service
    = if isError then wrap64 (zget (APIErrors m) service + 1)
      else zget (APIErrors m) service.
Proof.
  intros Hpos. unfold RecordAPIRequest. cbn [APIErrors]. unfold incr.
  destruct (Z.eqb_spec (zget (APIRequests m) service) 0) as [Hzero | _]; [lia |].
  destruct isError; [apply zget_insert | reflexivity].
Qed.

Lemma RecordAPIRequest_first (m : Metrics) (service : string) (duration : Z)
    (isError : bool) :
  zget (APIRequests m) service = 0 →
  zget (APIResponseTimes (RecordAPIRequest m service duration isError)) service
    = duration.
Proof.
  intros Hzero. unfold RecordAPIRequest. cbn [APIResponseTimes]. unfold incr.
  rewrite Hzero. cbn [Z.eqb]. rewrite !zget_insert. cbn. apply zget_insert.
Qed.

Lemma RecordAPIRequest_next (m : Metrics) (service : string) (duration : Z)
    (isError : bool) :
  0 < zget (APIRequests m) service < MaxInt64 →
  zget (APIResponseTimes (RecordAPIRequest m service duration isError)) service
    = halve (zget (APIResponseTimes m) service) duration.
Proof.
  intros Hn. unfold RecordAPIRequest. cbn [APIResponseTimes]. unfold incr.
  destruct (Z.eqb_spec (zget (APIRequests m) service) 0) as [Hzero | _]; [lia |].
  rewrite zget_insert, wrap64_id by (unfold MinInt64, MaxInt64 in *; lia).
  destruct (Z.eqb_spec (zget (APIRequests m) service + 1) 1); [lia |].
  apply zget_insert.
Qed.

(** [RecordWidgetLoad] counts the loads of a widget from [APIRequests]:
    while no API request was recorded under the widget's name, a load
    that succeeds leaves the widget's average as it was. *)
Lemma RecordWidgetLoad_without_api_count (m : Metrics) (widgetType : string)
    (duration : Z) :
  zget (APIRequests m) widgetType = 0 →
  0 <= zget (WidgetErrors m) widgetType <= MaxInt64 →
  zget (WidgetLoadTimes (RecordWidgetLoad m widgetType duration false)) widgetType
    = zget (WidgetLoadTimes m) widgetType.
Proof.
  intros Hapi Herr. unfold RecordWidgetLoad. cbn [WidgetLoadTimes]. rewrite Hapi.
  destruct (Z.eqb_spec (zget (WidgetLoadTimes m) widgetType) 0) as [Hzero | Hset].
  - rewrite (zget_insert (WidgetErrors m)).
    change (wrap64 (0 - 0)) with 0. cbn [Z.eqb Z.ltb Z.compare].
    rewrite zget_insert, Hzero. reflexivity.
  - rewrite wrap64_id by (unfold MinInt64, MaxInt64 in *; lia).
    destruct (Z.eqb_spec (0 - zget (WidgetErrors m) widgetType) 1); [lia |].
    destruct (Z.ltb_spec 1 (0 - zget (WidgetErrors m) widgetType)); [lia |].
    reflexivity.
Qed.

(** Claim C8 on the code.  On a fresh monitor the first load of a widget,
    5 ms long, leaves its average at zero, not at the sample; a second
    one, 7 ms long, leaves it at zero again, not at 6 ms. *)
Theorem C8_widget_average_not_recorded :
  let m1 := RecordWidgetLoad NewMonitor "weibo-hot" 5000000 false in
  let m2 := RecordWidgetLoad m1 "weibo-hot" 7000000 false in
  zget (WidgetLoadTimes m1) "weibo-hot" = 0
  ∧ zget (WidgetLoadTimes m2) "weibo-hot" = 0.
Proof. cbn zeta. split; vm_compute; reflexivity. Qed.

(** The other two record operations do what C8 says. *)
Example http_and_api_averages :
  let h1 := RecordHTTPRequest NewMonitor 5000000 false in
  let h2 := RecordHTTPRequest h1 7000000 true in
  let a1 := RecordAPIRequest NewMonitor "zhihu" 5000000 false in
  let a2 := RecordAPIRequest a1 "zhihu" 7000000 true in
  HTTPResponseTime h1 = 5000000 ∧ HTTPResponseTime h2 = 6000000
  ∧ zget (APIResponseTimes a1) "zhihu" = 5000000
  ∧ zget (APIResponseTimes a2) "zhihu" = 6000000.
Proof. cbn zeta. repeat split; vm_compute; reflexivity. Qed.

End MonitorFacts.

(** ** Service manager *)

Module ManagerFacts.
Import Pool Monitor Manager GoIntFacts MonitorFacts.

Lemma primary_frame (sm : ServiceManager) (s : string) (req : APIRequest) (run : Run) :
  monitor (snd (primary sm s req run)) = monitor sm
  ∧ config (snd (primary sm s req run)) = config sm.
Proof.
  unfold primary.
  destruct (GetClient sm s) as [client | e]; [| split; reflexivity].
  cbn zeta.
  destruct (negb _); [split; reflexivity |].
  destruct (Submit Job _ _) as [[e |] pool1]; [split; reflexivity |].
  destruct (wait run) as [| ce ran]; [| destruct ran; split; reflexivity].
  destruct (fst (job_Function client req)); split; reflexivity.
Qed.

(** The fallback loop touches the clients only: no rate-limit check, no
    pool, no metric. *)
Lemma fallback_frame (sm : ServiceManager) (s : string) (req : APIRequest) (e : error) :
  limiter (snd (fallback sm s req e)) = limiter sm
  ∧ optimizer (snd (fallback sm s req e)) = optimizer sm
  ∧ monitor (snd (fallback sm s req e)) = monitor sm
  ∧ config (snd (fallback sm s req e)) = config sm.
Proof.
  unfold fallback. cbn zeta.
  destruct (fst (try_fallbacks _ _ _)); repeat split; reflexivity.
Qed.

Lemma body_monitor (sm : ServiceManager) (s : string) (req : APIRequest) (run : Run) :
  monitor (snd (body sm s req run)) = monitor sm.
Proof.
  unfold body. pose proof (primary_frame sm s req run) as [Hm _].
  destruct (primary sm s req run) as [[o | e] sm']; cbn [snd] in *; [exact Hm |].
  destruct (fallback_frame sm' s req e) as (_ & _ & -> & _). exact Hm.
Qed.

(** Every call records exactly one API-request metric, for the requested
    service, with the measured duration. *)
Lemma RequestWithFallback_records_once (sm : ServiceManager) (s : string)
    (req : APIRequest) (run : Run) :
  monitor (snd (RequestWithFallback sm s req run))
    = RecordAPIRequest (monitor sm) s (since_start run)
        (bool_decide (err_var (fst (body sm s req run)) ≠ None))
  ∧ zget (APIRequests (monitor (snd (RequestWithFallback sm s req run)))) s
    = wrap64 (zget (APIRequests (monitor sm)) s + 1)
  ∧ ∀ other, other ≠ s →
      zget (APIRequests (monitor (snd (RequestWithFallback sm s req run)))) other
        = zget (APIRequests (monitor sm)) other.
Proof.
  unfold RequestWithFallback. cbn [snd monitor with_monitor].
  rewrite body_monitor.
  split; [reflexivity |]. apply RecordAPIRequest_count.
Qed.

Lemma try_fallbacks_app (pre rest : list string) (req : APIRequest) :
  ∀ cs : gmap string APIClient,
    try_fallbacks cs (pre ++ rest) req =
      match fst (try_fallbacks cs pre req) with
      | Some resp => try_fallbacks cs pre req
      | None => try_fallbacks (snd (try_fallbacks cs pre req)) rest req
      end.
Proof.
  induction pre as [| fb pre IH]; intros cs; [reflexivity |].
  cbn [app try_fallbacks].
  destruct (cs !! fb) as [c |]; [| apply IH].
  destruct (fst (Request c req)); [reflexivity | apply IH].
Qed.

(** What it takes for the primary path to end with the job's error, and
    what it has done by then: one [Allow] for the requested service, the
    pool of that service only, one [Request] of its client. *)
Lemma primary_job_failed (sm sm4 : ServiceManager) (s : string) (req : APIRequest)
    (run : Run) (e : error) :
  primary sm s req run = (JobFailed e, sm4) →
  ∃ client,
    clients sm !! s = Some client
    ∧ fst (RateLimit.Allow (limiter sm) s (fst (allow_clock run)) (snd (allow_clock run)))
      = true
    ∧ wait run = ResultFirst
    ∧ fst (job_Function client req) = Some e
    ∧ clients sm4 = <[s := snd (job_Function client req)]> (clients sm)
    ∧ limiter sm4
      = snd (RateLimit.Allow (limiter sm) s (fst (allow_clock run)) (snd (allow_clock run)))
    ∧ ∀ other, other ≠ s →
        pools (optimizer sm4) !! other = pools (optimizer sm) !! other.
Proof.
  unfold primary, GetClient.
  destruct (clients sm !! s) as [client |] eqn:Hclient; [| discriminate].
  cbn zeta.
  destruct (fst (RateLimit.Allow _ _ _ _)) eqn:Hallow; [| discriminate].
  cbn [negb].
  destruct (Submit Job _ _) as [[err |] pool1]; [discriminate |].
  destruct (wait run) eqn:Hwait; [| discriminate].
  destruct (fst (job_Function client req)) as [e' |] eqn:Hjob; [| discriminate].
  intros [= <- <-]. exists client. repeat split; try reflexivity.
  - exact Hjob.
  - intros other Hne. cbn [optimizer with_clients with_optimizer with_pool pools].
    rewrite lookup_insert_ne by congruence.
    unfold GetOrCreatePool. cbn [with_limiter optimizer].
    destruct (pools (optimizer sm) !! s); cbn [snd pools]; [reflexivity |].
    rewrite lookup_insert_ne by congruence. reflexivity.
Qed.

(** Claim C2.  When the primary path ends with the job's error and the
    configured chain is [pre ++ fb :: post], where every fallback of
    [pre] fails (or has no client) and the [Request] of [fb]'s client
    succeeds, the call returns that response and no error.  The loop
    calls the clients' [Request] directly: the limiter has made its one
    check, for the requested service, and the pools of the other services
    are untouched. *)
Theorem C2_first_successful_fallback (sm sm4 : ServiceManager) (s : string)
    (req : APIRequest) (run : Run) (e : error) (pre post : list string)
    (fb : string) (cs : gmap string APIClient) (c : APIClient) (resp : APIResponse) :
  primary sm s req run = (JobFailed e, sm4) →
  fallbacks_of (config sm) s = pre ++ fb :: post →
  try_fallbacks (clients sm4) pre req = (None, cs) →
  cs !! fb = Some c →
  fst (Request c req) = ReqOk resp →
  let r := RequestWithFallback sm s req run in
  fst (fst r) = Some resp
  ∧ snd (fst r) = None
  ∧ clients (snd r) = <[fb := snd (Request c req)]> cs
  ∧ limiter (snd r)
    = snd (RateLimit.Allow (limiter sm) s (fst (allow_clock run)) (snd (allow_clock run)))
  ∧ optimizer (snd r) = optimizer sm4
  ∧ ∀ other, other ≠ s →
      pools (optimizer (snd r)) !! other = pools (optimizer sm) !! other.
Proof.
  intros Hprimary Hchain Hpre Hfb Hok. cbn zeta.
  unfold RequestWithFallback, body. rewrite Hprimary.
  pose proof (primary_frame sm s req run) as [_ Hcfg].
  rewrite Hprimary in Hcfg. cbn [snd] in Hcfg.
  unfold fallback. rewrite Hcfg, Hchain, try_fallbacks_app, Hpre. cbn [fst snd].
  cbn [try_fallbacks]. rewrite Hfb, Hok.
  destruct (primary_job_failed sm sm4 s req run e Hprimary)
    as (client & _ & _ & _ & _ & _ & Hlim & Hpools).
  cbn. repeat split; assumption.
Qed.

(** Claim C9.  When the job reports success and the request issued again
    after it fails, the call returns a nil response and a nil error. *)
Theorem C9_nil_response_nil_error (sm : ServiceManager) (s : string)
    (req : APIRequest) (run : Run) (client : APIClient) (e : error) :
  clients sm !! s = Some client →
  fst (RateLimit.Allow (limiter sm) s (fst (allow_clock run)) (snd (allow_clock run)))
    = true →
  fst (Submit Job (fst (GetOrCreatePool (optimizer sm) s)) (new_job s req run)) = None →
  wait run = ResultFirst →
  fst (job_Function client req) = None →
  fst (Request (snd (job_Function client req)) req) = ReqErr e →
  let r := RequestWithFallback sm s req run in
  fst (fst r) = None ∧ snd (fst r) = None.
Proof.
  intros Hclient Hallow Hsubmit Hwait Hjob Hagain. cbn zeta.
  unfold RequestWithFallback, body, primary, GetClient.
  rewrite Hclient. cbn zeta. rewrite Hallow. cbn [negb with_limiter optimizer].
  destruct (Submit Job _ _) as [[err |] pool1]; [discriminate Hsubmit |].
  rewrite Hwait, Hjob, Hagain. split; reflexivity.
Qed.

Lemma C2_first_successful_fallback_witness :
  fst (fst (RequestWithFallback chain_manager "A" get_videos first_run))
    = Some response_of_C
  ∧ snd (fst (RequestWithFallback chain_manager "A" get_videos first_run)) = None.
Proof.
  destruct (C2_first_successful_fallback
              chain_manager (snd (primary chain_manager "A" get_videos first_run))
              "A" get_videos first_run (ErrUpstream "timeout") ["B"%string] []
              "C"
              (snd (try_fallbacks
                      (clients (snd (primary chain_manager "A" get_videos first_run)))
                      ["B"%string] get_videos))
              (serving "C" response_of_C) response_of_C)
    as (Hresp & Herr & _).
  - vm_compute. reflexivity.
  - vm_compute. reflexivity.
  - vm_compute. reflexivity.
  - vm_compute. reflexivity.
  - reflexivity.
  - split; [exact Hresp | exact Herr].
Defined.

Lemma C9_nil_response_nil_error_witness :
  fst (fst (RequestWithFallback flaky_manager "A" get_videos first_run)) = None
  ∧ snd (fst (RequestWithFallback flaky_manager "A" get_videos first_run)) = None.
Proof.
  apply (C9_nil_response_nil_error flaky_manager "A" get_videos first_run
           (flaky "A" (ok [Byte.x41])) (ErrUpstream "timeout")).
  - vm_compute. reflexivity.
  - vm_compute. reflexivity.
  - vm_compute. reflexivity.
  - reflexivity.
  - reflexivity.
  - reflexivity.
Defined.

(** Claim C1 on the code.  With the queue of A's pool full, the call
    returns the queue-full error, and its one metric is recorded without
    the error flag: one request, no error. *)
Theorem C1_queue_full_recorded_as_success :
  let r := RequestWithFallback busy_manager "A" get_videos first_run in
  fst (fst r) = None
  ∧ snd (fst r) = Some (ErrPool ErrQueueFull)
  ∧ zget (APIRequests (monitor (snd r))) "A" = 1
  ∧ zget (APIErrors (monitor (snd r))) "A" = 0.
Proof. cbn zeta. repeat split; vm_compute; reflexivity. Qed.

(** The other path on which the flag and the returned error differ: C
    answers for A, the call returns C's response and no error, and the
    metric of A counts an error. *)
Example fallback_success_recorded_as_error :
  let r := RequestWithFallback chain_manager "A" get_videos first_run in
  fst (fst r) = Some response_of_C
  ∧ snd (fst r) = None
  ∧ zget (APIRequests (monitor (snd r))) "A" = 1
  ∧ zget (APIErrors (monitor (snd r))) "A" = 1.
Proof. cbn zeta. repeat split; vm_compute; reflexivity. Qed.

End ManagerFacts.

(** * Further properties *)

(** ** Rate limiter: isolation, refill, reset, defaults *)

Module LimiterProps.
Import RateLimit GoIntFacts RateLimitFacts.

(** An operation for one service leaves the bucket of every other service
    and the configuration as they are. *)
Theorem limiter_ops_are_per_service (t : TokenBucketLimiter) (op : limiter_op)
    (other : string) :
  op_service op ≠ other →
  buckets (apply_op t op) !! other = buckets t !! other
  ∧ config (apply_op t op) = config t.
Proof.
  intros Hne. destruct op as [s tc tu | s now]; cbn [apply_op op_service] in *.
  - unfold Allow. cbn [snd buckets config].
    rewrite lookup_insert_ne by exact Hne. split; reflexivity.
  - unfold Reset. destruct (buckets t !! s); [| split; reflexivity].
    cbn [buckets config]. rewrite lookup_insert_ne by exact Hne. split; reflexivity.
Qed.

Lemma limiter_ops_are_per_service_witness :
  buckets (apply_op (snd (Allow (NewRateLimiter douyu_limits) "zhihu" 0 0))
             (OpAllow "douyu" 1 1)) !! "zhihu"%string
  = buckets (snd (Allow (NewRateLimiter douyu_limits) "zhihu" 0 0)) !! "zhihu"%string.
Proof.
  apply (limiter_ops_are_per_service
           (snd (Allow (NewRateLimiter douyu_limits) "zhihu" 0 0))
           (OpAllow "douyu" 1 1) "zhihu").
  cbn. discriminate.
Defined.

Lemma refills_fully_kept (ops : list limiter_op) :
  ∀ t, (∀ s b, buckets t !! s = Some b → refills_fully b) →
       ∀ s b, buckets (run_ops t ops) !! s = Some b → refills_fully b.
Proof.
  induction ops as [| op ops IH]; intros t Ht; [exact Ht |].
  cbn [run_ops fold_left]. apply IH. clear IH.
  intros s b. destruct op as [s0 tc tu | s0 now]; cbn [apply_op].
  - unfold Allow. cbn [snd buckets]. rewrite lookup_insert.
    destruct (decide (s0 = s)) as [-> | _]; [| apply Ht].
    intros [= <-].
    assert (refills_fully
              match buckets t !! s with
              | Some b0 => b0
              | None => new_bucket (limit_for (config t) s) tc
              end) as Hb.
    { destruct (buckets t !! s) as [b0 |] eqn:Hs; [exact (Ht s b0 Hs) | reflexivity]. }
    revert Hb. generalize (match buckets t !! s with
                           | Some b0 => b0
                           | None => new_bucket (limit_for (config t) s) tc
                           end).
    intros b0 Hb0. unfold refills_fully, consume, refill in *.
    destruct (0 <? tokensToAdd tu b0); cbn [tokens capacity refillRate];
      destruct (0 <? _); cbn; exact Hb0.
  - unfold Reset. destruct (buckets t !! s0) as [b0 |] eqn:Hs0; [| apply Ht].
    cbn [buckets]. rewrite lookup_insert.
    destruct (decide (s0 = s)) as [-> | _]; [| apply Ht].
    intros [= <-]. exact (Ht s b0 Hs0).
Qed.

Lemma consume_after_a_minute (now : Z) (b : tokenBucket) :
  refills_fully b →
  1 <= capacity b <= SafeLimit →
  0 <= tokens b <= capacity b →
  lastRefill b + Minute <= now →
  consume now b =
    (true, {| tokens := capacity b - 1; capacity := capacity b;
              refillRate := refillRate b; lastRefill := now |}).
Proof.
  intros Hfull Hcap Htok Hnow. unfold refills_fully in Hfull.
  pose proof SafeLimit_fits as Hfit.
  pose proof (Minutes_int_range _ (Time_Sub_range now (lastRefill b))) as Hm.
  assert (Minute <= Time_Sub now (lastRefill b)) as Hel
    by (unfold Time_Sub, MinInt64, MaxInt64, Minute in *; lia).
  assert (1 <= Minutes_int (Time_Sub now (lastRefill b))) as Hone.
  { apply Minutes_int_ge_one.
    pose proof (Time_Sub_range now (lastRefill b)). lia. }
  set (m := Minutes_int (Time_Sub now (lastRefill b))) in *.
  assert (capacity b <= m * capacity b <= MaxMinutes * SafeLimit) as Hp
    by (unfold MaxMinutes, SafeLimit in *; nia).
  assert (tokensToAdd now b = m * capacity b) as Hadd.
  { unfold tokensToAdd. fold m. rewrite Hfull. apply wrap64_id.
    unfold MinInt64, MaxInt64, MaxMinutes, SafeLimit in *. lia. }
  unfold consume, refill. rewrite Hadd.
  destruct (Z.ltb_spec 0 (m * capacity b)) as [_ | ?]; [| lia].
  cbn [tokens capacity refillRate lastRefill].
  rewrite (wrap64_id (tokens b + m * capacity b))
    by (unfold MinInt64, MaxInt64, MaxMinutes, SafeLimit in *; lia).
  rewrite Z.min_l by lia.
  destruct (Z.ltb_spec 0 (capacity b)) as [_ | ?]; [| lia].
  rewrite wrap64_id by (unfold MinInt64, MaxInt64, SafeLimit in *; lia).
  reflexivity.
Qed.

(** In a limiter built from limits within range, a service whose bucket
    was last refilled a minute ago or more is admitted, whatever it has
    consumed, and its bucket is then full but for the token just taken. *)
Theorem full_minute_refills_bucket (cfg : RateLimitConfig) (ops : list limiter_op)
    (s : string) (b : tokenBucket) (tc tu : Z) :
  limits_in_range cfg →
  buckets (run_ops (NewRateLimiter cfg) ops) !! s = Some b →
  1 <= capacity b →
  lastRefill b + Minute <= tu →
  fst (Allow (run_ops (NewRateLimiter cfg) ops) s tc tu) = true
  ∧ buckets (snd (Allow (run_ops (NewRateLimiter cfg) ops) s tc tu)) !! s
    = Some {| tokens := capacity b - 1; capacity := capacity b;
              refillRate := refillRate b; lastRefill := tu |}.
Proof.
  intros Hcfg Hb Hcap Hnow.
  destruct (run_ops_ok ops _ (NewRateLimiter_ok cfg Hcfg)) as [Hok _].
  destruct (Hok s b Hb) as [[Hlo Hhi] [Hsafe _]].
  assert (refills_fully b) as Hfull.
  { apply (refills_fully_kept ops (NewRateLimiter cfg)) with (s := s); [| exact Hb].
    intros s' b' Hb'. cbn in Hb'. rewrite lookup_empty in Hb'. discriminate. }
  unfold Allow. rewrite Hb. cbn [fst snd buckets].
  rewrite (consume_after_a_minute tu b Hfull) by lia.
  split; [reflexivity | apply lookup_insert_eq].
Qed.

Lemma full_minute_refills_bucket_witness :
  fst (Allow (run_ops (NewRateLimiter douyu_limits)
                [OpAllow "douyu" 0 0; OpAllow "douyu" 1 1; OpAllow "douyu" 2 2])
         "douyu" 60000000000 60000000000) = true.
Proof.
  refine (proj1 (full_minute_refills_bucket douyu_limits
                   [OpAllow "douyu" 0 0; OpAllow "douyu" 1 1; OpAllow "douyu" 2 2]
                   "douyu"
                   {| tokens := 0; capacity := 2; refillRate := 2; lastRefill := 0 |}
                   60000000000 60000000000 _ _ _ _)).
  - split; [unfold SafeLimit; simpl; lia |].
    intros s l Hl. cbn in Hl. apply lookup_singleton_Some in Hl as [_ <-].
    unfold SafeLimit. lia.
  - vm_compute. reflexivity.
  - simpl. lia.
  - unfold Minute. simpl. lia.
Defined.

Lemma consume_zero_rate (now : Z) (b : tokenBucket) :
  tokens b = 0 → refillRate b = 0 → consume now b = (false, b).
Proof.
  intros Htok Hrate. unfold consume, refill, tokensToAdd.
  rewrite Hrate, Z.mul_0_r. change (wrap64 0) with 0. cbn [Z.ltb Z.compare].
  rewrite Htok. reflexivity.
Qed.

Lemma zero_limit_kept (s : string) (ops : list limiter_op) :
  ∀ t,
    Services (config t) !! s = Some 0 →
    (∀ b, buckets t !! s = Some b → tokens b = 0 ∧ capacity b = 0 ∧ refillRate b = 0) →
    Services (config (run_ops t ops)) !! s = Some 0
    ∧ ∀ b, buckets (run_ops t ops) !! s = Some b →
           tokens b = 0 ∧ capacity b = 0 ∧ refillRate b = 0.
Proof.
  induction ops as [| op ops IH]; intros t Hcfg Hb; [split; assumption |].
  cbn [run_ops fold_left]. apply IH; clear IH.
  - destruct op as [s0 tc tu | s0 now]; cbn [apply_op]; [exact Hcfg |].
    unfold Reset. destruct (buckets t !! s0); exact Hcfg.
  - intros b. destruct op as [s0 tc tu | s0 now]; cbn [apply_op].
    + unfold Allow. cbn [snd buckets]. rewrite lookup_insert.
      destruct (decide (s0 = s)) as [-> | _]; [| apply Hb].
      intros [= <-].
      destruct (buckets t !! s) as [b0 |] eqn:Hs.
      * destruct (Hb b0 eq_refl) as (Ht0 & Hc0 & Hr0).
        rewrite (consume_zero_rate tu b0 Ht0 Hr0). cbn. auto.
      * unfold limit_for. rewrite Hcfg.
        rewrite (consume_zero_rate tu (new_bucket 0 tc)) by reflexivity. cbn. auto.
    + unfold Reset. destruct (buckets t !! s0) as [b0 |] eqn:Hs0; [| apply Hb].
      cbn [buckets]. rewrite lookup_insert.
      destruct (decide (s0 = s)) as [-> | _]; [| apply Hb].
      intros [= <-]. destruct (Hb b0 Hs0) as (Ht0 & Hc0 & Hr0). cbn. auto.
Qed.

(** A service configured with the limit 0 is never admitted: not on first
    use, not after any wait, not after a [Reset].  (A default limit of 0
    means 60 instead.) *)
Theorem zero_limit_never_admits (cfg : RateLimitConfig) (ops : list limiter_op)
    (s : string) (tc tu : Z) :
  Services cfg !! s = Some 0 →
  fst (Allow (run_ops (NewRateLimiter cfg) ops) s tc tu) = false.
Proof.
  intros Hzero.
  destruct (zero_limit_kept s ops (NewRateLimiter cfg)) as [Hcfg Hb].
  - exact Hzero.
  - intros b Hb. cbn in Hb. rewrite lookup_empty in Hb. discriminate.
  - unfold Allow. cbn [fst].
    destruct (buckets (run_ops (NewRateLimiter cfg) ops) !! s) as [b |] eqn:Hs.
    + destruct (Hb b eq_refl) as (Ht0 & _ & Hr0).
      rewrite (consume_zero_rate tu b Ht0 Hr0). reflexivity.
    + unfold limit_for. rewrite Hcfg.
      rewrite (consume_zero_rate tu (new_bucket 0 tc)) by reflexivity. reflexivity.
Qed.

Lemma zero_limit_never_admits_witness :
  fst (Allow (run_ops (NewRateLimiter
                         {| DefaultLimit := 60; Services := {[ "gitee" := 0 ]}; Window := 0 |})
                [OpAllow "gitee" 0 0; OpReset "gitee" 5])
         "gitee" 600000000000 600000000000) = false.
Proof.
  apply (zero_limit_never_admits
           {| DefaultLimit := 60; Services := {[ "gitee" := 0 ]}; Window := 0 |}).
  apply lookup_singleton_eq.
Defined.

(** After a [Reset] of an existing bucket of capacity [C >= 1], whatever
    was consumed before, exactly [C] calls made within a minute of the
    reset are admitted and the next one is denied. *)
Theorem Reset_restores_capacity (t : TokenBucketLimiter) (s : string)
    (b : tokenBucket) (now : Z) (clock : list (Z * Z)) :
  buckets t !! s = Some b →
  1 <= capacity b <= MaxInt64 →
  length clock = S (Z.to_nat (capacity b)) →
  no_refill_elapsed now clock →
  fst (AllowMany (Reset t s now) s clock)
    = replicate (Z.to_nat (capacity b)) true ++ [false].
Proof.
  intros Hb Hcap Hlen Hclock.
  erewrite (AllowMany_within_minute clock (Reset t s now) s
              {| tokens := capacity b; capacity := capacity b;
                 refillRate := refillRate b; lastRefill := now |}
              (Z.to_nat (capacity b))).
  - rewrite Hlen.
    replace (Nat.min (Z.to_nat (capacity b)) (S (Z.to_nat (capacity b))))
      with (Z.to_nat (capacity b)) by lia.
    replace (S (Z.to_nat (capacity b)) - Z.to_nat (capacity b))%nat with 1%nat by lia.
    reflexivity.
  - unfold Reset. rewrite Hb. cbn [buckets]. apply lookup_insert_eq.
  - cbn [tokens]. lia.
  - lia.
  - exact Hclock.
Qed.

Lemma Reset_restores_capacity_witness :
  fst (AllowMany
         (Reset (run_ops (NewRateLimiter douyu_limits)
                   [OpAllow "douyu" 0 0; OpAllow "douyu" 1 1]) "douyu" 7)
         "douyu" [(8, 8); (9, 9); (10, 10)])
    = [true; true; false].
Proof.
  apply (Reset_restores_capacity
           (run_ops (NewRateLimiter douyu_limits)
              [OpAllow "douyu" 0 0; OpAllow "douyu" 1 1])
           "douyu"
           {| tokens := 0; capacity := 2; refillRate := 2; lastRefill := 0 |}
           7 [(8, 8); (9, 9); (10, 10)]).
  - vm_compute. reflexivity.
  - unfold MaxInt64. simpl. lia.
  - reflexivity.
  - unfold no_refill_elapsed, Minute. repeat constructor; simpl; lia.
Defined.

(** With the default limit left at 0 and no limit of its own, a service
    gets 60 calls: the first 60 within a minute of its first use are
    admitted, the next is denied. *)
Theorem unconfigured_service_gets_sixty (cfg : RateLimitConfig) (s : string)
    (t0 u0 : Z) (rest : list (Z * Z)) :
  DefaultLimit cfg = 0 →
  Services cfg !! s = None →
  length rest = 60%nat →
  no_refill_elapsed t0 ((t0, u0) :: rest) →
  fst (AllowMany (NewRateLimiter cfg) s ((t0, u0) :: rest))
    = replicate 60 true ++ [false].
Proof.
  intros Hdef Hsvc Hlen Hclock.
  assert (limit_for (config (NewRateLimiter cfg)) s = 60) as Hlimit.
  { unfold limit_for, NewRateLimiter. cbn. rewrite Hsvc, Hdef. reflexivity. }
  cbn [AllowMany]. rewrite (Allow_first_use (NewRateLimiter cfg) s t0 u0)
    by (cbn; apply lookup_empty).
  change (fst (AllowMany
                 {| buckets := <[s := new_bucket (limit_for (config (NewRateLimiter cfg)) s) t0]>
                                 (buckets (NewRateLimiter cfg));
                    config := config (NewRateLimiter cfg) |} s ((t0, u0) :: rest)) =
          replicate 60 true ++ [false]).
  erewrite (AllowMany_within_minute _ _ s (new_bucket 60 t0) 60%nat).
  - cbn [length]. rewrite Hlen. reflexivity.
  - cbn [buckets]. rewrite Hlimit. apply lookup_insert_eq.
  - reflexivity.
  - unfold MaxInt64. lia.
  - exact Hclock.
Qed.

Lemma unconfigured_service_gets_sixty_witness :
  fst (AllowMany (NewRateLimiter {| DefaultLimit := 0; Services := ∅; Window := 0 |})
         "weibo" ((0, 0) :: replicate 60 (1, 1)))
    = replicate 60 true ++ [false].
Proof.
  apply (unconfigured_service_gets_sixty
           {| DefaultLimit := 0; Services := ∅; Window := 0 |} "weibo" 0 0
           (replicate 60 (1, 1))).
  - reflexivity.
  - reflexivity.
  - reflexivity.
  - unfold no_refill_elapsed. apply Forall_cons. split.
    + unfold Minute. simpl. lia.
    + apply Forall_replicate. unfold Minute. simpl. lia.
Defined.

(** A call that is denied within the minute changes nothing: no token is
    taken, the refill time stays, the limiter is the same. *)
Theorem denied_call_changes_nothing (t : TokenBucketLimiter) (s : string)
    (b : tokenBucket) (tc tu : Z) :
  buckets t !! s = Some b →
  tokens b <= 0 →
  lastRefill b <= tu < lastRefill b + Minute →
  Allow t s tc tu = (false, t).
Proof.
  intros Hb Htok Hnow. unfold Allow. rewrite Hb.
  rewrite (consume_denies tu b (refill_within_minute tu b Hnow) Htok).
  cbn [fst snd]. rewrite (insert_id _ _ _ Hb). destruct t. reflexivity.
Qed.

Lemma denied_call_changes_nothing_witness :
  Allow (run_ops (NewRateLimiter douyu_limits)
           [OpAllow "douyu" 0 0; OpAllow "douyu" 1 1]) "douyu" 2 2
  = (false, run_ops (NewRateLimiter douyu_limits)
              [OpAllow "douyu" 0 0; OpAllow "douyu" 1 1]).
Proof.
  apply (denied_call_changes_nothing _ "douyu"
           {| tokens := 0; capacity := 2; refillRate := 2; lastRefill := 0 |}).
  - vm_compute. reflexivity.
  - simpl. lia.
  - unfold Minute. simpl. lia.
Defined.

End LimiterProps.

(** ** Cache store: round trip, accounting, sweep, deletion *)

Module CacheProps.
Import Cache GoIntFacts CacheFacts.

Lemma stored_size_empty : stored_size ∅ = 0.
Proof. unfold stored_size. apply map_fold_empty. Qed.

Lemma stored_size_insert (d : gmap string cacheItem) (k : string) (i : cacheItem) :
  d !! k = None → stored_size (<[k := i]> d) = stored_size d + item_size i.
Proof.
  intros Hk. unfold stored_size.
  rewrite map_fold_insert_L; [reflexivity | | exact Hk].
  intros. lia.
Qed.

Lemma stored_size_delete (d : gmap string cacheItem) (k : string) (i : cacheItem) :
  d !! k = Some i → stored_size (delete k d) = stored_size d - item_size i.
Proof.
  intros Hk. unfold stored_size.
  rewrite (map_fold_delete_L _ _ k i d); [lia | | exact Hk].
  intros. lia.
Qed.

Lemma stored_size_nonneg (d : gmap string cacheItem) : 0 <= stored_size d.
Proof.
  unfold stored_size.
  apply (map_fold_weak_ind (λ r _, 0 <= r)); [lia |].
  intros k i m r _ Hr. unfold item_size. lia.
Qed.

Lemma stored_size_overwrite (d : gmap string cacheItem) (k : string) (old i : cacheItem) :
  d !! k = Some old →
  stored_size (<[k := i]> d) = stored_size d - item_size old + item_size i.
Proof.
  intros Hk. rewrite <- insert_delete_eq.
  rewrite stored_size_insert by apply lookup_delete_eq.
  rewrite (stored_size_delete d k old Hk). reflexivity.
Qed.

Lemma Delete_exact (m : MemoryCache) (key : string) :
  exact m → exact (MemoryCache_Delete m key).
Proof.
  intros [Hcur Hmax]. unfold MemoryCache_Delete.
  destruct (data m !! key) as [item |] eqn:Hitem; [| split; assumption].
  pose proof (stored_size_nonneg (delete key (data m))) as Hpos.
  rewrite (stored_size_delete _ _ _ Hitem) in Hpos.
  assert (0 <= item_size item) by (unfold item_size; lia).
  unfold exact. cbn [data currentSize].
  rewrite (stored_size_delete _ _ _ Hitem), Hcur.
  rewrite wrap64_id by (unfold MinInt64, MaxInt64 in *; lia).
  split; lia.
Qed.

Lemma cleanup_exact (now : Z) (order : list (string * cacheItem)) :
  ∀ m,
    NoDup (fst <$> order) →
    (∀ k i, (k, i) ∈ order → data m !! k = Some i) →
    exact m →
    exact (cleanup_tick order now m).
Proof.
  induction order as [| [k i] order IH]; intros m Hdup Hin Hm; [exact Hm |].
  rewrite fmap_cons in Hdup. apply NoDup_cons in Hdup as [Hk Hdup].
  unfold cleanup_tick. cbn [fold_left]. apply IH; [exact Hdup | |].
  - intros k' i' Hin'. unfold cleanup_step. cbn [fst snd].
    assert (k' ≠ k) as Hne.
    { intros ->. apply Hk. apply list_elem_of_fmap. exists (k, i'). split; [reflexivity | exact Hin']. }
    destruct (expiredAt i <? now); cbn [data].
    + rewrite lookup_delete_ne by congruence. apply Hin, list_elem_of_further, Hin'.
    + apply Hin, list_elem_of_further, Hin'.
  - unfold cleanup_step. cbn [fst snd].
    destruct (expiredAt i <? now); [| exact Hm].
    pose proof (Delete_exact m k Hm) as Hdel. unfold MemoryCache_Delete in Hdel.
    rewrite (Hin k i (list_elem_of_here _ _)) in Hdel. exact Hdel.
Qed.

Lemma cleanup_lookup_expired (now : Z) (order : list (string * cacheItem)) :
  ∀ m k i, (k, i) ∈ order → expiredAt i < now →
           data (cleanup_tick order now m) !! k = None.
Proof.
  assert (∀ l m k, data m !! k = None →
                   data (fold_left (cleanup_step now) l m) !! k = None) as Hgone.
  { induction l as [| kv l IH]; intros m k Hk; [exact Hk |].
    cbn [fold_left]. apply IH. unfold cleanup_step.
    destruct (expiredAt (snd kv) <? now); [| exact Hk].
    cbn [data]. rewrite lookup_delete. case_decide; [reflexivity | exact Hk]. }
  induction order as [| kv order IH]; intros m k i Hin Hexp.
  - apply elem_of_nil in Hin. contradiction.
  - unfold cleanup_tick. cbn [fold_left].
    apply elem_of_cons in Hin as [<- | Hin].
    + apply Hgone. unfold cleanup_step. cbn [fst snd].
      destruct (Z.ltb_spec (expiredAt i) now); [| lia].
      cbn [data]. apply lookup_delete_eq.
    + exact (IH _ k i Hin Hexp).
Qed.

Lemma cleanup_lookup_live (now : Z) (order : list (string * cacheItem)) :
  ∀ m k, (∀ i, (k, i) ∈ order → now <= expiredAt i) →
         data (cleanup_tick order now m) !! k = data m !! k.
Proof.
  induction order as [| [k0 i0] order IH]; intros m k Hlive; [reflexivity |].
  unfold cleanup_tick. cbn [fold_left].
  change (data (cleanup_tick order now (cleanup_step now m (k0, i0))) !! k = data m !! k).
  rewrite IH by (intros i Hi; apply Hlive, list_elem_of_further, Hi).
  unfold cleanup_step. cbn [fst snd].
  destruct (Z.ltb_spec (expiredAt i0) now) as [Hexp | _]; [| reflexivity].
  cbn [data]. rewrite lookup_delete_ne; [reflexivity |].
  intros ->. specialize (Hlive i0 (list_elem_of_here _ _)). lia.
Qed.

(** A tick of [cleanup] removes exactly the entries past their expiry and
    keeps every other entry as it is, in whatever order the map is
    visited; an exact accounted size stays exact. *)
Theorem cleanup_removes_exactly_expired (order : list (string * cacheItem))
    (now : Z) (m : MemoryCache) :
  order ≡ₚ map_to_list (data m) →
  (∀ k, data (cleanup_tick order now m) !! k =
        match data m !! k with
        | Some i => if expiredAt i <? now then None else Some i
        | None => None
        end)
  ∧ (exact m → exact (cleanup_tick order now m)).
Proof.
  intros Hperm.
  assert (∀ k i, (k, i) ∈ order ↔ data m !! k = Some i) as Hin.
  { intros k i. rewrite Hperm. apply elem_of_map_to_list. }
  split.
  - intros k. destruct (data m !! k) as [i |] eqn:Hk.
    + destruct (Z.ltb_spec (expiredAt i) now) as [Hexp | Hlive].
      * apply (cleanup_lookup_expired now order m k i); [apply Hin, Hk | exact Hexp].
      * rewrite cleanup_lookup_live; [exact Hk |].
        intros i' Hi'. apply Hin in Hi'. congruence.
    + rewrite cleanup_lookup_live; [exact Hk |].
      intros i' Hi'. apply Hin in Hi'. congruence.
  - apply cleanup_exact.
    + rewrite Hperm. apply NoDup_fst_map_to_list.
    + intros k i Hki. apply Hin, Hki.
Qed.

Lemma cleanup_removes_exactly_expired_witness :
  let m := run_sets _ raw_Marshal (NewMemoryCache 0)
             (plan _ raw_Marshal (NewMemoryCache 0) five_ones) in
  data (cleanup_tick (map_to_list (data m)) 25 m) !! "b"%string = None
  ∧ data (cleanup_tick (map_to_list (data m)) 25 m) !! "a"%string
    = Some {| value := ones 1; expiredAt := 50 |}.
Proof.
  cbn zeta.
  set (m := run_sets _ raw_Marshal (NewMemoryCache 0)
              (plan _ raw_Marshal (NewMemoryCache 0) five_ones)).
  destruct (cleanup_removes_exactly_expired (map_to_list (data m)) 25 m) as [Hlook _];
    [reflexivity |].
  split.
  - rewrite (Hlook "b"%string). vm_compute. reflexivity.
  - rewrite (Hlook "a"%string). vm_compute. reflexivity.
Defined.

Lemma evict_scan_unnamed (l : list (string * cacheItem)) :
  ∀ acc : string * Z,
    fst acc = EmptyString →
    Forall (λ kv, fst kv = EmptyString) l →
    fst (fold_left evict_step l acc) = EmptyString.
Proof.
  induction l as [| kv l IH]; intros acc Hacc Hl; [exact Hacc |].
  apply Forall_cons in Hl as [Hkv Hl]. cbn [fold_left]. apply IH; [| exact Hl].
  unfold evict_step. rewrite bool_decide_eq_true_2 by exact Hacc. exact Hkv.
Qed.

(** When every stored entry sits under the empty key, which [evictLRU]
    uses for "no key yet", nothing is evicted. *)
Theorem evictLRU_spares_empty_key (order : list (string * cacheItem)) (m : MemoryCache) :
  order ≡ₚ map_to_list (data m) →
  (∀ k i, data m !! k = Some i → k = EmptyString) →
  evictLRU order m = m.
Proof.
  intros Hperm Hkeys. unfold evictLRU.
  rewrite bool_decide_eq_true_2; [reflexivity |].
  apply evict_scan_unnamed; [reflexivity |].
  apply Forall_forall. intros [k i] Hki. rewrite Hperm in Hki.
  apply elem_of_map_to_list in Hki. exact (Hkeys k i Hki).
Qed.

Lemma evictLRU_spares_empty_key_witness :
  let m := snd (MemoryCache_Set _ raw_Marshal [] (NewMemoryCache 1) "" (ones 3) 10 0) in
  evictLRU (map_to_list (data m)) m = m.
Proof.
  cbn zeta. apply evictLRU_spares_empty_key; [reflexivity |].
  intros k i Hk.
  destruct (decide (k = EmptyString)) as [-> | Hne]; [reflexivity |].
  change (<[EmptyString := {| value := ones 3; expiredAt := 0 + 10 |}]>
            (∅ : gmap string cacheItem) !! k = Some i) in Hk.
  rewrite lookup_insert_ne in Hk by congruence. rewrite lookup_empty in Hk. discriminate.
Defined.

Section Store.
Variable Value : Type.
Variable json_Marshal : Value → option (list Byte.byte).
Variable json_Unmarshal : list Byte.byte → option Value.

Abbreviation Get := (MemoryCache_Get Value json_Unmarshal).
Abbreviation Put := (MemoryCache_Set Value json_Marshal).

Lemma Put_data (order : list (string * cacheItem)) (m : MemoryCache) (key : string)
    (v : Value) (ttl now : Z) (bytes : list Byte.byte) :
  json_Marshal v = Some bytes →
  fst (Put order m key v ttl now) = None
  ∧ data (snd (Put order m key v ttl now)) !! key
    = Some {| value := bytes; expiredAt := now + ttl |}.
Proof.
  intros Hv. unfold MemoryCache_Set. rewrite Hv. cbn [fst snd data].
  split; [reflexivity | apply lookup_insert_eq].
Qed.

(** What [Set] stores is what [Get] returns until the entry expires: a
    value the codec carries through is read back unchanged at any time up
    to and including [now + ttl], and reported as expired after it,
    whatever was evicted to make room. *)
Theorem Set_then_Get (order : list (string * cacheItem)) (m : MemoryCache)
    (key : string) (v : Value) (ttl now later : Z) (bytes : list Byte.byte) :
  json_Marshal v = Some bytes →
  json_Unmarshal bytes = Some v →
  fst (Get (snd (Put order m key v ttl now)) key later)
    = if now + ttl <? later then inr (ErrCacheExpired key) else inl v.
Proof.
  intros Hv Hback.
  destruct (Put_data order m key v ttl now bytes Hv) as [_ Hitem].
  destruct (Z.ltb_spec (now + ttl) later) as [Hexp | Hlive].
  - rewrite (Get_expired _ _ _ _ _ _ Hitem) by exact Hexp. reflexivity.
  - rewrite (Get_live _ _ _ _ _ _ Hitem) by exact Hlive. cbn [fst value].
    rewrite Hback. reflexivity.
Qed.

(** A failing [json.Marshal] makes [Set] return the error and leave the
    cache as it was. *)
Lemma Set_marshal_error (order : list (string * cacheItem)) (m : MemoryCache)
    (key : string) (v : Value) (ttl now : Z) :
  json_Marshal v = None → Put order m key v ttl now = (Some ErrMarshal, m).
Proof. intros Hv. unfold MemoryCache_Set. rewrite Hv. reflexivity. Qed.

(** [Delete] of a key that is not stored changes nothing, so deleting
    twice is deleting once; after a [Delete] the key reads as a miss, and
    every other key is as before. *)
Theorem Delete_then_Get (m : MemoryCache) (key : string) :
  (data m !! key = None → MemoryCache_Delete m key = m)
  ∧ MemoryCache_Delete (MemoryCache_Delete m key) key = MemoryCache_Delete m key
  ∧ (∀ now, Get (MemoryCache_Delete m key) key now
            = (inr (ErrCacheMiss key), MemoryCache_Delete m key))
  ∧ (∀ other, other ≠ key → data (MemoryCache_Delete m key) !! other = data m !! other).
Proof.
  assert (data (MemoryCache_Delete m key) !! key = None) as Hgone.
  { unfold MemoryCache_Delete. destruct (data m !! key) eqn:Hk; [| exact Hk].
    cbn [data]. apply lookup_delete_eq. }
  split; [| split; [| split]].
  - intros Hnone. unfold MemoryCache_Delete. rewrite Hnone. reflexivity.
  - unfold MemoryCache_Delete at 1. rewrite Hgone. reflexivity.
  - intros now. apply Get_absent. exact Hgone.
  - intros other Hne. unfold MemoryCache_Delete.
    destruct (data m !! key); [| reflexivity].
    cbn [data]. apply lookup_delete_ne. congruence.
Qed.

(** The accounted size stays the stored size through [Delete], [Clear],
    [Get], the eviction and a [Set] under a key that is not stored. *)
Theorem accounting_stays_exact :
  (∀ m key, exact m → exact (MemoryCache_Delete m key))
  ∧ (∀ m, exact (MemoryCache_Clear m))
  ∧ (∀ m key now, exact m → exact (snd (Get m key now)))
  ∧ (∀ order m, exact m → exact (evictLRU order m))
  ∧ (∀ order m key v ttl now bytes,
        json_Marshal v = Some bytes →
        data m !! key = None →
        stored_size (data m) + Z.of_nat (length bytes) <= MaxInt64 →
        exact m →
        exact (snd (Put order m key v ttl now))).
Proof.
  assert (∀ order m, exact m → exact (evictLRU order m)) as Hevict.
  { intros order m Hm. unfold evictLRU.
    destruct (bool_decide _); [exact Hm | apply Delete_exact, Hm]. }
  split; [exact Delete_exact |]. split; [| split; [| split; [exact Hevict |]]].
  - intros m. unfold exact, MemoryCache_Clear. cbn [data currentSize].
    rewrite stored_size_empty. unfold MaxInt64. split; [reflexivity | lia].
  - intros m key now Hm. unfold MemoryCache_Get.
    destruct (data m !! key) as [item |]; [| exact Hm].
    destruct (expiredAt item <? now); [apply Delete_exact, Hm | exact Hm].
  - intros order m key v ttl now bytes Hv Hfresh Hfit Hm.
    unfold MemoryCache_Set. rewrite Hv. cbn [snd].
    set (m1 := if (0 <? maxSize m) && (maxSize m <? wrap64 (currentSize m + Z.of_nat (length bytes)))
               then evictLRU order m else m).
    assert (exact m1) as [Hcur1 Hmax1] by (unfold m1; destruct (_ && _); auto).
    assert (data m1 !! key = None) as Hfresh1.
    { unfold m1. destruct (_ && _); [| exact Hfresh].
      unfold evictLRU. destruct (bool_decide _); [exact Hfresh |].
      unfold MemoryCache_Delete.
      destruct (data m !! fst (evict_scan order)); [| exact Hfresh].
      cbn [data]. rewrite lookup_delete. case_decide; [reflexivity | exact Hfresh]. }
    assert (stored_size (data m1) <= stored_size (data m)) as Hle.
    { unfold m1. destruct (_ && _); [| lia].
      unfold evictLRU. destruct (bool_decide _); [lia |].
      unfold MemoryCache_Delete.
      destruct (data m !! fst (evict_scan order)) as [old |] eqn:Hold; [| lia].
      cbn [data]. rewrite (stored_size_delete _ _ _ Hold). unfold item_size. lia. }
    pose proof (stored_size_nonneg (data m1)) as Hpos.
    unfold exact. cbn [data currentSize].
    rewrite stored_size_insert by exact Hfresh1.
    unfold item_size at 1 2. cbn [value]. rewrite Hcur1.
    rewrite wrap64_id by (unfold MinInt64, MaxInt64 in *; lia).
    split; lia.
Qed.

(** A [Set] under a key that is already stored replaces the entry but adds
    the new size without giving the old one back: when nothing is evicted,
    the accounted size ends up above the stored size by the size of the
    entry that was replaced. *)
Theorem Set_overwrite_counts_twice (order : list (string * cacheItem))
    (m : MemoryCache) (key : string) (v : Value) (ttl now : Z)
    (bytes : list Byte.byte) (old : cacheItem) :
  json_Marshal v = Some bytes →
  data m !! key = Some old →
  exact m →
  currentSize m + Z.of_nat (length bytes) <= MaxInt64 →
  maxSize m <= 0 ∨ currentSize m + Z.of_nat (length bytes) <= maxSize m →
  data (snd (Put order m key v ttl now))
    = <[key := {| value := bytes; expiredAt := now + ttl |}]> (data m)
  ∧ currentSize (snd (Put order m key v ttl now))
    = stored_size (data (snd (Put order m key v ttl now))) + item_size old.
Proof.
  intros Hv Hold [Hcur Hmax] Hfit Hroom.
  pose proof (stored_size_nonneg (data m)) as Hpos.
  unfold MemoryCache_Set. rewrite Hv. cbn [snd].
  rewrite (wrap64_id (currentSize m + Z.of_nat (length bytes)))
    by (unfold MinInt64, MaxInt64 in *; lia).
  assert ((0 <? maxSize m) && (maxSize m <? currentSize m + Z.of_nat (length bytes)) = false)
    as ->.
  { destruct Hroom as [Hunl | Hroom].
    - destruct (Z.ltb_spec 0 (maxSize m)); [lia | reflexivity].
    - destruct (Z.ltb_spec (maxSize m) (currentSize m + Z.of_nat (length bytes)));
        [lia | apply andb_false_r]. }
  cbn [data currentSize]. split; [reflexivity |].
  rewrite (stored_size_overwrite _ _ old _ Hold).
  rewrite wrap64_id by (unfold MinInt64, MaxInt64 in *; lia).
  unfold item_size. cbn [value]. lia.
Qed.

End Store.

Lemma Set_then_Get_witness :
  fst (MemoryCache_Get _ raw_Unmarshal
         (snd (MemoryCache_Set _ raw_Marshal [] (NewMemoryCache 0) "feed" (ones 2) 100 0))
         "feed" 100) = inl (ones 2).
Proof.
  apply (Set_then_Get (list Byte.byte) raw_Marshal raw_Unmarshal
           [] (NewMemoryCache 0) "feed" (ones 2) 100 0 100 (ones 2)); reflexivity.
Defined.

Lemma Delete_then_Get_witness :
  MemoryCache_Delete (NewMemoryCache 0) "feed" = NewMemoryCache 0.
Proof.
  apply (proj1 (Delete_then_Get (list Byte.byte) raw_Unmarshal (NewMemoryCache 0) "feed")).
  reflexivity.
Defined.

Lemma NewMemoryCache_exact (cap : Z) : exact (NewMemoryCache cap).
Proof.
  unfold exact, NewMemoryCache. cbn [data currentSize].
  rewrite stored_size_empty. unfold MaxInt64. split; [reflexivity | lia].
Qed.

Lemma stored_feed_exact :
  exact (snd (MemoryCache_Set _ raw_Marshal [] (NewMemoryCache 0) "feed" (ones 2) 100 0)).
Proof.
  set (m := snd (MemoryCache_Set _ raw_Marshal [] (NewMemoryCache 0) "feed" (ones 2) 100 0)).
  assert (data m = <["feed"%string := {| value := ones 2; expiredAt := 0 + 100 |}]> ∅) as Hd
    by reflexivity.
  assert (currentSize m = 2) as Hc by (vm_compute; reflexivity).
  unfold exact. rewrite Hd, Hc, stored_size_insert by apply lookup_empty.
  rewrite stored_size_empty. unfold MaxInt64, item_size, ones. cbn.
  split; [reflexivity | lia].
Qed.

Lemma accounting_stays_exact_witness :
  exact (snd (MemoryCache_Set _ raw_Marshal [] (NewMemoryCache 0) "feed" (ones 2) 100 0)).
Proof.
  destruct (accounting_stays_exact (list Byte.byte) raw_Marshal raw_Unmarshal)
    as (_ & _ & _ & _ & Hput).
  apply (Hput [] (NewMemoryCache 0) "feed"%string (ones 2) 100 0 (ones 2)).
  - reflexivity.
  - reflexivity.
  - cbn [data NewMemoryCache]. rewrite stored_size_empty. unfold MaxInt64. simpl. lia.
  - apply NewMemoryCache_exact.
Defined.

Lemma Set_overwrite_counts_twice_witness :
  let m := snd (MemoryCache_Set _ raw_Marshal [] (NewMemoryCache 0) "feed" (ones 2) 100 0) in
  currentSize (snd (MemoryCache_Set _ raw_Marshal [] m "feed" (ones 3) 100 1))
  = stored_size (data (snd (MemoryCache_Set _ raw_Marshal [] m "feed" (ones 3) 100 1))) + 2.
Proof.
  cbn zeta.
  refine (proj2 (Set_overwrite_counts_twice (list Byte.byte) raw_Marshal []
                   (snd (MemoryCache_Set _ raw_Marshal [] (NewMemoryCache 0)
                           "feed" (ones 2) 100 0))
                   "feed" (ones 3) 100 1 (ones 3)
                   {| value := ones 2; expiredAt := 100 |} _ _ _ _ _)).
  - reflexivity.
  - reflexivity.
  - apply stored_feed_exact.
  - unfold MaxInt64. vm_compute. discriminate.
  - left. simpl. lia.
Defined.

End CacheProps.

(** ** Connection pool and pool registry *)

Module PoolProps.
Import Pool.

Section Connections.
Variable Conn : Type.
Variable Err : Type.
Variable close : Conn → option Err.

Abbreviation CPool := (ConnectionPool Conn).
Abbreviation Get := (ConnectionPool_Get Conn Err).
Abbreviation Put := (ConnectionPool_Put Conn Err close).
Abbreviation Close := (ConnectionPool_Close Conn Err close).
Abbreviation put_all := (put_all Conn Err close).
Abbreviation get_n := (get_n Conn Err).

Lemma put_all_room (conns : list Conn) :
  ∀ cp : CPool,
    chan_closed Conn cp = false →
    (length (connections Conn cp) + length conns <= cp_maxSize Conn cp)%nat →
    put_all cp conns =
      Returns (replicate (length conns) None,
               {| connections := connections Conn cp ++ conns;
                  cp_maxSize := cp_maxSize Conn cp;
                  chan_closed := false;
                  released := released Conn cp |}).
Proof.
  induction conns as [| conn conns IH]; intros cp Hopen Hroom.
  - cbn. rewrite app_nil_r. destruct cp. cbn in *. subst. reflexivity.
  - cbn [length] in Hroom. cbn [Pool.put_all]. unfold ConnectionPool_Put. rewrite Hopen.
    destruct (Nat.ltb_spec (length (connections Conn cp)) (cp_maxSize Conn cp)); [| lia].
    rewrite IH.
    + cbn. rewrite <- app_assoc. reflexivity.
    + reflexivity.
    + cbn. rewrite length_app. cbn. lia.
Qed.

Lemma get_n_pooled (conns : list Conn) :
  ∀ (cp : CPool) (rest : list Conn) (made : option Conn * option Err),
    connections Conn cp = conns ++ rest →
    get_n (length conns) cp made =
      ((λ c, (Some c, None)) <$> conns,
       {| connections := rest; cp_maxSize := cp_maxSize Conn cp;
          chan_closed := chan_closed Conn cp; released := released Conn cp |}).
Proof.
  induction conns as [| conn conns IH]; intros cp rest made Hconns.
  - cbn. destruct cp. cbn in *. subst. reflexivity.
  - cbn [length Pool.get_n]. unfold ConnectionPool_Get. rewrite Hconns.
    cbn [app fst snd]. rewrite (IH _ rest made) by reflexivity.
    rewrite fmap_cons. reflexivity.
Qed.

(** Connections come out in the order they went in: after putting
    connections into an empty open pool that has room for them, as many
    calls of [Get] return them oldest first, without asking the factory,
    and leave the pool empty. *)
Theorem connections_are_reused_in_order (maxSize : nat) (conns : list Conn)
    (made : option Conn * option Err) :
  (length conns <= maxSize)%nat →
  ∃ cp, put_all (NewConnectionPool Conn maxSize) conns
        = Returns (replicate (length conns) None, cp)
        ∧ get_n (length conns) cp made
          = ((λ c, (Some c, None)) <$> conns, NewConnectionPool Conn maxSize).
Proof.
  intros Hroom. eexists. split.
  - apply put_all_room; [reflexivity | cbn; lia].
  - rewrite (get_n_pooled conns _ [] made) by (cbn; rewrite app_nil_r; reflexivity).
    reflexivity.
Qed.

(** [Put] on a full pool releases the connection instead: the result of
    closing it is returned and the pooled connections stay as they are.
    The pool never holds more than its capacity. *)
Theorem Put_on_full_pool_releases (cp : CPool) (conn : Conn) :
  chan_closed Conn cp = false →
  (length (connections Conn cp) <= cp_maxSize Conn cp)%nat →
  (∀ cp1 err, ConnectionPool_Put Conn Err close cp conn = Returns (err, cp1) →
     (length (connections Conn cp1) <= cp_maxSize Conn cp1)%nat)
  ∧ (length (connections Conn cp) = cp_maxSize Conn cp →
     ConnectionPool_Put Conn Err close cp conn =
       Returns (close conn,
                {| connections := connections Conn cp; cp_maxSize := cp_maxSize Conn cp;
                   chan_closed := false; released := released Conn cp ++ [conn] |})).
Proof.
  intros Hopen Hbound. unfold ConnectionPool_Put. rewrite Hopen. split.
  - intros cp1 err.
    destruct (Nat.ltb_spec (length (connections Conn cp)) (cp_maxSize Conn cp));
      intros [= _ <-]; cbn; [rewrite length_app; cbn; lia | exact Hbound].
  - intros Hfull.
    destruct (Nat.ltb_spec (length (connections Conn cp)) (cp_maxSize Conn cp)); [lia |].
    reflexivity.
Qed.

Lemma drain_until (pre : list Conn) :
  ∀ (post done : list Conn),
    Forall (λ c, close c = None) pre →
    Pool.drain Conn Err close (pre ++ post) done
    = Pool.drain Conn Err close post (done ++ pre).
Proof.
  induction pre as [| c pre IH]; intros post done Hpre.
  - cbn. rewrite app_nil_r. reflexivity.
  - apply Forall_cons in Hpre as [Hc Hpre]. cbn. rewrite Hc, IH by exact Hpre.
    rewrite <- app_assoc. reflexivity.
Qed.

Lemma Close_releases_all (cp : CPool) :
  chan_closed Conn cp = false →
  Forall (λ c, close c = None) (connections Conn cp) →
  ConnectionPool_Close Conn Err close cp =
    Returns (None,
             {| connections := []; cp_maxSize := cp_maxSize Conn cp;
                chan_closed := true;
                released := released Conn cp ++ connections Conn cp |}).
Proof.
  intros Hopen Hall.
  unfold ConnectionPool_Close. rewrite Hopen.
  pose proof (drain_until (connections Conn cp) [] (released Conn cp) Hall) as Hd.
  rewrite app_nil_r in Hd. rewrite Hd. reflexivity.
Qed.

(** [Close] releases the pooled connections oldest first and stops at the
    first release that fails: it returns that error, and the connections
    behind the failing one stay in the closed channel, never released.
    When no release fails, every connection is released and nil
    returned. *)
Theorem Close_stops_at_first_error :
  (∀ (cp : CPool) (pre post : list Conn) (bad : Conn) (err : Err),
      chan_closed Conn cp = false →
      connections Conn cp = pre ++ bad :: post →
      Forall (λ c, close c = None) pre →
      close bad = Some err →
      ConnectionPool_Close Conn Err close cp =
        Returns (Some err,
                 {| connections := post; cp_maxSize := cp_maxSize Conn cp;
                    chan_closed := true;
                    released := released Conn cp ++ pre ++ [bad] |}))
  ∧ (∀ cp : CPool,
        chan_closed Conn cp = false →
        Forall (λ c, close c = None) (connections Conn cp) →
        ConnectionPool_Close Conn Err close cp =
          Returns (None,
                   {| connections := []; cp_maxSize := cp_maxSize Conn cp;
                      chan_closed := true;
                      released := released Conn cp ++ connections Conn cp |})).
Proof.
  split.
  - intros cp pre post bad err Hopen Hconns Hpre Hbad.
    unfold ConnectionPool_Close. rewrite Hopen, Hconns.
    rewrite (drain_until pre (bad :: post) _ Hpre). cbn. rewrite Hbad. cbn.
    rewrite <- app_assoc. reflexivity.
  - exact Close_releases_all.
Qed.

(** Use after [Close]: once an open pool has been closed with every
    release succeeding, [Get] returns a nil connection with a nil error
    and does not ask the factory, and both [Put] and a second [Close]
    panic. *)
Theorem use_after_Close (cp : CPool) (conn : Conn) (made : option Conn * option Err) :
  chan_closed Conn cp = false →
  Forall (λ c, close c = None) (connections Conn cp) →
  ∃ cp1, ConnectionPool_Close Conn Err close cp = Returns (None, cp1)
         ∧ ConnectionPool_Get Conn Err cp1 made = ((None, None), cp1)
         ∧ ConnectionPool_Put Conn Err close cp1 conn = Panics
         ∧ ConnectionPool_Close Conn Err close cp1 = Panics.
Proof.
  intros Hopen Hall. eexists. split.
  - apply (Close_releases_all cp Hopen Hall).
  - repeat split.
Qed.

End Connections.

Lemma connections_are_reused_in_order_witness :
  ∃ cp, Pool.put_all nat string close_unless_zero (NewConnectionPool nat 3) [7; 8; 9]%nat
        = Returns ([None; None; None], cp)
        ∧ Pool.get_n nat string 3 cp (None, Some "dial failed"%string)
          = ([(Some 7, None); (Some 8, None); (Some 9, None)]%nat, NewConnectionPool nat 3).
Proof.
  apply (connections_are_reused_in_order nat string close_unless_zero 3 [7; 8; 9]%nat).
  cbn. lia.
Defined.

Lemma Put_on_full_pool_releases_witness :
  Pool.ConnectionPool_Put nat string close_unless_zero
    {| connections := [7%nat]; cp_maxSize := 1; chan_closed := false; released := [] |} 0%nat
  = Returns (Some "broken pipe"%string,
             {| connections := [7%nat]; cp_maxSize := 1; chan_closed := false;
                released := [0%nat] |}).
Proof.
  apply (proj2 (Put_on_full_pool_releases nat string close_unless_zero
                  {| connections := [7%nat]; cp_maxSize := 1; chan_closed := false;
                     released := [] |} 0%nat eq_refl (le_n 1))).
  reflexivity.
Defined.

Lemma Close_stops_at_first_error_witness :
  Pool.ConnectionPool_Close nat string close_unless_zero
    {| connections := [7; 0; 9]%nat; cp_maxSize := 3; chan_closed := false; released := [] |}
  = Returns (Some "broken pipe"%string,
             {| connections := [9%nat]; cp_maxSize := 3; chan_closed := true;
                released := [7; 0]%nat |}).
Proof.
  apply (proj1 (Close_stops_at_first_error nat string close_unless_zero)
           {| connections := [7; 0; 9]%nat; cp_maxSize := 3; chan_closed := false;
              released := [] |} [7%nat] [9%nat] 0%nat "broken pipe"%string).
  - reflexivity.
  - reflexivity.
  - repeat constructor.
  - reflexivity.
Defined.

Lemma use_after_Close_witness :
  ∃ cp1, Pool.ConnectionPool_Close nat string close_unless_zero
           {| connections := [7; 8]%nat; cp_maxSize := 3; chan_closed := false;
              released := [] |} = Returns (None, cp1)
         ∧ Pool.ConnectionPool_Get nat string cp1 (Some 5%nat, None) = ((None, None), cp1)
         ∧ Pool.ConnectionPool_Put nat string close_unless_zero cp1 9%nat = Panics
         ∧ Pool.ConnectionPool_Close nat string close_unless_zero cp1 = Panics.
Proof.
  apply (use_after_Close nat string close_unless_zero
           {| connections := [7; 8]%nat; cp_maxSize := 3; chan_closed := false;
              released := [] |} 9%nat (Some 5%nat, None)).
  - reflexivity.
  - repeat constructor.
Defined.

End PoolProps.

(** ** Metrics monitor: counters, averages, life cycle *)

Module MonitorProps.
Import Monitor GoIntFacts MonitorFacts.

Lemma record_https_counts (samples : list (Z * bool)) :
  ∀ m,
    0 <= HTTPRequests m →
    HTTPRequests m + Z.of_nat (length samples) <= MaxInt64 →
    0 <= HTTPErrors m <= HTTPRequests m →
    HTTPRequests (record_https m samples) = HTTPRequests m + Z.of_nat (length samples)
    ∧ HTTPErrors (record_https m samples)
      = HTTPErrors m + Z.of_nat (length (filter (λ c, snd c = true) samples)).
Proof.
  induction samples as [| [d e] samples IH]; intros m Hreq Hfit Herr.
  - cbn. split; lia.
  - cbn [length] in Hfit. unfold record_https. cbn [fold_left].
    change (fold_left record_http samples (record_http m (d, e)))
      with (record_https (record_http m (d, e)) samples).
    assert (HTTPRequests (record_http m (d, e)) = HTTPRequests m + 1) as Hr.
    { unfold record_http, RecordHTTPRequest. cbn.
      apply wrap64_id. unfold MinInt64, MaxInt64 in *. lia. }
    assert (HTTPErrors (record_http m (d, e))
            = HTTPErrors m + if e then 1 else 0) as He.
    { unfold record_http, RecordHTTPRequest. cbn. destruct e; [| lia].
      apply wrap64_id. unfold MinInt64, MaxInt64 in *. lia. }
    destruct (IH (record_http m (d, e))) as [Hr' He'].
    + lia.
    + lia.
    + rewrite Hr, He. destruct e; lia.
    + rewrite Hr', He', Hr, He. cbn [length]. split; [lia |].
      destruct e.
      * rewrite filter_cons_True by reflexivity. cbn [length]. lia.
      * rewrite filter_cons_False by (cbn; discriminate). lia.
Qed.

(** After any run of [RecordHTTPRequest] calls on a fresh monitor, the
    request counter is the number of calls and the error counter the
    number of calls that carried the error flag. *)
Theorem http_counters_count (samples : list (Z * bool)) :
  Z.of_nat (length samples) <= MaxInt64 →
  HTTPRequests (record_https NewMonitor samples) = Z.of_nat (length samples)
  ∧ HTTPErrors (record_https NewMonitor samples)
    = Z.of_nat (length (filter (λ c, snd c = true) samples))
  ∧ HTTPErrors (record_https NewMonitor samples)
    <= HTTPRequests (record_https NewMonitor samples).
Proof.
  intros Hfit.
  destruct (record_https_counts samples NewMonitor) as [Hr He]; cbn; try lia.
  cbn in Hr, He. rewrite Hr, He. repeat split.
  pose proof (length_filter (λ c : Z * bool, snd c = true) samples). lia.
Qed.

Lemma http_counters_count_witness :
  HTTPRequests (record_https NewMonitor [(5, false); (7, true); (9, false)]) = 3
  ∧ HTTPErrors (record_https NewMonitor [(5, false); (7, true); (9, false)]) = 1.
Proof.
  destruct (http_counters_count [(5, false); (7, true); (9, false)]) as (Hr & He & _).
  - unfold MaxInt64. cbn. lia.
  - split; [exact Hr | exact He].
Defined.

Lemma halve_between (lo hi avg sample : Z) :
  MinInt64 <= lo + lo →
  hi + hi <= MaxInt64 →
  lo <= avg <= hi →
  lo <= sample <= hi →
  lo <= halve avg sample <= hi.
Proof.
  intros Hlo Hhi Havg Hsample.
  rewrite halve_exact by lia.
  Z.to_euclidean_division_equations. lia.
Qed.

Lemma record_https_between (lo hi : Z) (samples : list (Z * bool)) :
  MinInt64 <= lo + lo →
  hi + hi <= MaxInt64 →
  ∀ m,
    1 <= HTTPRequests m →
    HTTPRequests m + Z.of_nat (length samples) <= MaxInt64 →
    lo <= HTTPResponseTime m <= hi →
    Forall (λ c, lo <= fst c <= hi) samples →
    lo <= HTTPResponseTime (record_https m samples) <= hi.
Proof.
  intros Hlo Hhi.
  induction samples as [| [d e] samples IH]; intros m Hreq Hfit Havg Hall; [exact Havg |].
  apply Forall_cons in Hall as [Hd Hall]. cbn [fst] in Hd. cbn [length] in Hfit.
  unfold record_https. cbn [fold_left].
  change (fold_left record_http samples (record_http m (d, e)))
    with (record_https (record_http m (d, e)) samples).
  assert (HTTPRequests (record_http m (d, e)) = HTTPRequests m + 1) as Hr.
  { unfold record_http, RecordHTTPRequest. cbn.
    apply wrap64_id. unfold MinInt64, MaxInt64 in *. lia. }
  apply IH; [lia | lia | | exact Hall].
  unfold record_http. cbn [fst snd].
  rewrite RecordHTTPRequest_next by lia.
  apply halve_between; assumption.
Qed.

(** The running average of the HTTP response time stays in the range of
    the samples as long as the sum of two of them fits a [Duration]: after
    any non-empty run of calls on a fresh monitor whose durations lie
    between [lo] and [hi], with [2 * lo] and [2 * hi] in the [int64]
    range, so does the average.  Past that the sum wraps: two samples of
    [2^62] nanoseconds average to [-2^62]. *)
Theorem http_average_within_samples :
  (∀ (lo hi : Z) (samples : list (Z * bool)),
      MinInt64 <= lo + lo →
      hi + hi <= MaxInt64 →
      samples ≠ [] →
      Z.of_nat (length samples) <= MaxInt64 →
      Forall (λ c, lo <= fst c <= hi) samples →
      lo <= HTTPResponseTime (record_https NewMonitor samples) <= hi)
  ∧ HTTPResponseTime
      (record_https NewMonitor
         [(4611686018427387904, false); (4611686018427387904, false)])
    = -4611686018427387904.
Proof.
  split; [| vm_compute; reflexivity].
  intros lo hi samples Hlo Hhi Hne Hfit Hall.
  destruct samples as [| [d e] samples]; [congruence |].
  apply Forall_cons in Hall as [Hd Hall]. cbn [fst] in Hd. cbn [length] in Hfit.
  unfold record_https. cbn [fold_left].
  change (fold_left record_http samples (record_http NewMonitor (d, e)))
    with (record_https (record_http NewMonitor (d, e)) samples).
  assert (HTTPRequests (record_http NewMonitor (d, e)) = 1) as Hr by reflexivity.
  assert (HTTPResponseTime (record_http NewMonitor (d, e)) = d) as Ht by reflexivity.
  apply (record_https_between lo hi samples Hlo Hhi); [| | | exact Hall].
  - rewrite Hr. lia.
  - rewrite Hr. lia.
  - rewrite Ht. exact Hd.
Qed.

Lemma http_average_within_samples_witness :
  5 <= HTTPResponseTime (record_https NewMonitor [(5, false); (9, true); (6, false)]) <= 9.
Proof.
  apply (proj1 http_average_within_samples 5 9 [(5, false); (9, true); (6, false)]).
  - unfold MinInt64. lia.
  - unfold MaxInt64. lia.
  - discriminate.
  - unfold MaxInt64. cbn. lia.
  - repeat constructor; cbn; lia.
Defined.

Lemma RecordAPIRequest_same_service (m : Metrics) (s : string) (d : Z) (e : bool) :
  0 <= zget (APIErrors m) s <= zget (APIRequests m) s →
  zget (APIRequests m) s + 1 <= MaxInt64 →
  zget (APIRequests (RecordAPIRequest m s d e)) s = zget (APIRequests m) s + 1
  ∧ zget (APIErrors (RecordAPIRequest m s d e)) s
    = zget (APIErrors m) s + if e then 1 else 0.
Proof.
  intros Herr Hfit. split.
  - rewrite (proj1 (RecordAPIRequest_count m s d e)).
    apply wrap64_id. unfold MinInt64, MaxInt64 in *. lia.
  - unfold RecordAPIRequest. cbn [APIErrors]. unfold incr.
    destruct (Z.eqb_spec (zget (APIRequests m) s) 0) as [Hzero | Hpos].
    + assert (zget (APIErrors m) s = 0) as -> by lia.
      destruct e; rewrite !zget_insert; reflexivity.
    + destruct e; [| lia]. rewrite zget_insert.
      rewrite wrap64_id by (unfold MinInt64, MaxInt64 in *; lia). reflexivity.
Qed.

Lemma RecordAPIRequest_other_service (m : Metrics) (s other : string) (d : Z) (e : bool) :
  other ≠ s →
  zget (APIRequests (RecordAPIRequest m s d e)) other = zget (APIRequests m) other
  ∧ zget (APIErrors (RecordAPIRequest m s d e)) other = zget (APIErrors m) other
  ∧ zget (APIResponseTimes (RecordAPIRequest m s d e)) other
    = zget (APIResponseTimes m) other.
Proof.
  intros Hne. unfold RecordAPIRequest.
  cbn [APIRequests APIErrors APIResponseTimes]. unfold incr.
  destruct (zget (APIRequests m) s =? 0); destruct e;
    destruct (zget _ s =? 1);
    rewrite ?zget_insert_ne by congruence; repeat split; reflexivity.
Qed.

Lemma record_apis_counts (s : string) (calls : list (string * Z * bool)) :
  ∀ m,
    0 <= zget (APIErrors m) s <= zget (APIRequests m) s →
    zget (APIRequests m) s + Z.of_nat (length calls) <= MaxInt64 →
    zget (APIRequests (record_apis m calls)) s
      = zget (APIRequests m) s + requests_for s calls
    ∧ zget (APIErrors (record_apis m calls)) s
      = zget (APIErrors m) s + errors_for s calls.
Proof.
  unfold requests_for, errors_for.
  induction calls as [| [[s0 d] e] calls IH]; intros m Herr Hfit.
  - cbn. split; lia.
  - cbn [length] in Hfit. unfold record_apis. cbn [fold_left].
    change (fold_left record_api calls (record_api m (s0, d, e)))
      with (record_apis (record_api m (s0, d, e)) calls).
    change (record_api m (s0, d, e)) with (RecordAPIRequest m s0 d e).
    destruct (decide (s0 = s)) as [-> | Hne].
    + destruct (RecordAPIRequest_same_service m s d e Herr) as [Hr He]; [lia |].
      destruct (IH (RecordAPIRequest m s d e)) as [Hr' He'].
      * rewrite Hr, He. destruct e; lia.
      * rewrite Hr. lia.
      * rewrite Hr', He', Hr, He.
        rewrite (filter_cons_True (λ c : string * Z * bool, fst (fst c) = s)) by reflexivity.
        cbn [length]. split; [lia |].
        destruct e.
        -- rewrite filter_cons_True by (split; reflexivity). cbn [length]. lia.
        -- rewrite filter_cons_False by (cbn; intros [_ H]; discriminate H). lia.
    + destruct (RecordAPIRequest_other_service m s0 s d e) as (Hr & He & _);
        [congruence |].
      destruct (IH (RecordAPIRequest m s0 d e)) as [Hr' He'].
      * rewrite Hr, He. exact Herr.
      * rewrite Hr. lia.
      * rewrite Hr', He', Hr, He.
        rewrite (filter_cons_False (λ c : string * Z * bool, fst (fst c) = s))
          by (cbn; congruence).
        rewrite filter_cons_False by (cbn; intros [H _]; congruence).
        split; reflexivity.
Qed.

(** After any run of [RecordAPIRequest] calls on a fresh monitor, the
    request counter of each service is the number of calls made for it and
    its error counter the number of those that carried the error flag: the
    services do not disturb one another. *)
Theorem api_counters_count_per_service (calls : list (string * Z * bool)) (s : string) :
  Z.of_nat (length calls) <= MaxInt64 →
  zget (APIRequests (record_apis NewMonitor calls)) s = requests_for s calls
  ∧ zget (APIErrors (record_apis NewMonitor calls)) s = errors_for s calls.
Proof.
  intros Hfit.
  destruct (record_apis_counts s calls NewMonitor) as [Hr He].
  - cbn. unfold zget. rewrite !lookup_empty. cbn. lia.
  - cbn. unfold zget. rewrite lookup_empty. cbn. lia.
  - rewrite Hr, He. cbn. unfold zget. rewrite !lookup_empty. cbn. split; lia.
Qed.

Lemma api_counters_count_per_service_witness :
  zget (APIRequests (record_apis NewMonitor
                       [("zhihu"%string, 5, false); ("gitee"%string, 7, true);
                        ("zhihu"%string, 9, true)])) "zhihu" = 2
  ∧ zget (APIErrors (record_apis NewMonitor
                       [("zhihu"%string, 5, false); ("gitee"%string, 7, true);
                        ("zhihu"%string, 9, true)])) "zhihu" = 1.
Proof.
  apply (api_counters_count_per_service
           [("zhihu"%string, 5, false); ("gitee"%string, 7, true);
            ("zhihu"%string, 9, true)] "zhihu").
  unfold MaxInt64. cbn. lia.
Defined.

Lemma failed_load_resets_errors (m : Metrics) (w : string) (d : Z) :
  zget (WidgetLoadTimes m) w = 0 →
  zget (WidgetErrors (RecordWidgetLoad m w d true)) w = 1
  ∧ zget (WidgetLoadTimes (RecordWidgetLoad m w d true)) w = 0.
Proof.
  intros Hzero. unfold RecordWidgetLoad. cbn [WidgetErrors WidgetLoadTimes].
  rewrite Hzero. cbn [Z.eqb]. unfold incr. rewrite !zget_insert. split; reflexivity.
Qed.

Lemma failed_loads_keep_average (w : string) (durations : list Z) :
  ∀ m,
    zget (WidgetLoadTimes m) w = 0 →
    zget (WidgetLoadTimes (record_failed_loads m w durations)) w = 0
    ∧ (durations ≠ [] → zget (WidgetErrors (record_failed_loads m w durations)) w = 1).
Proof.
  induction durations as [| d durations IH]; intros m Hzero.
  - split; [exact Hzero | congruence].
  - unfold record_failed_loads. cbn [fold_left].
    change (fold_left (λ acc d0, RecordWidgetLoad acc w d0 true) durations
              (RecordWidgetLoad m w d true))
      with (record_failed_loads (RecordWidgetLoad m w d true) w durations).
    destruct (failed_load_resets_errors m w d Hzero) as [Hone Hstill].
    destruct (IH _ Hstill) as [Hload Herr].
    split; [exact Hload |]. intros _.
    destruct durations as [| d' durations]; [exact Hone | apply Herr; discriminate].
Qed.

(** While the average load time of a widget is zero, every
    [RecordWidgetLoad] resets the widget's error counter before counting:
    after any number of failed loads the counter reads 1. *)
Theorem widget_errors_never_exceed_one (m : Metrics) (w : string) (durations : list Z) :
  zget (WidgetLoadTimes m) w = 0 →
  durations ≠ [] →
  zget (WidgetErrors (record_failed_loads m w durations)) w = 1.
Proof.
  intros Hzero Hne. exact (proj2 (failed_loads_keep_average w durations m Hzero) Hne).
Qed.

Lemma widget_errors_never_exceed_one_witness :
  zget (WidgetErrors (record_failed_loads NewMonitor "weibo-hot" [5; 7; 9])) "weibo-hot" = 1.
Proof.
  apply (widget_errors_never_exceed_one NewMonitor "weibo-hot" [5; 7; 9]).
  - reflexivity.
  - discriminate.
Defined.

(** The life cycle of the monitor.  [Start] on a monitor that is marked
    running returns without running the loop, also when the loop has long
    ended with its context.  [Stop] closes the stop channel once and is a
    no-op afterwards; but a [Start] after it sets the flag again, and the
    next [Stop] closes the closed channel and panics. *)
Theorem Stop_after_restart_panics (l : Lifecycle) (interval : Z) :
  0 < interval →
  monitor_running l = true →
  stopCh_closed l = false →
  Start l interval = Pool.Returns (false, l)
  ∧ ∃ stopped restarted,
      Stop l = Pool.Returns stopped
      ∧ Stop stopped = Pool.Returns stopped
      ∧ Start stopped interval = Pool.Returns (true, restarted)
      ∧ Stop restarted = Pool.Panics.
Proof.
  intros Hpos Hrun Hopen. split.
  - unfold Start. rewrite Hrun. reflexivity.
  - exists {| monitor_running := false; stopCh_closed := true |},
           {| monitor_running := true; stopCh_closed := true |}.
    unfold Start, Stop. rewrite Hrun, Hopen. cbn.
    destruct (Z.leb_spec interval 0); [lia |]. repeat split.
Qed.

Lemma Stop_after_restart_panics_witness :
  ∃ stopped restarted,
    Stop {| monitor_running := true; stopCh_closed := false |} = Pool.Returns stopped
    ∧ Stop stopped = Pool.Returns stopped
    ∧ Start stopped 30000000000 = Pool.Returns (true, restarted)
    ∧ Stop restarted = Pool.Panics.
Proof.
  apply (Stop_after_restart_panics
           {| monitor_running := true; stopCh_closed := false |} 30000000000).
  - lia.
  - reflexivity.
  - reflexivity.
Defined.

End MonitorProps.

(** ** Pool registry and service manager: the paths of a request *)

Module ManagerProps.
Import Pool Monitor Manager GoIntFacts MonitorFacts ManagerFacts.

(** [GetOrCreatePool] keeps one pool per name: asking again returns the
    same pool and leaves the registry as it is; the pools of other names
    are untouched; a pool that had to be created is idle and empty, with
    the sizes of the optimizer's configuration. *)
Theorem GetOrCreatePool_once (o : Optimizer) (nm : string) :
  GetOrCreatePool (snd (GetOrCreatePool o nm)) nm
    = (fst (GetOrCreatePool o nm), snd (GetOrCreatePool o nm))
  ∧ pools (snd (GetOrCreatePool o nm)) !! nm = Some (fst (GetOrCreatePool o nm))
  ∧ (∀ other, other ≠ nm →
       pools (snd (GetOrCreatePool o nm)) !! other = pools o !! other)
  ∧ (pools o !! nm = None →
     fst (GetOrCreatePool o nm)
       = NewWorkerPool Job nm (MaxWorkers (opt_config o)) (QueueSize (opt_config o))).
Proof.
  unfold GetOrCreatePool.
  destruct (pools o !! nm) as [pool |] eqn:Hnm; cbn [fst snd pools].
  - rewrite Hnm. repeat split. intros Habs. discriminate Habs.
  - rewrite lookup_insert_eq. repeat split.
    intros other Hne. apply lookup_insert_ne. congruence.
Qed.

Lemma registry_after_pools (names : list string) :
  ∀ (o : Optimizer) (nm : string) (wp : WorkerPool Job),
    pools (registry_after o names) !! nm = Some wp →
    pools o !! nm = Some wp
    ∨ wp = NewWorkerPool Job nm (MaxWorkers (opt_config o)) (QueueSize (opt_config o)).
Proof.
  induction names as [| n names IH]; intros o nm wp Hwp; [left; exact Hwp |].
  unfold registry_after in Hwp. cbn [fold_left] in Hwp.
  apply IH in Hwp. unfold GetOrCreatePool in Hwp.
  destruct (pools o !! n) as [pool |] eqn:Hn; cbn [snd pools opt_config] in Hwp;
    [exact Hwp |].
  destruct Hwp as [Hwp | Hwp]; [| right; exact Hwp].
  rewrite lookup_insert in Hwp.
  destruct (decide (n = nm)) as [-> | _]; [| left; exact Hwp].
  right. injection Hwp as <-. reflexivity.
Qed.

(** A queue size of 0 in the configuration means 1000, and 0 workers means
    twice the number of CPUs: every pool of a registry built by
    [NewOptimizer] has the defaulted sizes, so none has an unbuffered
    queue. *)
Theorem registry_pools_have_default_sizes (cfg : OptimizerConfig) (numCPU : nat)
    (names : list string) (nm : string) (wp : WorkerPool Job) :
  pools (registry_after (NewOptimizer cfg numCPU) names) !! nm = Some wp →
  queueSize Job wp = (if (QueueSize cfg =? 0)%nat then 1000%nat else QueueSize cfg)
  ∧ (0 < queueSize Job wp)%nat
  ∧ maxWorkers Job wp
    = (if (MaxWorkers cfg =? 0)%nat then (numCPU * 2)%nat else MaxWorkers cfg)
  ∧ jobQueue Job wp = [].
Proof.
  intros Hwp. apply registry_after_pools in Hwp as [Hwp | ->].
  - cbn in Hwp. rewrite lookup_empty in Hwp. discriminate.
  - cbn. repeat split.
    destruct (Nat.eqb_spec (QueueSize cfg) 0); lia.
Qed.

Lemma registry_pools_have_default_sizes_witness :
  ∃ wp, pools (registry_after (NewOptimizer {| MaxWorkers := 0; QueueSize := 0 |} 4)
                 ["bilibili"; "zhihu"]%string) !! "zhihu"%string = Some wp
        ∧ queueSize Job wp = 1000%nat ∧ maxWorkers Job wp = 8%nat.
Proof.
  exists (NewWorkerPool Job "zhihu" 8 1000).
  assert (Hwp : pools (registry_after (NewOptimizer {| MaxWorkers := 0; QueueSize := 0 |} 4)
                         ["bilibili"; "zhihu"]%string) !! "zhihu"%string
                = Some (NewWorkerPool Job "zhihu" 8 1000))
    by (vm_compute; reflexivity).
  split; [exact Hwp |].
  destruct (registry_pools_have_default_sizes
              {| MaxWorkers := 0; QueueSize := 0 |} 4 ["bilibili"; "zhihu"]%string
              "zhihu" _ Hwp) as (Hq & _ & Hw & _).
  split; [exact Hq | exact Hw].
Defined.

(** A request for a service without a client fails at once: it returns
    the not-found error, takes no token, creates no pool, calls no client,
    and records one metric with the error flag. *)
Theorem unregistered_service_fails_fast (sm : ServiceManager) (s : string)
    (req : APIRequest) (run : Run) :
  clients sm !! s = None →
  RequestWithFallback sm s req run
    = (None, Some (ErrClientNotFound s),
       with_monitor sm (RecordAPIRequest (monitor sm) s (since_start run) true)).
Proof.
  intros Hnone. unfold RequestWithFallback, body, primary, GetClient.
  rewrite Hnone. reflexivity.
Qed.

Lemma unregistered_service_fails_fast_witness :
  fst (RequestWithFallback chain_manager "douyu" get_videos first_run)
    = (None, Some (ErrClientNotFound "douyu")).
Proof.
  rewrite (unregistered_service_fails_fast chain_manager "douyu" get_videos first_run).
  - reflexivity.
  - vm_compute. reflexivity.
Defined.

(** A request the limiter denies returns the rate-limit error: no pool is
    created, nothing is submitted, no client is called, and one metric with
    the error flag is recorded. *)
Theorem rate_limited_request_stops (sm : ServiceManager) (s : string)
    (req : APIRequest) (run : Run) (client : APIClient) :
  clients sm !! s = Some client →
  fst (RateLimit.Allow (limiter sm) s (fst (allow_clock run)) (snd (allow_clock run)))
    = false →
  RequestWithFallback sm s req run
    = (None, Some (ErrRateLimit s),
       with_monitor
         (with_limiter sm
            (snd (RateLimit.Allow (limiter sm) s
                    (fst (allow_clock run)) (snd (allow_clock run)))))
         (RecordAPIRequest (monitor sm) s (since_start run) true)).
Proof.
  intros Hclient Hdenied. unfold RequestWithFallback, body, primary, GetClient.
  rewrite Hclient. cbn zeta. rewrite Hdenied. reflexivity.
Qed.

Lemma rate_limited_request_stops_witness :
  fst (RequestWithFallback closed_manager "A" get_videos first_run)
    = (None, Some (ErrRateLimit "A")).
Proof.
  rewrite (rate_limited_request_stops closed_manager "A" get_videos first_run
             (failing "A")).
  - reflexivity.
  - vm_compute. reflexivity.
  - vm_compute. reflexivity.
Defined.

(** A request that succeeds calls the upstream twice, once in the job and
    once more after it, and returns the response of the second call,
    whatever the status code of either; no fallback is called, and the
    metric is recorded without the error flag. *)
Theorem success_issues_two_requests (sm : ServiceManager) (s : string)
    (req : APIRequest) (run : Run) (client : APIClient) (r1 r2 : APIResponse) :
  clients sm !! s = Some client →
  fst (RateLimit.Allow (limiter sm) s (fst (allow_clock run)) (snd (allow_clock run)))
    = true →
  fst (Submit Job (fst (GetOrCreatePool (optimizer sm) s)) (new_job s req run)) = None →
  wait run = ResultFirst →
  fst (Request client req) = ReqOk r1 →
  fst (Request (snd (Request client req)) req) = ReqOk r2 →
  let r := RequestWithFallback sm s req run in
  fst r = (Some r2, None)
  ∧ clients (snd r) !! s = Some (snd (Request (snd (Request client req)) req))
  ∧ (∀ other, other ≠ s → clients (snd r) !! other = clients sm !! other)
  ∧ monitor (snd r) = RecordAPIRequest (monitor sm) s (since_start run) false.
Proof.
  intros Hclient Hallow Hsubmit Hwait Hfirst Hsecond. cbn zeta.
  assert (job_Function client req = (None, snd (Request client req))) as Hjob.
  { unfold job_Function. rewrite Hfirst. destruct (StatusCode r1 <? 400); reflexivity. }
  unfold RequestWithFallback, body, primary, GetClient.
  rewrite Hclient. cbn zeta. rewrite Hallow. cbn [negb with_limiter optimizer].
  destruct (Submit Job _ _) as [[err |] pool1]; [discriminate Hsubmit |].
  rewrite Hwait, Hjob. cbn [fst snd]. rewrite Hsecond.
  cbn. repeat split.
  - apply lookup_insert_eq.
  - intros other Hne. rewrite !lookup_insert_ne by congruence. reflexivity.
Qed.

Lemma success_issues_two_requests_witness :
  fst (RequestWithFallback
         (NewServiceManager chain_config 1 {[ "A" := unavailable ]})
         "A" get_videos first_run)
    = (Some {| StatusCode := 503; Body := []; Duration := 1000 |}, None).
Proof.
  apply (success_issues_two_requests
           (NewServiceManager chain_config 1 {[ "A" := unavailable ]})
           "A" get_videos first_run unavailable
           {| StatusCode := 503; Body := []; Duration := 1000 |}
           {| StatusCode := 503; Body := []; Duration := 1000 |}).
  - vm_compute. reflexivity.
  - vm_compute. reflexivity.
  - vm_compute. reflexivity.
  - reflexivity.
  - reflexivity.
  - reflexivity.
Defined.

Lemma job_Function_client (client : APIClient) (req : APIRequest) :
  snd (job_Function client req) = snd (Request client req).
Proof. unfold job_Function. destruct (fst (Request client req)); reflexivity. Qed.

(** When the context ends before the job's result is received, the call
    returns the context's error and tries no fallback: the clients of
    the other services are as they were, and one metric with the error
    flag is recorded.  The worker is not stopped: the client of the
    requested service has been called once if the worker has run the job
    by then, and not at all if the job is still with the pool. *)
Theorem cancelled_request_skips_fallbacks (sm : ServiceManager) (s : string)
    (req : APIRequest) (run : Run) (client : APIClient) (ce : context_error)
    (ran : bool) :
  clients sm !! s = Some client →
  fst (RateLimit.Allow (limiter sm) s (fst (allow_clock run)) (snd (allow_clock run)))
    = true →
  fst (Submit Job (fst (GetOrCreatePool (optimizer sm) s)) (new_job s req run)) = None →
  wait run = DoneFirst ce ran →
  let r := RequestWithFallback sm s req run in
  fst r = (None, Some (ErrContext ce))
  ∧ clients (snd r) !! s = Some (if ran then snd (Request client req) else client)
  ∧ (∀ other, other ≠ s → clients (snd r) !! other = clients sm !! other)
  ∧ monitor (snd r) = RecordAPIRequest (monitor sm) s (since_start run) true.
Proof.
  intros Hclient Hallow Hsubmit Hwait. cbn zeta.
  unfold RequestWithFallback, body, primary, GetClient.
  rewrite Hclient. cbn zeta. rewrite Hallow. cbn [negb with_limiter optimizer].
  destruct (Submit Job _ _) as [[err |] pool1]; [discriminate Hsubmit |].
  rewrite Hwait. rewrite job_Function_client.
  destruct ran; cbn; repeat split.
  - apply lookup_insert_eq.
  - intros other Hne. apply lookup_insert_ne. congruence.
  - exact Hclient.
Qed.

Lemma cancelled_request_skips_fallbacks_witness :
  fst (RequestWithFallback chain_manager "A" get_videos
         {| allow_clock := (10, 10); job_stamp := 10;
            wait := DoneFirst DeadlineExceeded true; since_start := 5000000 |})
    = (None, Some (ErrContext DeadlineExceeded))
  ∧ calls <$> clients (snd (RequestWithFallback chain_manager "A" get_videos
                             {| allow_clock := (10, 10); job_stamp := 10;
                                wait := DoneFirst DeadlineExceeded true;
                                since_start := 5000000 |})) !! "A"%string
    = Some 1%nat.
Proof.
  destruct (cancelled_request_skips_fallbacks chain_manager "A" get_videos
              {| allow_clock := (10, 10); job_stamp := 10;
                 wait := DoneFirst DeadlineExceeded true; since_start := 5000000 |}
              (failing "A") DeadlineExceeded true) as (Hret & Hclient & _).
  - vm_compute. reflexivity.
  - vm_compute. reflexivity.
  - vm_compute. reflexivity.
  - reflexivity.
  - split; [exact Hret |]. rewrite Hclient. reflexivity.
Defined.

Lemma try_fallbacks_all_fail (req : APIRequest) (chain : list string) :
  ∀ cs : gmap string APIClient,
    NoDup chain →
    (∀ fb c, fb ∈ chain → cs !! fb = Some c → ∃ e, fst (Request c req) = ReqErr e) →
    fst (try_fallbacks cs chain req) = None
    ∧ (∀ fb c, fb ∈ chain → cs !! fb = Some c →
         snd (try_fallbacks cs chain req) !! fb = Some (snd (Request c req)))
    ∧ (∀ x, x ∉ chain → snd (try_fallbacks cs chain req) !! x = cs !! x).
Proof.
  induction chain as [| fb0 chain IH]; intros cs Hdup Hfail.
  - cbn. repeat split. intros fb c Hin. apply elem_of_nil in Hin. contradiction.
  - apply NoDup_cons in Hdup as [Hfresh Hdup]. cbn [try_fallbacks].
    destruct (cs !! fb0) as [c0 |] eqn:Hc0.
    + destruct (Hfail fb0 c0 (list_elem_of_here _ _) Hc0) as [e He]. rewrite He.
      destruct (IH (<[fb0 := snd (Request c0 req)]> cs) Hdup) as (Hnone & Hcalled & Hrest).
      { intros fb c Hin Hc. apply (Hfail fb c (list_elem_of_further _ _ _ Hin)).
        rewrite lookup_insert_ne in Hc; [exact Hc |]. intros ->. contradiction. }
      split; [exact Hnone |]. split.
      * intros fb c Hin Hc. apply elem_of_cons in Hin as [-> | Hin].
        -- rewrite Hrest by exact Hfresh. rewrite lookup_insert_eq. congruence.
        -- apply Hcalled; [exact Hin |].
           rewrite lookup_insert_ne; [exact Hc |]. intros ->. contradiction.
      * intros x Hx. apply not_elem_of_cons in Hx as [Hne Hx].
        rewrite Hrest by exact Hx. apply lookup_insert_ne. congruence.
    + destruct (IH cs Hdup) as (Hnone & Hcalled & Hrest).
      { intros fb c Hin Hc. exact (Hfail fb c (list_elem_of_further _ _ _ Hin) Hc). }
      split; [exact Hnone |]. split.
      * intros fb c Hin Hc. apply elem_of_cons in Hin as [-> | Hin]; [congruence |].
        exact (Hcalled fb c Hin Hc).
      * intros x Hx. apply not_elem_of_cons in Hx as [_ Hx]. exact (Hrest x Hx).
Qed.

(** When the job fails and every registered fallback of the chain fails
    too, the call returns the all-services-failed error.  Each registered
    fallback has been called exactly once, names without a client have been
    skipped, and no other client has been called. *)
Theorem all_fallbacks_fail (sm sm4 : ServiceManager) (s : string)
    (req : APIRequest) (run : Run) (e : error) :
  primary sm s req run = (JobFailed e, sm4) →
  NoDup (fallbacks_of (config sm) s) →
  (∀ fb c, fb ∈ fallbacks_of (config sm) s → clients sm4 !! fb = Some c →
     ∃ e', fst (Request c req) = ReqErr e') →
  let r := RequestWithFallback sm s req run in
  fst r = (None, Some (ErrAllFailed s))
  ∧ (∀ fb c, fb ∈ fallbacks_of (config sm) s → clients sm4 !! fb = Some c →
       clients (snd r) !! fb = Some (snd (Request c req)))
  ∧ (∀ x, x ∉ fallbacks_of (config sm) s → clients (snd r) !! x = clients sm4 !! x).
Proof.
  intros Hprimary Hdup Hfail. cbn zeta.
  destruct (try_fallbacks_all_fail req _ (clients sm4) Hdup Hfail)
    as (Hnone & Hcalled & Hrest).
  pose proof (primary_frame sm s req run) as [_ Hcfg].
  rewrite Hprimary in Hcfg. cbn [snd] in Hcfg.
  unfold RequestWithFallback, body. rewrite Hprimary.
  unfold fallback. rewrite Hcfg, Hnone. cbn. repeat split; assumption.
Qed.

Lemma all_fallbacks_fail_witness :
  fst (RequestWithFallback dark_manager "A" get_videos first_run)
    = (None, Some (ErrAllFailed "A")).
Proof.
  refine (proj1 (all_fallbacks_fail dark_manager
                   (snd (primary dark_manager "A" get_videos first_run))
                   "A" get_videos first_run (ErrUpstream "timeout") _ _ _)).
  - vm_compute. reflexivity.
  - apply (bool_decide_unpack _). vm_compute. exact I.
  - intros fb c Hfb Hc. exists (ErrUpstream "timeout").
    change (fallbacks_of (config dark_manager) "A") with ["B"; "C"]%string in Hfb.
    apply elem_of_cons in Hfb as [-> | Hfb].
    + vm_compute in Hc. injection Hc as <-. reflexivity.
    + apply elem_of_cons in Hfb as [-> | Hfb].
      * vm_compute in Hc. injection Hc as <-. reflexivity.
      * apply elem_of_nil in Hfb. contradiction.
Defined.

(** The flag recorded with the metric is [err != nil] for the
    function-level [err], and differs from the returned error on two
    paths.  When the pool refuses the job, the error is returned from a
    variable of the [if] and the flag is clear.  When the job fails, [err]
    keeps its error through the fallback loop: the flag is set whether a
    fallback answers, and the call returns its response and no error, or
    all of them fail.  On every other path the flag tells whether an
    error is returned. *)
Theorem recorded_flag_by_path (sm : ServiceManager) (s : string)
    (req : APIRequest) (run : Run) :
  let r := RequestWithFallback sm s req run in
  monitor (snd r)
    = RecordAPIRequest (monitor sm) s (since_start run) (recorded_flag sm s req run)
  ∧ (∀ client e,
       clients sm !! s = Some client →
       fst (RateLimit.Allow (limiter sm) s (fst (allow_clock run)) (snd (allow_clock run)))
         = true →
       fst (Submit Job (fst (GetOrCreatePool (optimizer sm) s)) (new_job s req run))
         = Some e →
       fst r = (None, Some (ErrPool e)) ∧ recorded_flag sm s req run = false)
  ∧ (∀ e sm4,
       primary sm s req run = (JobFailed e, sm4) →
       recorded_flag sm s req run = true
       ∧ (∀ resp,
            fst (try_fallbacks (clients sm4) (fallbacks_of (config sm) s) req) = Some resp →
            fst r = (Some resp, None))
       ∧ (fst (try_fallbacks (clients sm4) (fallbacks_of (config sm) s) req) = None →
          fst r = (None, Some (ErrAllFailed s))))
  ∧ ((∀ e, snd (fst r) ≠ Some (ErrPool e)) →
     (∀ e sm4, primary sm s req run ≠ (JobFailed e, sm4)) →
     recorded_flag sm s req run = bool_decide (snd (fst r) ≠ None)).
Proof.
  cbn zeta. split; [| split; [| split]].
  - unfold RequestWithFallback, recorded_flag. cbn [snd monitor with_monitor].
    rewrite body_monitor. reflexivity.
  - intros client e Hclient Hallow Hsubmit.
    unfold recorded_flag, RequestWithFallback, body, primary, GetClient.
    rewrite Hclient. cbn zeta. rewrite Hallow. cbn [negb with_limiter optimizer].
    destruct (Submit Job _ _) as [[e' |] pool1]; [| discriminate Hsubmit].
    destruct e, e'. split; reflexivity.
  - intros e sm4 Hprimary.
    pose proof (primary_frame sm s req run) as [_ Hcfg].
    rewrite Hprimary in Hcfg. cbn [snd] in Hcfg.
    unfold recorded_flag, RequestWithFallback, body. rewrite Hprimary.
    unfold fallback. rewrite Hcfg. cbn zeta.
    destruct (fst (try_fallbacks (clients sm4) (fallbacks_of (config sm) s) req))
      as [resp |]; cbn; (split; [reflexivity |]); split.
    + intros resp' [= <-]. reflexivity.
    + intros Habs. discriminate Habs.
    + intros resp' Habs. discriminate Habs.
    + intros _. reflexivity.
  - unfold recorded_flag, RequestWithFallback. cbn [fst snd].
    unfold body, primary.
    destruct (GetClient sm s) as [client | e]; [| intros _ _; reflexivity].
    cbn zeta.
    destruct (negb _); [intros _ _; reflexivity |].
    destruct (Submit Job _ _) as [[e |] pool1].
    { intros Hpool _. exfalso. exact (Hpool e eq_refl). }
    destruct (wait run) as [| ce ran]; [| intros _ _; reflexivity].
    destruct (fst (job_Function client req)) as [e |]; [| intros _ _; reflexivity].
    intros _ Hjob. exfalso. exact (Hjob e _ eq_refl).
Qed.

Lemma recorded_flag_by_path_witness :
  (fst (RequestWithFallback busy_manager "A" get_videos first_run)
     = (None, Some (ErrPool ErrQueueFull))
   ∧ recorded_flag busy_manager "A" get_videos first_run = false)
  ∧ (recorded_flag chain_manager "A" get_videos first_run = true
     ∧ fst (RequestWithFallback chain_manager "A" get_videos first_run)
       = (Some response_of_C, None)).
Proof.
  split.
  - destruct (recorded_flag_by_path busy_manager "A" get_videos first_run)
      as (_ & Hfull & _).
    apply (Hfull (failing "A") ErrQueueFull); vm_compute; reflexivity.
  - destruct (recorded_flag_by_path chain_manager "A" get_videos first_run)
      as (_ & _ & Hfailed & _).
    destruct (Hfailed (ErrUpstream "timeout")
                (snd (primary chain_manager "A" get_videos first_run)))
      as (Hflag & Hanswer & _).
    + vm_compute. reflexivity.
    + split; [exact Hflag |]. apply Hanswer. vm_compute. reflexivity.
Defined.

End ManagerProps.
